(** * ArborX tree traversal: spatial and nearest kernels

    Shallow embedding of [src/details/ArborX_DetailsTreeTraversal.hpp]:
    the two spatial kernels (explicit stack over two-child nodes, rope
    following over left-child-plus-rope nodes), the nearest kernel with its
    bounded max-heap and pruning radius, the one-leaf kernels and the
    dispatching constructor.  Callback invocations are modelled as the list
    of their arguments, in invocation order. *)

From Stdlib Require Import ZArith List Bool Lia Permutation Sorted.
From Stdlib Require Import Floats.SpecFloat.
Import ListNotations.

Set Implicit Arguments.
Local Open Scope Z_scope.

(** ** Outcome of a kernel run

    [Undefined] stands for C++ undefined behaviour (null or out-of-range node
    dereference, write past the 64-slot stack, [top()] of an empty heap, a
    failed [assert]); [OutOfFuel] for a loop cut off by the fuel bound. *)

Inductive result (A : Type) : Type :=
| Ret (a : A)
| Undefined
| OutOfFuel.

Arguments Ret {A} a.
Arguments Undefined {A}.
Arguments OutOfFuel {A}.

Definition bind {A B : Type} (m : result A) (f : A -> result B) : result B :=
  match m with
  | Ret a => f a
  | Undefined => Undefined
  | OutOfFuel => OutOfFuel
  end.

Notation "x <- m ;; k" := (bind m (fun x => k))
  (at level 61, m at next level, right associativity).
Notation "' p <- m ;; k" := (bind m (fun x => match x with p => k end))
  (at level 61, p pattern, m at next level, right associativity).

(** ** Floating-point distances

    The kernels only compare distances ([<], [<=]) and use the constants
    [0.f] and [+infinity]; [float] is IEEE 754 data with the comparisons of
    the standard library's specification ([SFltb], [SFleb]), NaN and the
    infinities included; the binary32 values are among them. *)

Definition float : Type := spec_float.
Definition infinity : float := S754_infinity false.
Definition zero : float := S754_zero false.

Definition is_nan (x : float) : bool :=
  match x with S754_nan => true | _ => false end.


(** ** Data model *)

(** Modelled from the spec: [ArborX_DetailsNode.hpp] is not among the
    sources.  Section 3 gives the two node encodings by their fields
    [{is_leaf, left_child, right_child | rope, leaf_index}]; the bounding
    volume read by [getBoundingVolume] is kept with the node. *)
Module TwoChildren.
Record Node (BV : Type) : Type := mkNode {
    is_leaf : bool;
    left_child : Z;
    right_child : Z;
    leaf_index : Z;
    bounding_volume : BV
  }.
End TwoChildren.

Module LeftChildAndRope.
Record Node (BV : Type) : Type := mkNode {
    is_leaf : bool;
    left_child : Z;
    rope : Z;
    leaf_index : Z;
    bounding_volume : BV
  }.
End LeftChildAndRope.

(** Modelled from the spec: the rope value that ends a depth-first walk
    ("SENTINEL"); it is the index of no node. *)
Definition ROPE_SENTINEL : Z := -1.

(** A [Node const *]: [None] is [nullptr], [Some i] points to node [i]. *)
Definition pointer : Type := option Z.

Definition is_null (p : pointer) : bool :=
  match p with None => true | Some _ => false end.

Definition pointer_eqb (p q : pointer) : bool :=
  match p, q with
  | Some i, Some j => i =? j
  | None, None => true
  | _, _ => false
  end.

(** Modelled from the spec: the BVH collaborator of section 6, of which the
    sources hold only the calls: [size], [empty], [getRoot], [getNodePtr],
    [getBoundingVolume]. *)
Record BVH (Node : Type) : Type := mkBVH {
  bvh_nodes : list Node;
  bvh_size : Z;
  bvh_root : Z
}.

Section Accessors.
Context {Node : Type}.

Definition size (bvh : BVH Node) : Z := bvh_size bvh.
Definition empty (bvh : BVH Node) : bool := size bvh =? 0.
Definition getRoot (bvh : BVH Node) : pointer := Some (bvh_root bvh).
Definition getNodePtr (bvh : BVH Node) (i : Z) : pointer := Some i.

(** Reading through a node pointer. *)
Definition deref (bvh : BVH Node) (p : pointer) : result Node :=
    match p with
    | None => Undefined
    | Some i =>
        if i <? 0 then Undefined
        else match nth_error (bvh_nodes bvh) (Z.to_nat i) with
             | Some n => Ret n
             | None => Undefined
             end
    end.
End Accessors.

(** The members the kernels use on a node of either encoding, and the
    tag-selected [getRightChild]. *)
Class NodeTag (BV Node : Type) : Type := {
  isLeaf : Node -> bool;
  left_child : Node -> Z;
  getLeafPermutationIndex : Node -> Z;
  getBoundingVolume : Node -> BV;
  getRightChild : BVH Node -> Node -> result Z
}.

#[export] Instance NodeWithTwoChildrenTag (BV : Type)
  : NodeTag BV (TwoChildren.Node BV) := {
  isLeaf := @TwoChildren.is_leaf BV;
  left_child := @TwoChildren.left_child BV;
  getLeafPermutationIndex := @TwoChildren.leaf_index BV;
  getBoundingVolume := @TwoChildren.bounding_volume BV;
  getRightChild := fun _ node => Ret (TwoChildren.right_child node)
}.

#[export] Instance NodeWithLeftChildAndRopeTag (BV : Type)
  : NodeTag BV (LeftChildAndRope.Node BV) := {
  isLeaf := @LeftChildAndRope.is_leaf BV;
  left_child := @LeftChildAndRope.left_child BV;
  getLeafPermutationIndex := @LeftChildAndRope.leaf_index BV;
  getBoundingVolume := @LeftChildAndRope.bounding_volume BV;
  getRightChild := fun bvh node =>
    (* assert(!node->isLeaf()) *)
    if LeftChildAndRope.is_leaf node then Undefined
    else
      l <- deref bvh (getNodePtr bvh (LeftChildAndRope.left_child node));;
      Ret (LeftChildAndRope.rope l)
}.

(** ** The 64-slot node stack *)

Definition STACK_SIZE : nat := 64.

(** [*stack_ptr++ = x] *)
Definition stack_push {A : Type} (x : A) (stack : list A) : result (list A) :=
  if (length stack <? STACK_SIZE)%nat then Ret (x :: stack) else Undefined.

(** [*--stack_ptr] *)
Definition stack_pop {A : Type} (stack : list A) : result (A * list A) :=
  match stack with
  | x :: rest => Ret (x, rest)
  | [] => Undefined
  end.

(** [do { body } while (cond);] with a bound on the number of iterations. *)
Fixpoint do_while {S : Type} (body : S -> result S) (cond : S -> bool)
  (fuel : nat) (s : S) : result S :=
  match fuel with
  | O => OutOfFuel
  | Datatypes.S fuel' =>
      s' <- body s;;
      if cond s' then do_while body cond fuel' s' else Ret s'
  end.

(** ** Spatial kernels *)

Section Spatial.
Context {BV : Type}.

(** Modelled from the spec: [ArborX_Predicates.hpp] is not among the
    sources.  A spatial predicate exposes [(bv) -> bool] (section 3) and is
    used only as [predicate(bounding_volume)]. *)
Definition SpatialPredicate : Type := BV -> bool.

(** [operator()(OneLeafTree, queryIndex)] *)
Definition spatial_one_leaf {Node : Type} `{NodeTag BV Node}
    (bvh : BVH Node) (predicate : SpatialPredicate) : result (list Z) :=
    root <- deref bvh (getRoot bvh);;
    if predicate (getBoundingVolume root) then Ret [0] else Ret [].

Record SpatialState : Type := mkSpatial {
    sp_node : pointer;
    sp_stack : list pointer;
    sp_callbacks : list Z
  }.

(** One iteration of the stack-based loop. *)
Definition spatial_stack_body (bvh : BVH (TwoChildren.Node BV))
    (predicate : SpatialPredicate) (s : SpatialState) : result SpatialState :=
    node <- deref bvh (sp_node s);;
    let child_left := getNodePtr bvh (TwoChildren.left_child node) in
    let child_right := getNodePtr bvh (TwoChildren.right_child node) in
    nl <- deref bvh child_left;;
    nr <- deref bvh child_right;;
    let overlap_left := predicate (getBoundingVolume nl) in
    let overlap_right := predicate (getBoundingVolume nr) in
    let out1 :=
      if overlap_left && isLeaf nl
      then sp_callbacks s ++ [getLeafPermutationIndex nl]
      else sp_callbacks s in
    let out2 :=
      if overlap_right && isLeaf nr
      then out1 ++ [getLeafPermutationIndex nr]
      else out1 in
    let traverse_left := overlap_left && negb (isLeaf nl) in
    let traverse_right := overlap_right && negb (isLeaf nr) in
    if negb traverse_left && negb traverse_right then
      '(popped, rest) <- stack_pop (sp_stack s);;
      Ret (mkSpatial popped rest out2)
    else
      let next := if traverse_left then child_left else child_right in
      stack <- (if traverse_left && traverse_right
                then stack_push child_right (sp_stack s)
                else Ret (sp_stack s));;
      Ret (mkSpatial next stack out2).

(** [operator()(queryIndex)] for [NodeWithTwoChildrenTag]. *)
Definition spatial_stack (fuel : nat) (bvh : BVH (TwoChildren.Node BV))
    (predicate : SpatialPredicate) : result (list Z) :=
    s <- do_while (spatial_stack_body bvh predicate)
           (fun s => negb (is_null (sp_node s))) fuel
           (mkSpatial (getRoot bvh) [None] []);;
    Ret (sp_callbacks s).

Record RopeState : Type := mkRope {
    rp_next : Z;
    rp_callbacks : list Z
  }.

(** One iteration of the rope-following loop. *)
Definition spatial_rope_body (bvh : BVH (LeftChildAndRope.Node BV))
    (predicate : SpatialPredicate) (s : RopeState) : result RopeState :=
    node <- deref bvh (getNodePtr bvh (rp_next s));;
    if predicate (getBoundingVolume node) then
      if negb (isLeaf node) then
        Ret (mkRope (LeftChildAndRope.left_child node) (rp_callbacks s))
      else
        Ret (mkRope (LeftChildAndRope.rope node)
               (rp_callbacks s ++ [getLeafPermutationIndex node]))
    else
      Ret (mkRope (LeftChildAndRope.rope node) (rp_callbacks s)).

Definition spatial_rope_from (start : Z) (fuel : nat)
    (bvh : BVH (LeftChildAndRope.Node BV)) (predicate : SpatialPredicate)
    : result (list Z) :=
    s <- do_while (spatial_rope_body bvh predicate)
           (fun s => negb (rp_next s =? ROPE_SENTINEL)) fuel
           (mkRope start []);;
    Ret (rp_callbacks s).

(** [operator()(queryIndex)] for [NodeWithLeftChildAndRopeTag]:
      [int next = 0; // start with root]. *)
Definition spatial_rope (fuel : nat)
    (bvh : BVH (LeftChildAndRope.Node BV)) (predicate : SpatialPredicate)
    : result (list Z) :=
    spatial_rope_from 0 fuel bvh predicate.

(** The rope algorithm as section 4.2.2 of the specification words it:
      step 1 is [next = root_id]. *)
Definition spatial_rope_spec (fuel : nat)
    (bvh : BVH (LeftChildAndRope.Node BV)) (predicate : SpatialPredicate)
    : result (list Z) :=
    spatial_rope_from (bvh_root bvh) fuel bvh predicate.

End Spatial.

(** The general spatial [operator()] is selected by the node tag. *)
Class SpatialOperator (BV Node : Type) : Type :=
  spatial_operator : nat -> BVH Node -> @SpatialPredicate BV -> result (list Z).

#[export] Instance spatial_operator_two_children (BV : Type)
  : SpatialOperator BV (TwoChildren.Node BV) := @spatial_stack BV.

#[export] Instance spatial_operator_rope (BV : Type)
  : SpatialOperator BV (LeftChildAndRope.Node BV) := @spatial_rope BV.

(** ** Bounded max-heap *)

Definition PairIndexDistance : Type := (Z * float)%type.

(** [CompareDistance::operator()]: [lhs.second < rhs.second]. *)
Definition CompareDistance (lhs rhs : PairIndexDistance) : bool :=
  SFltb (snd lhs) (snd rhs).

(** Entries on which [CompareDistance] is a strict weak order: no NaN. *)
Definition comparable (l : list PairIndexDistance) : Prop :=
  Forall (fun p => is_nan (snd p) = false) l.

(** Modelled from the spec: [ArborX_DetailsPriorityQueue.hpp] and
    [sortHeap] are not among the sources.  Section 4.4 gives the bounded
    max-heap by its operations: [push], [pop_push] (replace the top), [top]
    (an entry of greatest distance), [size], [data]; section 4.3.3 has the
    backing array sorted in ascending distance order.  The kernel is stated
    over any implementation with these operations. *)
Class PriorityQueue : Type := {
  heap : Type;
  empty_heap : heap;
  data : heap -> list PairIndexDistance;
  push : PairIndexDistance -> heap -> heap;
  popPush : PairIndexDistance -> heap -> heap;
  top : heap -> option PairIndexDistance;
  sortHeap : heap -> list PairIndexDistance;
  data_empty_heap : data empty_heap = [];
  data_push : forall x h, Permutation (data (push x h)) (x :: data h);
  top_data : forall h,
    match top h with
    | Some p => In p (data h)
    | None => data h = []
    end;
  top_greatest : forall h p,
    comparable (data h) -> top h = Some p ->
    Forall (fun q => CompareDistance p q = false) (data h);
  data_popPush : forall x h p,
    top h = Some p ->
    exists rest,
      Permutation (data h) (p :: rest) /\
      Permutation (data (popPush x h)) (x :: rest);
  sortHeap_Permutation : forall h, Permutation (sortHeap h) (data h);
  sortHeap_Sorted : forall h,
    comparable (data h) ->
    StronglySorted (fun a b => CompareDistance b a = false) (sortHeap h)
}.

(** [heap.size()], read as an [int]. *)
Definition heap_size `{PriorityQueue} (h : heap) : Z :=
  Z.of_nat (length (data h)).

(** ** Nearest kernel *)

Section Nearest.
Context {BV Geometry : Type}.

(** [Details::distance(geometry, bounding_volume)], from
    [ArborX_DetailsAlgorithms.hpp]: a parameter of the kernel. *)
Variable Details_distance : Geometry -> BV -> float.

(** Modelled from the spec: [ArborX_Predicates.hpp] is not among the
    sources.  A nearest predicate exposes [k()] and [geometry()]
    (section 3), read by [getK] and [getGeometry]. *)
Record NearestPredicate : Type := mkNearestPredicate {
  getK : Z;
  getGeometry : Geometry
}.

Context {Node : Type} `{NodeTag BV Node} `{PriorityQueue}.

(** The kernel's lambda [distance(node)]. *)
Definition distance (predicate : NearestPredicate) (node : Node) : float :=
  Details_distance (getGeometry predicate) (getBoundingVolume node).

(** [operator()(OneLeafTree, queryIndex)]: the callbacks and the returned
    count. *)
Definition nearest_one_leaf (bvh : BVH Node) (predicate : NearestPredicate)
  : result (list PairIndexDistance * Z) :=
  let k := getK predicate in
  if k <? 1 then Ret ([], 0)
  else
    root <- deref bvh (getRoot bvh);;
    Ret ([(0, distance predicate root)], 1).

Record NearestState : Type := mkNearest {
  st_node : pointer;
  st_distance_node : float;
  st_stack : list pointer;
  st_stack_distance : list float;
  st_heap : heap;
  st_radius : float
}.

(** The candidate insertion written once for each child in the source:
    [push] below [k] entries, [popPush] otherwise, then the radius is set to
    the top distance when the heap holds [k] entries. *)
Definition insert_leaf_pair (k : Z) (leaf_pair : PairIndexDistance)
  (h : heap) (radius : float) : result (heap * float) :=
  let h' :=
    if heap_size h <? k then push leaf_pair h else popPush leaf_pair h in
  if heap_size h' =? k then
    match top h' with
    | Some p => Ret (h', snd p)
    | None => Undefined
    end
  else Ret (h', radius).

(** The block guarded by [distance_node < radius]: the children, their
    distances, the two candidate insertions and the two descent flags. *)
Definition examine_children (bvh : BVH Node) (predicate : NearestPredicate)
  (s : NearestState)
  : result (bool * bool * pointer * pointer * float * float * heap * float) :=
  let k := getK predicate in
  if SFltb (st_distance_node s) (st_radius s) then
    node <- deref bvh (st_node s);;
    let child_left := getNodePtr bvh (left_child node) in
    right <- getRightChild bvh node;;
    let child_right := getNodePtr bvh right in
    nl <- deref bvh child_left;;
    nr <- deref bvh child_right;;
    let distance_left := distance predicate nl in
    let distance_right := distance predicate nr in
    '(h1, radius1) <-
      (if SFltb distance_left (st_radius s) && isLeaf nl
       then insert_leaf_pair k (getLeafPermutationIndex nl, distance_left)
              (st_heap s) (st_radius s)
       else Ret (st_heap s, st_radius s));;
    (* Note: radius may have been already updated here from the left child *)
    '(h2, radius2) <-
      (if SFltb distance_right radius1 && isLeaf nr
       then insert_leaf_pair k (getLeafPermutationIndex nr, distance_right)
              h1 radius1
       else Ret (h1, radius1));;
    let traverse_left := SFltb distance_left radius2 && negb (isLeaf nl) in
    let traverse_right := SFltb distance_right radius2 && negb (isLeaf nr) in
    Ret (traverse_left, traverse_right, child_left, child_right,
         distance_left, distance_right, h2, radius2)
  else
    Ret (false, false, None, None, zero, zero, st_heap s, st_radius s).

(** One iteration of the nearest loop.  [cuda_arch] selects the branch of
    [#if defined(__CUDA_ARCH__)]: without it the distances of the deferred
    nodes are kept in [stack_distance], with it they are computed again when
    a node is popped. *)
Definition nearest_body (cuda_arch : bool) (bvh : BVH Node)
  (predicate : NearestPredicate) (s : NearestState) : result NearestState :=
  '(traverse_left, traverse_right, child_left, child_right,
    distance_left, distance_right, h, radius) <-
    examine_children bvh predicate s;;
  if negb traverse_left && negb traverse_right then
    '(node, stack) <- stack_pop (st_stack s);;
    if cuda_arch then
      distance_node <-
        (if negb (is_null node)
         then n <- deref bvh node;; Ret (distance predicate n)
         else Ret (st_distance_node s));;
      Ret (mkNearest node distance_node stack (st_stack_distance s) h radius)
    else
      '(distance_node, stack_distance) <- stack_pop (st_stack_distance s);;
      Ret (mkNearest node distance_node stack stack_distance h radius)
  else
    let node :=
      if traverse_left && (SFleb distance_left distance_right
                           || negb traverse_right)
      then child_left else child_right in
    let distance_node :=
      if pointer_eqb node child_left then distance_left else distance_right in
    if traverse_left && traverse_right then
      stack <- stack_push
                 (if pointer_eqb node child_left then child_right
                  else child_left) (st_stack s);;
      stack_distance <-
        (if cuda_arch then Ret (st_stack_distance s)
         else stack_push
                (if pointer_eqb node child_left then distance_right
                 else distance_left) (st_stack_distance s));;
      Ret (mkNearest node distance_node stack stack_distance h radius)
    else
      Ret (mkNearest node distance_node (st_stack s) (st_stack_distance s)
             h radius).

(** The state before the loop.  The scratch view given to the heap holds
    exactly [k] entries ([assert(k == (int)buffer.size())]) and starts
    empty. *)
Definition nearest_init (cuda_arch : bool) (bvh : BVH Node) : NearestState :=
  mkNearest (getRoot bvh) zero [None]
    (if cuda_arch then [] else [zero]) empty_heap infinity.

Definition nearest_loop (cuda_arch : bool) (fuel : nat) (bvh : BVH Node)
  (predicate : NearestPredicate) (s : NearestState) : result NearestState :=
  do_while (nearest_body cuda_arch bvh predicate)
    (fun s => negb (is_null (st_node s))) fuel s.

(** [operator()(queryIndex)]: the callbacks, in order, and the returned
    count [heap.size()]. *)
Definition nearest (cuda_arch : bool) (fuel : nat) (bvh : BVH Node)
  (predicate : NearestPredicate) : result (list PairIndexDistance * Z) :=
  let k := getK predicate in
  if k <? 1 then Ret ([], 0)
  else
    s <- nearest_loop cuda_arch fuel bvh predicate
           (nearest_init cuda_arch bvh);;
    Ret (sortHeap (st_heap s), heap_size (st_heap s)).

End Nearest.

(** ** The scratch of the nearest queries *)

Definition INT_MAX : Z := 2147483647.

(** What an [int] keeps of a sum: its low 32 bits, in two's complement. *)
Definition int_wrap (z : Z) : Z :=
  (z + 2147483648) mod 4294967296 - 2147483648.

(** [view(i)] on a view of one dimension. *)
Definition view_get {A : Type} (view : list A) (i : Z) : result A :=
  if i <? 0 then Undefined
  else match nth_error view (Z.to_nat i) with
       | Some x => Ret x
       | None => Undefined
       end.

(** Modelled from the spec: [exclusivePrefixSum] and [lastElement] come
    from [ArborX_DetailsUtils.hpp], which is not among the sources.
    Section 4.5 has [offset[0..Q]] computed as the exclusive prefix sum of
    the [k_i]: the scan leaves in each entry the sum of the entries before
    it. *)
Fixpoint exclusivePrefixSum_from (sum : Z) (view : list Z) : list Z :=
  match view with
  | [] => []
  | x :: rest => sum :: exclusivePrefixSum_from (int_wrap (sum + x)) rest
  end.

Definition exclusivePrefixSum (view : list Z) : list Z :=
  exclusivePrefixSum_from 0 view.

Definition lastElement (view : list Z) : result Z :=
  match view with
  | [] => Undefined
  | x :: rest => Ret (last rest x)
  end.

(** A [Buffer]: a view of heap entries, given by the range that it covers
    of the one allocation; the entries are scratch that only the heap
    operations write. *)
Record Buffer : Type := mkBuffer {
  buffer_begin : Z;
  buffer_end : Z
}.

(** [buffer.size()] *)
Definition buffer_size (buffer : Buffer) : Z :=
  buffer_end buffer - buffer_begin buffer.

(** [Kokkos::subview(buffer, Kokkos::make_pair(first, second))]: the
    entries [first .. second - 1] of [buffer].  Taking the view reads no
    entry; whether the range lies in the allocation is for its user. *)
Definition subview (buffer : Buffer) (range : Z * Z) : Buffer :=
  mkBuffer (buffer_begin buffer + fst range) (buffer_begin buffer + snd range).

Record BufferProvider : Type := mkBufferProvider {
  buffer_ : Buffer;
  offset_ : list Z
}.

(** [BufferProvider::operator()(i)]: the entries between [offset_(i)] and
    the offset that follows it. *)
Definition provide (provider : BufferProvider) (i : Z) : result Buffer :=
  first <- view_get (offset_ provider) i;;
  second <- view_get (offset_ provider) (i + 1);;
  Ret (subview (buffer_ provider) (first, second)).

(** The sum of the [k_i] of a batch. *)
Definition total_k {Geometry : Type}
  (predicates : list (@NearestPredicate Geometry)) : Z :=
  fold_right Z.add 0 (map getK predicates).

(** [allocateBuffer(space)].  [offset] has one entry more than there are
    queries; it is allocated without initializing, and [uninitialized] is
    what its last entry holds when the others have been set to the [k_i].
    The buffer is a view of [buffer_size] entries: a negative [int] is no
    number of entries, and the allocation fails. *)
Definition allocateBuffer {Geometry : Type} (uninitialized : Z)
  (predicates : list (@NearestPredicate Geometry)) : result BufferProvider :=
  let offset := map getK predicates ++ [uninitialized] in
  let offset := exclusivePrefixSum offset in
  buffer_size <- lastElement offset;;
  if buffer_size <? 0 then Undefined
  else Ret (mkBufferProvider (mkBuffer 0 buffer_size) offset).

(** The query indices of a [RangePolicy(space, 0, n)]. *)
Definition query_indices (n : nat) : list Z := map Z.of_nat (seq 0 n).

(** The first [n] entries of [view] are entries of [buffer]. *)
Definition holds_entries (buffer view : Buffer) (n : Z) : bool :=
  (buffer_begin buffer <=? buffer_begin view)
  && (buffer_begin view + n <=? buffer_end buffer).

Section NearestScratch.
Context {BV Geometry : Type}.
Variable Details_distance : Geometry -> BV -> float.
Context {Node : Type} `{NodeTag BV Node} `{PriorityQueue}.

(** [operator()(queryIndex)] with what it reads of the batch: the predicate
    and the scratch view of the query, over which the heap is laid;
    [assert(k == (int)buffer.size())] wants the view of [k] entries.  The
    heap keeps its entries in the first slots of the view, as many as
    [heap.size()], which never decreases: the [n] entries that the kernel
    returns with have been written, and a slot outside the allocated buffer
    is a write out of bounds. *)
Definition nearest_query (cuda_arch : bool) (fuel : nat) (bvh : BVH Node)
  (predicates : list (@NearestPredicate Geometry))
  (provider : BufferProvider) (queryIndex : Z)
  : result (list PairIndexDistance * Z) :=
  predicate <- view_get predicates queryIndex;;
  buffer <- provide provider queryIndex;;
  let k := getK predicate in
  if k <? 1 then Ret ([], 0)
  else if k =? buffer_size buffer then
    '(callbacks, n) <-
      nearest Details_distance cuda_arch fuel bvh predicate;;
    if (n =? 0) || holds_entries (buffer_ provider) buffer n
    then Ret (callbacks, n)
    else Undefined
  else Undefined.

End NearestScratch.

(** ** Dispatch *)

Definition result_map {A B : Type} (f : A -> B) (m : result A) : result B :=
  x <- m;; Ret (f x).

(** The arguments of one callback invocation (the predicate is the one of
    the query). *)
Inductive CallbackArgs : Type :=
| SpatialHit (leaf_index : Z)
| NearestHit (leaf_index : Z) (leaf_distance : float).

(** A predicate batch carries its tag; [Access::size] and [Access::get] read
    it as a list. *)
Inductive Predicates (BV Geometry : Type) : Type :=
| SpatialPredicates (predicates : list (@SpatialPredicate BV))
| NearestPredicates (predicates : list (@NearestPredicate Geometry)).

Arguments SpatialPredicates {BV Geometry} predicates.
Arguments NearestPredicates {BV Geometry} predicates.

Section Dispatch.
Context {BV Geometry : Type}.
Variable Details_distance : Geometry -> BV -> float.
Context {Node : Type} `{NodeTag BV Node} `{SpatialOperator BV Node}
  `{PriorityQueue}.

(** Constructor of [TreeTraversal<..., SpatialPredicateTag>]: one task per
    query; the result lists the callbacks of each launched task. *)
Definition TreeTraversal_spatial (fuel : nat) (bvh : BVH Node)
  (predicates : list (@SpatialPredicate BV)) : list (result (list Z)) :=
  if empty bvh then []
  else if size bvh =? 1 then map (spatial_one_leaf bvh) predicates
  else map (spatial_operator fuel bvh) predicates.

(** Constructor of [TreeTraversal<..., NearestPredicateTag>]: on a tree of
    two leaves or more it allocates the scratch, then launches one task per
    query index; a constructor that fails launches none. *)
Definition TreeTraversal_nearest (uninitialized : Z) (cuda_arch : bool)
  (fuel : nat) (bvh : BVH Node)
  (predicates : list (@NearestPredicate Geometry))
  : result (list (result (list PairIndexDistance * Z))) :=
  if empty bvh then Ret []
  else if size bvh =? 1
       then Ret (map (nearest_one_leaf Details_distance bvh) predicates)
  else
    provider <- allocateBuffer uninitialized predicates;;
    Ret (map (nearest_query Details_distance cuda_arch fuel bvh predicates
                provider)
           (query_indices (length predicates))).

(** [traverse(space, bvh, predicates, callback)]: the constructor selected
    by the tag of the batch; the result lists the callbacks of each task. *)
Definition traverse (uninitialized : Z) (cuda_arch : bool) (fuel : nat)
  (bvh : BVH Node) (predicates : Predicates BV Geometry)
  : result (list (result (list CallbackArgs))) :=
  match predicates with
  | SpatialPredicates ps =>
      Ret (map (result_map (map SpatialHit))
             (TreeTraversal_spatial fuel bvh ps))
  | NearestPredicates ps =>
      tasks <- TreeTraversal_nearest uninitialized cuda_arch fuel bvh ps;;
      Ret (map (result_map
                  (fun r => map (fun p => NearestHit (fst p) (snd p)) (fst r)))
             tasks)
  end.

End Dispatch.

(** ** A reference heap: an unordered list scanned for its greatest entry *)

Module ListHeap.

(** The greatest entry and the others. *)
Fixpoint extract_max (l : list PairIndexDistance)
  : option (PairIndexDistance * list PairIndexDistance) :=
  match l with
  | [] => None
  | x :: l' =>
      match extract_max l' with
      | None => Some (x, [])
      | Some (m, rest) =>
          if CompareDistance x m then Some (m, x :: rest) else Some (x, l')
      end
  end.

Fixpoint insert_sorted (x : PairIndexDistance) (l : list PairIndexDistance)
  : list PairIndexDistance :=
  match l with
  | [] => [x]
  | y :: l' =>
      if CompareDistance x y then x :: y :: l' else y :: insert_sorted x l'
  end.

Fixpoint sort (l : list PairIndexDistance) : list PairIndexDistance :=
  match l with
  | [] => []
  | x :: l' => insert_sorted x (sort l')
  end.

Definition top (l : list PairIndexDistance) : option PairIndexDistance :=
  option_map fst (extract_max l).

Definition popPush (x : PairIndexDistance) (l : list PairIndexDistance)
  : list PairIndexDistance :=
  match extract_max l with
  | Some (_, rest) => x :: rest
  | None => [x]
  end.

End ListHeap.

(** ** The logical tree of a BVH and its two encodings *)

Section Logical.
Context {BV : Type}.

Inductive tree : Type :=
| Leaf (bv : BV) (index : Z)
| Internal (bv : BV) (l r : tree).

Definition tree_bv (t : tree) : BV :=
  match t with Leaf bv _ => bv | Internal bv _ _ => bv end.

Definition tree_is_leaf (t : tree) : bool :=
  match t with Leaf _ _ => true | Internal _ _ _ => false end.

(** The leaves, left to right: bounding volume and leaf index. *)
Fixpoint leaves (t : tree) : list (BV * Z) :=
  match t with
  | Leaf bv i => [(bv, i)]
  | Internal _ l r => leaves l ++ leaves r
  end.

Fixpoint internal_nodes (t : tree) : nat :=
  match t with
  | Leaf _ _ => 0
  | Internal _ l r => S (internal_nodes l + internal_nodes r)
  end.

Fixpoint all_nodes (t : tree) : nat :=
  match t with
  | Leaf _ _ => 1
  | Internal _ l r => S (all_nodes l + all_nodes r)
  end.

Fixpoint height (t : tree) : nat :=
  match t with
  | Leaf _ _ => 0
  | Internal _ l r => S (Nat.max (height l) (height r))
  end.

(** Node [i] of [bvh] is the root of a subtree shaped and labelled as [t];
    the right child is found by the encoding's [getRightChild]. *)
Fixpoint encodes {Node : Type} `{NodeTag BV Node} (bvh : BVH Node) (i : Z)
  (t : tree) : Prop :=
  exists n,
    deref bvh (Some i) = Ret n /\
    getBoundingVolume n = tree_bv t /\
    match t with
    | Leaf _ index => isLeaf n = true /\ getLeafPermutationIndex n = index
    | Internal _ l r =>
        isLeaf n = false /\
        exists j,
          getRightChild bvh n = Ret j /\
          encodes bvh (left_child n) l /\ encodes bvh j r
    end.

(** Rope encoding: node [i] is the root of [t] and the ropes of the subtree
    lead to the next node in depth-first order, [next] after the subtree. *)
Fixpoint encodes_rope (bvh : BVH (LeftChildAndRope.Node BV)) (i : Z)
  (t : tree) (next : Z) : Prop :=
  exists n,
    deref bvh (Some i) = Ret n /\
    LeftChildAndRope.bounding_volume n = tree_bv t /\
    LeftChildAndRope.rope n = next /\
    match t with
    | Leaf _ index =>
        LeftChildAndRope.is_leaf n = true /\
        LeftChildAndRope.leaf_index n = index
    | Internal _ l r =>
        LeftChildAndRope.is_leaf n = false /\
        exists j,
          encodes_rope bvh (LeftChildAndRope.left_child n) l j /\
          encodes_rope bvh j r next
    end.

(** The answer of a spatial query: the indices of the leaves whose bounding
    volume satisfies the predicate. *)
Definition hits (predicate : BV -> bool) (t : tree) : list Z :=
  map snd (filter (fun leaf => predicate (fst leaf)) (leaves t)).

(** Bounding volumes are nested and the predicate respects the nesting:
    a predicate that holds of a child's volume holds of its parent's. *)
Fixpoint hereditary (predicate : BV -> bool) (t : tree) : bool :=
  match t with
  | Leaf _ _ => true
  | Internal bv l r =>
      implb (predicate (tree_bv l) || predicate (tree_bv r)) (predicate bv)
      && hereditary predicate l && hereditary predicate r
  end.

(** The predicate holds of the root's volume when it holds of the volume of
    one of the root's children. *)
Definition root_respected (predicate : BV -> bool) (t : tree) : bool :=
  match t with
  | Leaf _ _ => true
  | Internal bv l r =>
      implb (predicate (tree_bv l) || predicate (tree_bv r)) (predicate bv)
  end.

(** The distance to a parent's volume is at most the distance to each
    child's. *)
Fixpoint monotone (dist : BV -> float) (t : tree) : bool :=
  match t with
  | Leaf _ _ => true
  | Internal bv l r =>
      SFleb (dist bv) (dist (tree_bv l)) && SFleb (dist bv) (dist (tree_bv r))
      && monotone dist l && monotone dist r
  end.

(** Every node below the root has a distance less than [+infinity]. *)
Fixpoint finite_below (dist : BV -> float) (t : tree) : bool :=
  match t with
  | Leaf _ _ => true
  | Internal _ l r =>
      SFltb (dist (tree_bv l)) infinity && SFltb (dist (tree_bv r)) infinity
      && finite_below dist l && finite_below dist r
  end.

(** The candidates of a nearest query: leaf index and distance. *)
Definition leaf_pairs (dist : BV -> float) (t : tree)
  : list PairIndexDistance :=
  map (fun leaf => (snd leaf, dist (fst leaf))) (leaves t).

(** Every leaf has a distance less than [+infinity]. *)
Definition finite_leaves (dist : BV -> float) (t : tree) : Prop :=
  Forall (fun q => SFltb (snd q) infinity = true) (leaf_pairs dist t).

End Logical.

(** ** What each spatial kernel emits, by recursion on the logical tree *)

Section SpatialTrace.
Context {BV : Type}.
Variable predicate : BV -> bool.

Definition tree_index (t : @tree BV) : Z :=
  match t with Leaf _ i => i | Internal _ _ _ => 0 end.

(** The callbacks of the stack kernel from an internal node: the leaf
    children first, then the left subtree, then the right one. *)
Fixpoint stack_trace (t : @tree BV) : list Z :=
  match t with
  | Leaf _ _ => []
  | Internal _ l r =>
      (if predicate (tree_bv l) && tree_is_leaf l
       then [tree_index l] else [])
      ++ (if predicate (tree_bv r) && tree_is_leaf r
          then [tree_index r] else [])
      ++ (if predicate (tree_bv l) && negb (tree_is_leaf l)
          then stack_trace l else [])
      ++ (if predicate (tree_bv r) && negb (tree_is_leaf r)
          then stack_trace r else [])
  end.

(** The callbacks of the rope kernel from any node, in depth-first order. *)
Fixpoint rope_trace (t : @tree BV) : list Z :=
  if predicate (tree_bv t) then
    match t with
    | Leaf _ i => [i]
    | Internal _ l r => rope_trace l ++ rope_trace r
    end
  else [].

End SpatialTrace.

(** ** A concrete scene: intervals on a line

    Bounding volumes are closed integer intervals, the spatial predicate is
    overlap with a query interval and the distance is that of a query point
    to the interval.  Four leaves stand at 0, 4, 6 and 20. *)

Module Scene.

Definition Interval : Type := (Z * Z)%type.

Definition float_of_Z (z : Z) : float :=
  match z with
  | Z0 => S754_zero false
  | Zpos p => S754_finite false p 0
  | Zneg p => S754_finite true p 0
  end.

Definition overlaps (lo hi : Z) : @SpatialPredicate Interval :=
  fun bv => (fst bv <=? hi) && (lo <=? snd bv).

(** The volume lies within the query interval: a predicate that can hold of
    a child's volume and fail on its parent's. *)
Definition within (lo hi : Z) : @SpatialPredicate Interval :=
  fun bv => (lo <=? fst bv) && (snd bv <=? hi).

Definition point_distance (g : Z) (bv : Interval) : float :=
  float_of_Z (if g <? fst bv then fst bv - g
              else if snd bv <? g then g - snd bv else 0).

(** Every volume is infinitely far: a metric that is not finite. *)
Definition far_distance (g : Z) (bv : Interval) : float := infinity.

Definition scene : @tree Interval :=
  Internal (0, 20)
    (Internal (0, 4) (Leaf (0, 0) 2) (Leaf (4, 4) 0))
    (Internal (6, 20) (Leaf (6, 6) 3) (Leaf (20, 20) 1)).

Definition scene_two_children : BVH (TwoChildren.Node Interval) :=
  mkBVH
    [ TwoChildren.mkNode false 1 2 0 (0, 20);
      TwoChildren.mkNode false 3 4 0 (0, 4);
      TwoChildren.mkNode false 5 6 0 (6, 20);
      TwoChildren.mkNode true 0 0 2 (0, 0);
      TwoChildren.mkNode true 0 0 0 (4, 4);
      TwoChildren.mkNode true 0 0 3 (6, 6);
      TwoChildren.mkNode true 0 0 1 (20, 20) ]
    4 0.

Definition scene_rope : BVH (LeftChildAndRope.Node Interval) :=
  mkBVH
    [ LeftChildAndRope.mkNode false 1 ROPE_SENTINEL 0 (0, 20);
      LeftChildAndRope.mkNode false 3 2 0 (0, 4);
      LeftChildAndRope.mkNode false 5 ROPE_SENTINEL 0 (6, 20);
      LeftChildAndRope.mkNode true 0 4 2 (0, 0);
      LeftChildAndRope.mkNode true 0 2 0 (4, 4);
      LeftChildAndRope.mkNode true 0 6 3 (6, 6);
      LeftChildAndRope.mkNode true 0 ROPE_SENTINEL 1 (20, 20) ]
    4 0.

(** Two leaves, at 0 and at 4. *)
Definition pair_tree : @tree Interval :=
  Internal (0, 4) (Leaf (0, 0) 0) (Leaf (4, 4) 1).

Definition pair_two_children : BVH (TwoChildren.Node Interval) :=
  mkBVH
    [ TwoChildren.mkNode false 1 2 0 (0, 4);
      TwoChildren.mkNode true 0 0 0 (0, 0);
      TwoChildren.mkNode true 0 0 1 (4, 4) ]
    2 0.

Definition pair_rope : BVH (LeftChildAndRope.Node Interval) :=
  mkBVH
    [ LeftChildAndRope.mkNode false 1 ROPE_SENTINEL 0 (0, 4);
      LeftChildAndRope.mkNode true 0 2 0 (0, 0);
      LeftChildAndRope.mkNode true 0 ROPE_SENTINEL 1 (4, 4) ]
    2 0.

(** The same two leaves in the rope encoding, stored with the root last:
    node 0 is the right leaf, node 1 the left leaf, node 2 the root. *)
Definition pair_rope_root_last : BVH (LeftChildAndRope.Node Interval) :=
  mkBVH
    [ LeftChildAndRope.mkNode true 0 ROPE_SENTINEL 1 (4, 4);
      LeftChildAndRope.mkNode true 0 0 0 (0, 0);
      LeftChildAndRope.mkNode false 1 ROPE_SENTINEL 0 (0, 4) ]
    2 2.

(** A tree of one leaf. *)
Definition single_two_children : BVH (TwoChildren.Node Interval) :=
  mkBVH [ TwoChildren.mkNode true 0 0 0 (7, 7) ] 1 0.

Definition single_rope : BVH (LeftChildAndRope.Node Interval) :=
  mkBVH [ LeftChildAndRope.mkNode true 0 ROPE_SENTINEL 0 (7, 7) ] 1 0.

Definition no_leaves : BVH (TwoChildren.Node Interval) := mkBVH [] 0 0.

End Scene.

Unset Implicit Arguments.

(** ** The nearest traversal by recursion on the logical tree *)

Section Visit.
Context {BV : Type} `{PriorityQueue}.
Variable k : Z.
Variable dist : BV -> float.

(** The candidate insertion of a child. *)
Definition consider (t : @tree BV) (s : heap * float) : result (heap * float) :=
  if SFltb (dist (tree_bv t)) (snd s) && tree_is_leaf t
  then insert_leaf_pair k (tree_index t, dist (tree_bv t)) (fst s) (snd s)
  else Ret s.

(** [traverse_left], [traverse_right]. *)
Definition descends (t : @tree BV) (radius : float) : bool :=
  SFltb (dist (tree_bv t)) radius && negb (tree_is_leaf t).

(** The heap and the radius after the iterations spent on the subtree of an
    internal node reached with [distance_node]: the nearer child first, the
    other one once the first is exhausted. *)
Fixpoint visit (t : @tree BV) (distance_node : float) (s : heap * float)
  : result (heap * float) :=
  match t with
  | Leaf _ _ => Ret s
  | Internal _ l r =>
      if SFltb distance_node (snd s) then
        s1 <- consider l s;;
        s2 <- consider r s1;;
        let traverse_left := descends l (snd s2) in
        let traverse_right := descends r (snd s2) in
        if negb traverse_left && negb traverse_right then Ret s2
        else if traverse_left
                && (SFleb (dist (tree_bv l)) (dist (tree_bv r))
                    || negb traverse_right)
        then
          s3 <- visit l (dist (tree_bv l)) s2;;
          if traverse_right then visit r (dist (tree_bv r)) s3 else Ret s3
        else
          s3 <- visit r (dist (tree_bv r)) s2;;
          if traverse_left then visit l (dist (tree_bv l)) s3 else Ret s3
      else Ret s
  end.

End Visit.

(** ** The states of the nearest loop *)

Section Reachable.
Context {BV Geometry : Type}.
Variable Details_distance : Geometry -> BV -> float.
Context {Node : Type} `{NodeTag BV Node} `{PriorityQueue}.
Variable bvh : BVH Node.
Variable predicate : @NearestPredicate Geometry.

(** The states at which an iteration of the loop starts. *)
Inductive reachable (cuda_arch : bool) : NearestState -> Prop :=
| reachable_init : reachable cuda_arch (nearest_init cuda_arch bvh)
| reachable_step (s s' : NearestState) :
    reachable cuda_arch s ->
    nearest_body Details_distance cuda_arch bvh predicate s = Ret s' ->
    reachable cuda_arch s'.

End Reachable.

(** ** The siblings deferred by the stack kernel *)

Section Deferred.
Context {BV : Type}.
Variable predicate : BV -> bool.

(** The entries that the stack kernel holds at most, above those it found,
    while it is at an internal node [t] or below: a right child waits on the
    stack while the subtree of its left sibling is traversed. *)
Fixpoint deferred (t : @tree BV) : nat :=
  match t with
  | Leaf _ _ => 0
  | Internal _ l r =>
      let traverse_left := predicate (tree_bv l) && negb (tree_is_leaf l) in
      let traverse_right := predicate (tree_bv r) && negb (tree_is_leaf r) in
      if traverse_left && traverse_right
      then Nat.max (S (deferred l)) (deferred r)
      else if traverse_left then deferred l
      else if traverse_right then deferred r
      else 0%nat
  end.

End Deferred.

(** ** The leaves stored in an array of nodes *)

Section Stored.
Context {BV Node : Type} `{NodeTag BV Node}.

(** [i] is the index of a stored leaf whose volume satisfies the
    predicate. *)
Definition stored_hit (bvh : BVH Node) (predicate : BV -> bool) (i : Z)
  : Prop :=
  exists n,
    In n (bvh_nodes bvh) /\ isLeaf n = true /\
    getLeafPermutationIndex n = i /\ predicate (getBoundingVolume n) = true.

(** [p] is the index of a stored leaf with the distance of its volume. *)
Definition stored_candidate {Geometry : Type}
  (Details_distance : Geometry -> BV -> float) (bvh : BVH Node)
  (predicate : @NearestPredicate Geometry) (p : PairIndexDistance) : Prop :=
  exists n,
    In n (bvh_nodes bvh) /\ isLeaf n = true /\
    p = (getLeafPermutationIndex n, distance Details_distance predicate n).

End Stored.

(** ** A two-child encoding of any tree *)

Module Layout.

(** The nodes of [t] in depth-first order, the root at index [i]. *)
Fixpoint nodes {BV : Type} (t : @tree BV) (i : Z)
  : list (TwoChildren.Node BV) :=
  match t with
  | Leaf bv index => [TwoChildren.mkNode true 0 0 index bv]
  | Internal bv l r =>
      let left := nodes l (i + 1) in
      let j := i + 1 + Z.of_nat (length left) in
      TwoChildren.mkNode false (i + 1) j 0 bv :: left ++ nodes r j
  end.

Definition two_children {BV : Type} (t : @tree BV)
  : BVH (TwoChildren.Node BV) :=
  mkBVH (nodes t 0) (Z.of_nat (length (leaves t))) 0.

(** A chain of [n + 1] internal nodes: every right child is a leaf. *)
Fixpoint chain (n : nat) : @tree Scene.Interval :=
  match n with
  | O => Internal (0, 1) (Leaf (0, 0) 0) (Leaf (1, 1) 1)
  | S n' =>
      let hi := Z.of_nat n + 1 in
      Internal (0, hi) (chain n') (Leaf (hi, hi) hi)
  end.

(** A comb of depth [n]: every right child is an internal node, which waits
    on the stack while the left subtree is traversed. *)
Fixpoint comb (n : nat) : @tree Scene.Interval :=
  match n with
  | O => Internal (0, 1) (Leaf (0, 0) 0) (Leaf (1, 1) 1)
  | S n' =>
      let lo := 2 * Z.of_nat n in
      Internal (0, lo + 1) (comb n')
        (Internal (lo, lo + 1) (Leaf (lo, lo) lo) (Leaf (lo + 1, lo + 1) (lo + 1)))
  end.

End Layout.

(** ** The branching depth of a tree *)

(** The greatest number, along a path from the root, of nodes whose two
    children are internal: a nearest query defers at most one child at each
    of them. *)
Fixpoint branching_depth {BV : Type} (t : @tree BV) : nat :=
  match t with
  | Leaf _ _ => 0
  | Internal _ l r =>
      (if negb (tree_is_leaf l) && negb (tree_is_leaf r) then 1 else 0)
      + Nat.max (branching_depth l) (branching_depth r)
  end.

(** * Proofs *)

(** ** The order of the distances *)

Module FloatOrder.

Ltac cmp_cases :=
    repeat match goal with
      | |- context [Z.compare ?a ?b] =>
          destruct (Z.compare_spec a b); subst
      | H : context [Z.compare ?a ?b] |- _ =>
          destruct (Z.compare_spec a b); subst
      | |- context [Pos.compare_cont Eq ?a ?b] =>
          change (Pos.compare_cont Eq a b) with (Pos.compare a b);
          destruct (Pos.compare_spec a b); subst
      | H : context [Pos.compare_cont Eq ?a ?b] |- _ =>
          change (Pos.compare_cont Eq a b) with (Pos.compare a b) in H;
          destruct (Pos.compare_spec a b); subst
      end.

Ltac crush :=
    unfold SFltb, SFleb, SFcompare, is_nan in *;
    repeat match goal with
      | x : float |- _ => destruct x
      | x : spec_float |- _ => destruct x
      | s : bool |- _ => destruct s
      end;
    simpl in *; try congruence; try reflexivity;
    cmp_cases; simpl in *; try congruence; try reflexivity; try lia.

Lemma ltb_irrefl (x : float) : SFltb x x = false.
Proof. crush. Qed.

Lemma ltb_trans (x y z : float) :
    SFltb x y = true -> SFltb y z = true -> SFltb x z = true.
Proof. intros Hxy Hyz. crush. Qed.

Lemma leb_ltb_trans (x y z : float) :
    SFleb x y = true -> SFltb y z = true -> SFltb x z = true.
Proof. intros Hxy Hyz. crush. Qed.

Lemma ltb_leb_trans (x y z : float) :
    SFltb x y = true -> SFleb y z = true -> SFltb x z = true.
Proof. intros Hxy Hyz. crush. Qed.

Lemma leb_trans (x y z : float) :
    SFleb x y = true -> SFleb y z = true -> SFleb x z = true.
Proof. intros Hxy Hyz. crush. Qed.

Lemma ltb_leb (x y : float) : SFltb x y = true -> SFleb x y = true.
Proof. intros H. crush. Qed.

Lemma leb_not_ltb (x y : float) : SFleb x y = true -> SFltb y x = false.
Proof. intros H. crush. Qed.

Lemma not_ltb_leb (x y : float) :
    is_nan x = false -> is_nan y = false ->
    SFltb x y = false -> SFleb y x = true.
Proof. intros Hx Hy H. crush. Qed.

Lemma leb_refl (x : float) : is_nan x = false -> SFleb x x = true.
Proof. intros H. crush. Qed.

Lemma ltb_nonnan_l (x y : float) : SFltb x y = true -> is_nan x = false.
Proof. intros H. crush. Qed.

Lemma ltb_nonnan_r (x y : float) : SFltb x y = true -> is_nan y = false.
Proof. intros H. crush. Qed.

Lemma leb_nonnan_l (x y : float) : SFleb x y = true -> is_nan x = false.
Proof. intros H. crush. Qed.

Lemma leb_nonnan_r (x y : float) : SFleb x y = true -> is_nan y = false.
Proof. intros H. crush. Qed.

Lemma leb_infinity (x : float) : is_nan x = false -> SFleb x infinity = true.
Proof. intros H. unfold infinity. crush. Qed.

Lemma ltb_infinity_false (x : float) : SFltb infinity x = false.
Proof. unfold infinity. crush. Qed.

End FloatOrder.

(** ** The reference heap meets the interface *)

Module ListHeapFacts.
Import FloatOrder ListHeap.

Lemma extract_max_None (l : list PairIndexDistance) :
  extract_max l = None -> l = [].
Proof.
  destruct l as [|x l]; simpl; [reflexivity|].
  destruct (extract_max l) as [[m rest]|]; [|discriminate].
  destruct (CompareDistance x m); discriminate.
Qed.

Lemma extract_max_Permutation (l : list PairIndexDistance) m rest :
  extract_max l = Some (m, rest) -> Permutation l (m :: rest).
Proof.
  revert m rest. induction l as [|x l IH]; simpl; intros m rest E.
  - discriminate.
  - destruct (extract_max l) as [[m' rest']|] eqn:El.
    + destruct (CompareDistance x m'); inversion E; subst.
      * rewrite (IH _ _ eq_refl). apply perm_swap.
      * reflexivity.
    + inversion E; subst. apply extract_max_None in El. subst. reflexivity.
Qed.

Lemma extract_max_greatest (l : list PairIndexDistance) m rest :
  comparable l -> extract_max l = Some (m, rest) ->
  Forall (fun q => CompareDistance m q = false) l.
Proof.
  unfold comparable, CompareDistance.
  revert m rest. induction l as [|x l IH]; simpl; intros m rest C E.
  - constructor.
  - inversion C as [|? ? Cx Cl]; subst.
    destruct (extract_max l) as [[m' rest']|] eqn:El.
    + specialize (IH _ _ Cl eq_refl).
      destruct (CompareDistance x m') eqn:Cmp; inversion E; subst;
        unfold CompareDistance in Cmp.
      * constructor; [|exact IH].
        apply leb_not_ltb, ltb_leb, Cmp.
      * constructor; [apply ltb_irrefl|].
        rewrite Forall_forall in IH |- *. intros q Hq.
        destruct (SFltb (snd m) (snd q)) eqn:Hmq; [|reflexivity].
        assert (Hm' : is_nan (snd m') = false).
        { apply extract_max_Permutation in El.
          rewrite Forall_forall in Cl. apply Cl.
          apply Permutation_sym in El.
          apply (Permutation_in _ El). left. reflexivity. }
        assert (Hle : SFleb (snd m') (snd m) = true)
          by (apply not_ltb_leb; assumption).
        rewrite <- (IH q Hq). symmetry.
        apply leb_ltb_trans with (y := snd m); assumption.
    + inversion E; subst. apply extract_max_None in El. subst.
      constructor; [apply ltb_irrefl | constructor].
Qed.

Lemma insert_sorted_Permutation x (l : list PairIndexDistance) :
  Permutation (insert_sorted x l) (x :: l).
Proof.
  induction l as [|y l IH]; simpl; [reflexivity|].
  destruct (CompareDistance x y); [reflexivity|].
  rewrite IH. apply perm_swap.
Qed.

Lemma sort_Permutation (l : list PairIndexDistance) : Permutation (sort l) l.
Proof.
  induction l as [|x l IH]; simpl; [reflexivity|].
  rewrite insert_sorted_Permutation. constructor. exact IH.
Qed.

Lemma insert_sorted_Sorted x (l : list PairIndexDistance) :
  is_nan (snd x) = false -> comparable l ->
  StronglySorted (fun a b => CompareDistance b a = false) l ->
  StronglySorted (fun a b => CompareDistance b a = false) (insert_sorted x l).
Proof.
  unfold comparable, CompareDistance. intros Hx.
  induction l as [|y l IH]; simpl; intros C S.
  - constructor; constructor.
  - inversion C as [|? ? Cy Cl]; subst.
    inversion S as [|? ? Sl Fy]; subst.
    destruct (CompareDistance x y) eqn:Cmp; unfold CompareDistance in Cmp.
    + constructor; [exact S|].
      constructor; [apply leb_not_ltb, ltb_leb, Cmp|].
      rewrite Forall_forall in Fy |- *. intros q Hq.
      destruct (SFltb (snd q) (snd x)) eqn:Hqx; [|reflexivity].
      rewrite <- (Fy q Hq). symmetry.
      apply ltb_trans with (y := snd x); assumption.
    + constructor; [apply IH; assumption|].
      rewrite Forall_forall in Fy |- *. intros q Hq.
      apply (Permutation_in _ (insert_sorted_Permutation x l)) in Hq.
      destruct Hq as [<-|Hq]; [exact Cmp | apply Fy, Hq].
Qed.

Lemma sort_Sorted (l : list PairIndexDistance) :
  comparable l ->
  StronglySorted (fun a b => CompareDistance b a = false) (sort l).
Proof.
  induction l as [|x l IH]; simpl; intros C.
  - constructor.
  - inversion C; subst. apply insert_sorted_Sorted; auto.
    unfold comparable. rewrite sort_Permutation. assumption.
Qed.

End ListHeapFacts.

#[export, refine] Instance list_heap : PriorityQueue := {
  heap := list PairIndexDistance;
  empty_heap := [];
  data := fun h => h;
  push := fun x h => h ++ [x];
  popPush := ListHeap.popPush;
  top := ListHeap.top;
  sortHeap := ListHeap.sort
}.
Proof.
  - reflexivity.
  - intros x h. apply Permutation_sym, Permutation_cons_append.
  - intros h. unfold ListHeap.top.
    destruct (ListHeap.extract_max h) as [[m rest]|] eqn:E; simpl.
    + apply ListHeapFacts.extract_max_Permutation in E.
      apply Permutation_sym in E. apply (Permutation_in _ E). left. reflexivity.
    + apply ListHeapFacts.extract_max_None, E.
  - intros h p C. unfold ListHeap.top.
    destruct (ListHeap.extract_max h) as [[m rest]|] eqn:E; simpl;
      [|discriminate].
    intros [= <-]. eapply ListHeapFacts.extract_max_greatest; eassumption.
  - intros x h p. unfold ListHeap.top, ListHeap.popPush.
    destruct (ListHeap.extract_max h) as [[m rest]|] eqn:E; simpl;
      [|discriminate].
    intros [= <-]. exists rest. split; [|reflexivity].
    apply ListHeapFacts.extract_max_Permutation, E.
  - apply ListHeapFacts.sort_Permutation.
  - apply ListHeapFacts.sort_Sorted.
Defined.

(** ** Loops *)

Section Loops.
Context {S : Type}.
Variables (body : S -> result S) (cond : S -> bool).

(** What is left of the loop once an iteration has produced [s]. *)
Definition resume (fuel : nat) (s : S) : result S :=
  if cond s then do_while body cond fuel s else Ret s.

Lemma do_while_step (fuel : nat) (s s' : S) :
  body s = Ret s' ->
  do_while body cond (1 + fuel) s = resume fuel s'.
Proof. intros E. simpl. rewrite E. reflexivity. Qed.

Lemma do_while_seq (n m : nat) (s s1 s2 : S) :
  (forall fuel, do_while body cond (n + fuel) s = resume fuel s1) ->
  cond s1 = true ->
  (forall fuel, do_while body cond (m + fuel) s1 = resume fuel s2) ->
  forall fuel, do_while body cond ((n + m) + fuel) s = resume fuel s2.
Proof.
  intros H1 C H2 fuel.
  rewrite <- Nat.add_assoc, H1. unfold resume at 1. rewrite C. apply H2.
Qed.

Lemma do_while_finish (n fuel : nat) (s s' : S) :
  (forall fuel, do_while body cond (n + fuel) s = resume fuel s') ->
  cond s' = false -> (n <= fuel)%nat ->
  do_while body cond fuel s = Ret s'.
Proof.
  intros H C L. replace fuel with (n + (fuel - n))%nat by lia.
  rewrite H. unfold resume. rewrite C. reflexivity.
Qed.

End Loops.

Arguments do_while_step {S body} cond {fuel s s'} _.
Arguments do_while_seq {S body cond n m s s1 s2} _ _ _ fuel.
Arguments do_while_finish {S body cond n fuel s s'} _ _ _.

(** ** Facts on the logical tree *)

Section TreeFacts.
Context {BV : Type}.
Implicit Types t l r : @tree BV.

Lemma hits_Leaf (predicate : BV -> bool) bv i :
  hits predicate (Leaf bv i) = if predicate bv then [i] else [].
Proof. unfold hits. simpl. destruct (predicate bv); reflexivity. Qed.

Lemma hits_Internal (predicate : BV -> bool) bv l r :
  hits predicate (Internal bv l r) = hits predicate l ++ hits predicate r.
Proof. unfold hits. simpl. rewrite filter_app, map_app. reflexivity. Qed.

Lemma hits_rejected (predicate : BV -> bool) t :
  hereditary predicate t = true -> predicate (tree_bv t) = false ->
  hits predicate t = [].
Proof.
  induction t as [bv i|bv l IHl r IHr]; simpl; intros Hh Hp.
  - rewrite hits_Leaf, Hp. reflexivity.
  - rewrite hits_Internal. rewrite Hp in Hh.
    apply andb_prop in Hh as [Hh Hr]. apply andb_prop in Hh as [Himp Hl].
    destruct (predicate (tree_bv l)) eqn:El; [discriminate|].
    destruct (predicate (tree_bv r)) eqn:Er; [discriminate|].
    rewrite IHl, IHr by auto. reflexivity.
Qed.

Lemma hereditary_children (predicate : BV -> bool) bv l r :
  hereditary predicate (Internal bv l r) = true ->
  hereditary predicate l = true /\ hereditary predicate r = true.
Proof.
  simpl. intros Hh. apply andb_prop in Hh as [Hh Hr].
  apply andb_prop in Hh as [_ Hl]. split; assumption.
Qed.

Lemma rope_trace_hits (predicate : BV -> bool) t :
  hereditary predicate t = true -> rope_trace predicate t = hits predicate t.
Proof.
  induction t as [bv i|bv l IHl r IHr]; intros Hh.
  - rewrite hits_Leaf. reflexivity.
  - destruct (predicate bv) eqn:Ep.
    + destruct (hereditary_children _ _ _ _ Hh) as [Hl Hr].
      simpl. rewrite Ep, hits_Internal, IHl, IHr by assumption. reflexivity.
    + rewrite hits_rejected by assumption. simpl. rewrite Ep. reflexivity.
Qed.

Lemma stack_trace_child (predicate : BV -> bool) t :
  hereditary predicate t = true ->
  Permutation
    ((if predicate (tree_bv t) && tree_is_leaf t then [tree_index t] else [])
     ++ (if predicate (tree_bv t) && negb (tree_is_leaf t)
         then hits predicate t else []))
    (hits predicate t).
Proof.
  intros Hh. destruct (predicate (tree_bv t)) eqn:Ep; simpl.
  - destruct t; simpl in *.
    + rewrite hits_Leaf, Ep. reflexivity.
    + reflexivity.
  - rewrite hits_rejected by assumption. reflexivity.
Qed.

Lemma stack_trace_hits (predicate : BV -> bool) t :
  hereditary predicate t = true -> tree_is_leaf t = false ->
  Permutation (stack_trace predicate t) (hits predicate t).
Proof.
  induction t as [bv i|bv l IHl r IHr]; intros Hh Hi; [discriminate|].
  destruct (hereditary_children _ _ _ _ Hh) as [Hl Hr].
  rewrite hits_Internal.
  etransitivity;
    [|apply Permutation_app;
      [apply (stack_trace_child predicate l Hl)
      |apply (stack_trace_child predicate r Hr)]].
  simpl.
  set (a := if predicate (tree_bv l) && tree_is_leaf l then _ else _).
  set (b := if predicate (tree_bv r) && tree_is_leaf r then _ else _).
  assert (El : Permutation
                 (if predicate (tree_bv l) && negb (tree_is_leaf l)
                  then stack_trace predicate l else [])
                 (if predicate (tree_bv l) && negb (tree_is_leaf l)
                  then hits predicate l else [])).
  { destruct (predicate (tree_bv l)); simpl; [|reflexivity].
    destruct (tree_is_leaf l) eqn:E; simpl; [reflexivity|]. apply IHl; auto. }
  assert (Er : Permutation
                 (if predicate (tree_bv r) && negb (tree_is_leaf r)
                  then stack_trace predicate r else [])
                 (if predicate (tree_bv r) && negb (tree_is_leaf r)
                  then hits predicate r else [])).
  { destruct (predicate (tree_bv r)); simpl; [|reflexivity].
    destruct (tree_is_leaf r) eqn:E; simpl; [reflexivity|]. apply IHr; auto. }
  rewrite El, Er.
  set (c := if predicate (tree_bv l) && negb (tree_is_leaf l) then _ else _).
  set (d := if predicate (tree_bv r) && negb (tree_is_leaf r) then _ else _).
  rewrite <- !app_assoc.
  apply Permutation_app_head.
  rewrite !app_assoc. apply Permutation_app_tail.
  apply Permutation_app_comm.
Qed.

(** The callbacks of the stack kernel below a node are those of the rope
    kernel in its two children. *)
Lemma stack_trace_rope_trace (predicate : BV -> bool) t :
  Permutation
    ((if predicate (tree_bv t) && tree_is_leaf t then [tree_index t] else [])
     ++ (if predicate (tree_bv t) && negb (tree_is_leaf t)
         then stack_trace predicate t else []))
    (rope_trace predicate t).
Proof.
  induction t as [bv i|bv l IHl r IHr].
  - simpl. destruct (predicate bv); reflexivity.
  - cbn [tree_bv tree_is_leaf negb rope_trace].
    rewrite andb_false_r, andb_true_r. cbn [app].
    destruct (predicate bv); [|reflexivity].
    rewrite <- IHl, <- IHr. cbn [stack_trace].
    rewrite <- !app_assoc. apply Permutation_app_head.
    rewrite !app_assoc. apply Permutation_app_tail.
    apply Permutation_app_comm.
Qed.

Lemma stack_trace_rope_root (predicate : BV -> bool) t :
  tree_is_leaf t = false -> root_respected predicate t = true ->
  Permutation (stack_trace predicate t) (rope_trace predicate t).
Proof.
  destruct t as [|bv l r]; [discriminate|]. intros _ Hr.
  pose proof (stack_trace_rope_trace predicate (Internal bv l r)) as Hs.
  cbn [tree_bv tree_is_leaf negb] in Hs.
  rewrite andb_false_r, andb_true_r in Hs. cbn [app] in Hs.
  destruct (predicate bv) eqn:Ep; [exact Hs|].
  cbn [root_respected] in Hr. rewrite Ep in Hr.
  destruct (predicate (tree_bv l)) eqn:El; [discriminate|].
  destruct (predicate (tree_bv r)) eqn:Er; [discriminate|].
  cbn [stack_trace rope_trace tree_bv]. rewrite Ep, El, Er. reflexivity.
Qed.

End TreeFacts.

(** ** Reading a node through its encoding *)

Section EncodesFacts.
Context {BV Node : Type} `{NodeTag BV Node}.
Variable bvh : BVH Node.

Lemma encodes_root (i : Z) (t : @tree BV) :
  encodes bvh i t ->
  exists n,
    deref bvh (Some i) = Ret n /\
    getBoundingVolume n = tree_bv t /\
    isLeaf n = tree_is_leaf t /\
    (tree_is_leaf t = true -> getLeafPermutationIndex n = tree_index t).
Proof.
  destruct t as [bv idx|bv l r]; simpl; intros (n & Hd & Hbv & Hrest).
  - destruct Hrest as [Hl Hi]. exists n. auto.
  - destruct Hrest as [Hl _]. exists n. repeat split; auto. discriminate.
Qed.

Lemma encodes_children (i : Z) bv (l r : @tree BV) :
  encodes bvh i (Internal bv l r) ->
  exists n j,
    deref bvh (Some i) = Ret n /\
    getRightChild bvh n = Ret j /\
    encodes bvh (left_child n) l /\ encodes bvh j r.
Proof.
  simpl. intros (n & Hd & _ & _ & j & Hj & Hl & Hr).
  exists n, j. auto.
Qed.

End EncodesFacts.

Arguments encodes_root {BV Node _ bvh i t} _.
Arguments encodes_children {BV Node _ bvh i bv l r} _.

(** ** The stack kernel follows [stack_trace] *)

Section StackKernel.
Context {BV : Type}.
Variable bvh : BVH (TwoChildren.Node BV).
Variable predicate : BV -> bool.

Definition stack_cond (s : SpatialState) : bool := negb (is_null (sp_node s)).

Lemma stack_body_internal (i : Z) bv (l r : @tree BV) :
  encodes bvh i (Internal bv l r) ->
  exists li ri,
    encodes bvh li l /\ encodes bvh ri r /\
    forall stack out,
      spatial_stack_body bvh predicate (mkSpatial (Some i) stack out) =
      let out2 :=
        out
        ++ (if predicate (tree_bv l) && tree_is_leaf l
            then [tree_index l] else [])
        ++ (if predicate (tree_bv r) && tree_is_leaf r
            then [tree_index r] else []) in
      let traverse_left := predicate (tree_bv l) && negb (tree_is_leaf l) in
      let traverse_right := predicate (tree_bv r) && negb (tree_is_leaf r) in
      if negb traverse_left && negb traverse_right then
        '(popped, rest) <- stack_pop stack;; Ret (mkSpatial popped rest out2)
      else
        stack' <- (if traverse_left && traverse_right
                   then stack_push (Some ri) stack else Ret stack);;
        Ret (mkSpatial (if traverse_left then Some li else Some ri) stack'
               out2).
Proof.
  intros He.
  destruct (encodes_children He) as (n & j & Hd & Hj & Hl & Hr).
  simpl in Hj. injection Hj as <-.
  change (left_child n) with (TwoChildren.left_child n) in Hl.
  exists (TwoChildren.left_child n), (TwoChildren.right_child n).
  split; [exact Hl|]. split; [exact Hr|].
  destruct (encodes_root Hl) as (nl & Hdl & Hbl & Hll & Hil).
  destruct (encodes_root Hr) as (nr & Hdr & Hbr & Hlr & Hir).
  intros stack out.
  unfold spatial_stack_body, getNodePtr. cbn [sp_node sp_stack sp_callbacks].
  rewrite Hd. cbn [bind]. rewrite Hdl, Hdr. cbn [bind].
  rewrite Hbl, Hbr, Hll, Hlr.
  destruct (predicate (tree_bv l)), (tree_is_leaf l),
    (predicate (tree_bv r)), (tree_is_leaf r);
    try rewrite (Hil eq_refl); try rewrite (Hir eq_refl);
    cbn -[stack_push stack_pop];
    rewrite ?app_nil_r, <- ?app_assoc;
    reflexivity.
Qed.

Lemma stack_simulation (t : @tree BV) :
  tree_is_leaf t = false ->
  forall i, encodes bvh i t ->
  forall x stack out,
    (length (x :: stack) + height t <= 65)%nat ->
    exists n, (1 <= n <= internal_nodes t)%nat /\
      forall fuel,
        do_while (spatial_stack_body bvh predicate) stack_cond (n + fuel)
          (mkSpatial (Some i) (x :: stack) out) =
        resume (spatial_stack_body bvh predicate) stack_cond fuel
          (mkSpatial x stack (out ++ stack_trace predicate t)).
Proof.
  induction t as [bv idx|bv l IHl r IHr]; intros Hi i He x stack out Hh;
    [discriminate|].
  destruct (stack_body_internal _ _ _ _ He) as (li & ri & Hl & Hr & Hbody).
  specialize (Hbody (x :: stack) out). cbn zeta in Hbody.
  cbn [height] in Hh. cbn [stack_trace internal_nodes].
  set (a := if predicate (tree_bv l) && tree_is_leaf l then _ else _) in *.
  set (b := if predicate (tree_bv r) && tree_is_leaf r then _ else _) in *.
  destruct (predicate (tree_bv l) && negb (tree_is_leaf l)) eqn:Tl;
    destruct (predicate (tree_bv r) && negb (tree_is_leaf r)) eqn:Tr;
    cbn [negb andb bind stack_pop] in Hbody.
  - (* both children are descended: the right one waits on the stack *)
    apply andb_prop in Tl as [_ Tl]. apply andb_prop in Tr as [_ Tr].
    apply negb_true_iff in Tl, Tr.
    unfold stack_push in Hbody.
    match type of Hbody with
    | context [Nat.ltb ?a ?b] => assert (Hlen : Nat.ltb a b = true)
    end.
    { apply Nat.ltb_lt. unfold STACK_SIZE.
      destruct l, r; try discriminate; unfold pointer in *;
      cbn [height length] in *; lia. }
    rewrite Hlen in Hbody.
    cbn [bind] in Hbody.
    destruct (IHl Tl li Hl (Some ri) (x :: stack) (out ++ a ++ b))
      as (nl & Hnl & Hsl); [cbn [length] in *; lia|].
    destruct (IHr Tr ri Hr x stack ((out ++ a ++ b) ++ stack_trace predicate l))
      as (nr & Hnr & Hsr); [cbn [length] in *; lia|].
    exists (1 + (nl + nr))%nat. split; [lia|]. intros fuel.
    rewrite <- Nat.add_assoc. rewrite (do_while_step stack_cond Hbody).
    unfold resume at 1. cbn [stack_cond sp_node is_null negb].
    rewrite (do_while_seq Hsl eq_refl Hsr).
    rewrite <- ?app_assoc. reflexivity.
  - (* only the left child is descended *)
    apply andb_prop in Tl as [_ Tl]. apply negb_true_iff in Tl.
    destruct (IHl Tl li Hl x stack (out ++ a ++ b)) as (nl & Hnl & Hsl);
      [cbn [length] in *; lia|].
    exists (1 + nl)%nat. split; [lia|]. intros fuel.
    rewrite <- Nat.add_assoc. rewrite (do_while_step stack_cond Hbody).
    unfold resume at 1. cbn [stack_cond sp_node is_null negb].
    rewrite Hsl, ?app_nil_r, <- ?app_assoc. reflexivity.
  - (* only the right child is descended *)
    apply andb_prop in Tr as [_ Tr]. apply negb_true_iff in Tr.
    destruct (IHr Tr ri Hr x stack (out ++ a ++ b)) as (nr & Hnr & Hsr);
      [cbn [length] in *; lia|].
    exists (1 + nr)%nat. split; [lia|]. intros fuel.
    rewrite <- Nat.add_assoc. rewrite (do_while_step stack_cond Hbody).
    unfold resume at 1. cbn [stack_cond sp_node is_null negb].
    rewrite Hsr. cbn [app]. rewrite <- ?app_assoc. reflexivity.
  - (* no child is descended: the next node is popped *)
    exists 1%nat. split; [lia|]. intros fuel.
    rewrite (do_while_step stack_cond Hbody). cbn [app].
    rewrite ?app_nil_r. reflexivity.
Qed.

End StackKernel.

Lemma spatial_stack_trace {BV : Type} (bvh : BVH (TwoChildren.Node BV))
  (predicate : BV -> bool) (t : @tree BV) (fuel : nat) :
  encodes bvh (bvh_root bvh) t ->
  tree_is_leaf t = false ->
  (height t <= 64)%nat ->
  (internal_nodes t <= fuel)%nat ->
  spatial_stack fuel bvh predicate = Ret (stack_trace predicate t).
Proof.
  intros He Hi Hh Hf.
  destruct (stack_simulation bvh predicate t Hi _ He None [] [])
    as (n & Hn & Hs); [cbn [length]; lia|].
  unfold spatial_stack, getRoot.
  change (fun s : SpatialState => negb (is_null (sp_node s))) with stack_cond.
  rewrite (do_while_finish Hs eq_refl) by lia. reflexivity.
Qed.

Lemma spatial_stack_hits {BV : Type} (bvh : BVH (TwoChildren.Node BV))
  (predicate : BV -> bool) (t : @tree BV) (fuel : nat) :
  encodes bvh (bvh_root bvh) t ->
  tree_is_leaf t = false ->
  (height t <= 64)%nat ->
  hereditary predicate t = true ->
  (internal_nodes t <= fuel)%nat ->
  exists out,
    spatial_stack fuel bvh predicate = Ret out /\
    Permutation out (hits predicate t).
Proof.
  intros He Hi Hh Hp Hf.
  exists (stack_trace predicate t). split.
  - apply spatial_stack_trace; assumption.
  - apply stack_trace_hits; assumption.
Qed.

(** ** The rope kernel follows [rope_trace] *)

Section RopeKernel.
Context {BV : Type}.
Variable bvh : BVH (LeftChildAndRope.Node BV).
Variable predicate : BV -> bool.

Definition rope_cond (s : RopeState) : bool :=
  negb (rp_next s =? ROPE_SENTINEL).

Lemma deref_not_sentinel {Node : Type} (b : BVH Node) (i : Z) (n : Node) :
  deref b (Some i) = Ret n -> (i =? ROPE_SENTINEL) = false.
Proof.
  unfold deref, ROPE_SENTINEL. destruct (i <? 0) eqn:E; [discriminate|].
  intros _. apply Z.ltb_ge in E. apply Z.eqb_neq. lia.
Qed.

Lemma encodes_rope_not_sentinel (i : Z) (t : @tree BV) (next : Z) :
  encodes_rope bvh i t next -> (i =? ROPE_SENTINEL) = false.
Proof.
  destruct t; simpl; intros (n & Hd & _); eapply deref_not_sentinel, Hd.
Qed.

Lemma rope_simulation (t : @tree BV) :
  forall i next, encodes_rope bvh i t next ->
  exists n, (1 <= n <= all_nodes t)%nat /\
    forall fuel out,
      do_while (spatial_rope_body bvh predicate) rope_cond (n + fuel)
        (mkRope i out) =
      resume (spatial_rope_body bvh predicate) rope_cond fuel
        (mkRope next (out ++ rope_trace predicate t)).
Proof.
  induction t as [bv idx|bv l IHl r IHr]; intros i next He.
  - destruct He as (n & Hd & Hbv & Hrope & Hleaf & Hidx).
    cbn [tree_bv] in Hbv.
    exists 1%nat. split; [simpl; lia|]. intros fuel out.
    apply do_while_step.
    unfold spatial_rope_body, getNodePtr. cbn [rp_next rp_callbacks].
    rewrite Hd. cbn. rewrite Hbv, Hleaf, Hrope, Hidx.
    destruct (predicate bv); cbn; rewrite ?app_nil_r; reflexivity.
  - destruct He as (n & Hd & Hbv & Hrope & Hleaf & j & Hl & Hr).
    cbn [tree_bv] in Hbv.
    assert (Hbody : forall out,
      spatial_rope_body bvh predicate (mkRope i out) =
      Ret (mkRope (if predicate bv then LeftChildAndRope.left_child n else next)
             out)).
    { intros out. unfold spatial_rope_body, getNodePtr.
      cbn [rp_next rp_callbacks]. rewrite Hd. cbn. rewrite Hbv, Hleaf, Hrope.
      destruct (predicate bv); reflexivity. }
    cbn [rope_trace tree_bv all_nodes].
    destruct (predicate bv) eqn:Ep.
    + destruct (IHl _ _ Hl) as (nl & Hnl & Hsl).
      destruct (IHr _ _ Hr) as (nr & Hnr & Hsr).
      exists (1 + (nl + nr))%nat. split; [lia|]. intros fuel out.
      rewrite <- Nat.add_assoc, (do_while_step rope_cond (Hbody out)).
      unfold resume at 1. unfold rope_cond at 1. cbn [rp_next].
      rewrite (encodes_rope_not_sentinel _ _ _ Hl). cbn [negb].
      assert (Cj : rope_cond (mkRope j (out ++ rope_trace predicate l)) = true).
      { unfold rope_cond. cbn [rp_next].
        rewrite (encodes_rope_not_sentinel _ _ _ Hr). reflexivity. }
      rewrite (do_while_seq (fun f => Hsl f out) Cj (fun f => Hsr f _)).
      rewrite app_assoc. reflexivity.
    + exists 1%nat. split; [lia|]. intros fuel out.
      rewrite (do_while_step rope_cond (Hbody out)), app_nil_r. reflexivity.
Qed.

Lemma spatial_rope_from_trace (start : Z) (t : @tree BV) (fuel : nat) :
  encodes_rope bvh start t ROPE_SENTINEL ->
  (all_nodes t <= fuel)%nat ->
  spatial_rope_from start fuel bvh predicate = Ret (rope_trace predicate t).
Proof.
  intros He Hf.
  destruct (rope_simulation _ _ _ He) as (n & Hn & Hs).
  unfold spatial_rope_from.
  change (fun s : RopeState => negb (rp_next s =? ROPE_SENTINEL))
    with rope_cond.
  rewrite (do_while_finish (fun fuel => Hs fuel []) eq_refl) by lia.
  reflexivity.
Qed.

Lemma spatial_rope_from_hits (start : Z) (t : @tree BV) (fuel : nat) :
  encodes_rope bvh start t ROPE_SENTINEL ->
  hereditary predicate t = true ->
  (all_nodes t <= fuel)%nat ->
  spatial_rope_from start fuel bvh predicate = Ret (hits predicate t).
Proof.
  intros He Hp Hf.
  rewrite (spatial_rope_from_trace start t fuel He Hf).
  rewrite rope_trace_hits by assumption. reflexivity.
Qed.

End RopeKernel.

Lemma spatial_one_leaf_hits {BV Node : Type} `{NodeTag BV Node}
  (bvh : BVH Node) (predicate : BV -> bool) (bv : BV) :
  encodes bvh (bvh_root bvh) (Leaf bv 0) ->
  spatial_one_leaf bvh predicate = Ret (hits predicate (Leaf bv 0)).
Proof.
  intros (n & Hd & Hbv & _).
  unfold spatial_one_leaf, getRoot. rewrite Hd. cbn [bind].
  rewrite Hbv, hits_Leaf. cbn [tree_bv]. destruct (predicate bv); reflexivity.
Qed.

(** ** The heap and the radius *)

Section HeapInvariant.
Context `{PriorityQueue}.
Import FloatOrder.

(** The state of a nearest query between two candidate insertions: every
    entry is within the radius, and the radius is [+infinity] below [k]
    entries and the top distance at [k] entries. *)
Definition heap_inv (k : Z) (h : heap) (radius : float) : Prop :=
  Forall (fun q => SFleb (snd q) radius = true) (data h) /\
  ((heap_size h < k /\ radius = infinity) \/
   (heap_size h = k /\ exists p, top h = Some p /\ radius = snd p)).

Lemma heap_inv_init (k : Z) : 1 <= k -> heap_inv k empty_heap infinity.
Proof.
  intros Hk. unfold heap_inv, heap_size. rewrite data_empty_heap.
  split; [constructor|]. left. simpl. split; [lia | reflexivity].
Qed.

Lemma heap_inv_comparable (k : Z) (h : heap) (radius : float) :
  heap_inv k h radius -> comparable (data h).
Proof.
  intros [Hle _]. unfold comparable.
  eapply Forall_impl; [|exact Hle]. intros q Hq. eapply leb_nonnan_l, Hq.
Qed.

Lemma heap_inv_radius_nonnan (k : Z) (h : heap) (radius : float) :
  heap_inv k h radius -> is_nan radius = false.
Proof.
  intros [Hle [[_ ->]|[_ (p & Hp & ->)]]]; [reflexivity|].
  pose proof (top_data h) as Ht. rewrite Hp in Ht.
  rewrite Forall_forall in Hle. eapply leb_nonnan_l, (Hle p Ht).
Qed.

Lemma heap_size_Permutation (h : heap) (l : list PairIndexDistance) :
  Permutation (data h) l -> heap_size h = Z.of_nat (length l).
Proof.
  intros P. unfold heap_size. rewrite (Permutation_length P). reflexivity.
Qed.

Lemma top_of_nonempty (h : heap) (x : PairIndexDistance) l :
  Permutation (data h) (x :: l) -> exists p, top h = Some p /\ In p (data h).
Proof.
  intros P. pose proof (top_data h) as Ht.
  destruct (top h) as [p|]; [exists p; auto|].
  rewrite Ht in P. apply Permutation_nil in P. discriminate.
Qed.

(** After [top] has been read from a heap of comparable entries, the
    invariant holds with the top distance as radius. *)
Lemma heap_inv_top (k : Z) (h : heap) (p : PairIndexDistance) :
  comparable (data h) -> heap_size h = k -> top h = Some p ->
  heap_inv k h (snd p).
Proof.
  intros C Hs Hp. split.
  - pose proof (top_greatest h C Hp) as G.
    unfold comparable in C. rewrite Forall_forall in C, G |- *.
    intros q Hq. apply not_ltb_leb; [| apply C, Hq | apply G, Hq].
    pose proof (top_data h) as Ht. rewrite Hp in Ht. apply C, Ht.
  - right. split; [exact Hs|]. exists p. auto.
Qed.

(** One candidate insertion: it returns, keeps the invariant, does not
    raise the radius, changes the radius only to the top distance of a heap
    of [k] entries, and drops at most the former top, which is not nearer
    than the new radius. *)
Lemma insert_leaf_pair_spec (k : Z) (x : PairIndexDistance) (h : heap)
  (radius : float) :
  1 <= k -> heap_inv k h radius -> SFltb (snd x) radius = true ->
  exists h' radius' dropped,
    insert_leaf_pair k x h radius = Ret (h', radius') /\
    heap_inv k h' radius' /\
    SFleb radius' radius = true /\
    (heap_size h < k -> dropped = [] /\ heap_size h' = heap_size h + 1) /\
    (heap_size h = k -> heap_size h' = k) /\
    Permutation (x :: data h) (dropped ++ data h') /\
    Forall (fun q => SFltb (snd q) radius' = false) dropped.
Proof.
  intros Hk Hinv Hx.
  pose proof (heap_inv_comparable _ _ _ Hinv) as C.
  pose proof (heap_inv_radius_nonnan _ _ _ Hinv) as Hr.
  destruct Hinv as [Hle Hcase]. unfold insert_leaf_pair.
  destruct Hcase as [[Hlt ->]|[Heq (p & Hp & ->)]].
  - (* below k entries: push *)
    replace (heap_size h <? k) with true by (symmetry; apply Z.ltb_lt, Hlt).
    pose proof (data_push x h) as P.
    assert (C' : comparable (data (push x h))).
    { unfold comparable. rewrite P. constructor; [|exact C].
      eapply ltb_nonnan_l, Hx. }
    assert (Hs : heap_size (push x h) = heap_size h + 1).
    { rewrite (heap_size_Permutation _ _ P). unfold heap_size.
      simpl length. lia. }
    destruct (heap_size (push x h) =? k) eqn:Ek.
    + apply Z.eqb_eq in Ek.
      destruct (top_of_nonempty _ _ _ P) as (p & Hp & Hin).
      rewrite Hp. exists (push x h), (snd p), []. split; [reflexivity|].
      split; [apply heap_inv_top; assumption|].
      split; [apply leb_infinity; unfold comparable in C';
              rewrite Forall_forall in C'; apply C', Hin|].
      split; [intros _; split; [reflexivity | exact Hs]|].
      split; [intros; lia|].
      split; [symmetry; exact P | constructor].
    + apply Z.eqb_neq in Ek.
      exists (push x h), infinity, []. split; [reflexivity|].
      split.
      { split.
        - rewrite P. constructor; [apply ltb_leb, Hx | exact Hle].
        - left. split; [lia | reflexivity]. }
      split; [reflexivity|].
      split; [intros _; split; [reflexivity | exact Hs]|].
      split; [intros; lia|].
      split; [symmetry; exact P | constructor].
  - (* k entries: the top is replaced *)
    replace (heap_size h <? k) with false by (symmetry; apply Z.ltb_ge; lia).
    destruct (data_popPush x h Hp) as (rest & P1 & P2).
    assert (C' : comparable (data (popPush x h))).
    { unfold comparable in *. rewrite P2. rewrite P1 in C.
      inversion C; subst. constructor; [eapply ltb_nonnan_l, Hx | assumption]. }
    assert (Hs : heap_size (popPush x h) = k).
    { rewrite (heap_size_Permutation _ _ P2), <- Heq,
        (heap_size_Permutation _ _ P1). reflexivity. }
    rewrite Hs, Z.eqb_refl.
    destruct (top_of_nonempty _ _ _ P2) as (p' & Hp' & Hin).
    rewrite Hp'. exists (popPush x h), (snd p'), [p].
    split; [reflexivity|].
    split; [apply heap_inv_top; assumption|].
    assert (Hle' : SFleb (snd p') (snd p) = true).
    { apply (Permutation_in _ P2) in Hin. destruct Hin as [<-|Hin].
      - apply ltb_leb, Hx.
      - rewrite Forall_forall in Hle. apply Hle.
        apply (Permutation_in _ (Permutation_sym P1)). right. exact Hin. }
    split; [exact Hle'|].
    split; [intros; lia|].
    split; [intros _; exact Hs|].
    split.
    + rewrite P1, P2. simpl. rewrite perm_swap. reflexivity.
    + constructor; [apply leb_not_ltb, Hle' | constructor].
Qed.

End HeapInvariant.

Section Candidate.
Context `{PriorityQueue}.
Import FloatOrder.

(** The radius after an insertion is the old one or the top distance of a
    heap of [k] entries. *)
Definition radius_step (k : Z) (radius : float) (h' : heap) (radius' : float)
  : Prop :=
  radius' = radius \/
  (heap_size h' = k /\
   exists p, top h' = Some p /\ radius' = snd p /\
             Forall (fun q => SFleb (snd q) (snd p) = true) (data h')).

Lemma heap_inv_radius_step (k : Z) (h h' : heap) (radius radius' : float) :
  heap_inv k h radius -> heap_inv k h' radius' ->
  heap_size h <= heap_size h' ->
  radius_step k radius h' radius'.
Proof.
  intros [_ Hc] [Hle' Hc'] Hs. unfold radius_step.
  destruct Hc' as [[Hlt' ->]|[Heq' (p & Hp & ->)]].
  - left. destruct Hc as [[_ ->]|[Heq _]]; [reflexivity | lia].
  - right. split; [exact Heq'|]. exists p. auto.
Qed.

(** The guarded insertion of one child, as the loop writes it: [is_leaf]
    stands for [child->isLeaf()]. *)
Lemma candidate_spec (k : Z) (x : PairIndexDistance) (is_leaf : bool)
  (h : heap) (radius : float) :
  1 <= k -> heap_inv k h radius ->
  exists h' radius',
    (if SFltb (snd x) radius && is_leaf
     then insert_leaf_pair k x h radius else Ret (h, radius))
    = Ret (h', radius') /\
    heap_inv k h' radius' /\
    SFleb radius' radius = true /\
    radius_step k radius h' radius' /\
    heap_size h <= heap_size h'.
Proof.
  intros Hk Hinv.
  destruct (SFltb (snd x) radius && is_leaf) eqn:E.
  - apply andb_prop in E as [Hx _].
    destruct (insert_leaf_pair_spec k x h radius Hk Hinv Hx)
      as (h' & r' & dropped & Heq & Hinv' & Hle & Hlt & Hfull & _).
    exists h', r'. split; [exact Heq|]. split; [exact Hinv'|].
    split; [exact Hle|].
    assert (Hs : heap_size h <= heap_size h').
    { destruct Hinv as [_ [[Hl _]|[He _]]].
      - destruct (Hlt Hl) as [_ ->]. lia.
      - rewrite (Hfull He), He. lia. }
    split; [eapply heap_inv_radius_step; eassumption | exact Hs].
  - exists h, radius. split; [reflexivity|]. split; [exact Hinv|].
    split; [apply leb_refl; eapply heap_inv_radius_nonnan; eassumption|].
    split; [left; reflexivity | lia].
Qed.

End Candidate.

(** ** Every iteration of the nearest loop keeps the heap invariant *)

Section NearestInvariant.
Context {BV Geometry : Type}.
Variable Details_distance : Geometry -> BV -> float.
Context {Node : Type} `{NodeTag BV Node} `{PriorityQueue}.
Variable bvh : BVH Node.
Variable predicate : @NearestPredicate Geometry.
Import FloatOrder.

Lemma examine_children_inv (s : NearestState) tl tr cl cr dl dr h radius :
  1 <= getK predicate ->
  heap_inv (getK predicate) (st_heap s) (st_radius s) ->
  examine_children Details_distance bvh predicate s
    = Ret (tl, tr, cl, cr, dl, dr, h, radius) ->
  heap_inv (getK predicate) h radius /\
  SFleb radius (st_radius s) = true /\
  radius_step (getK predicate) (st_radius s) h radius.
Proof.
  intros Hk Hinv. unfold examine_children.
  destruct (SFltb (st_distance_node s) (st_radius s)).
  - destruct (deref bvh (st_node s)) as [node| |]; cbn [bind]; try discriminate.
    destruct (getRightChild bvh node) as [right| |]; cbn [bind];
      try discriminate.
    destruct (deref bvh (getNodePtr bvh (left_child node))) as [nl| |];
      cbn [bind]; try discriminate.
    destruct (deref bvh (getNodePtr bvh right)) as [nr| |]; cbn [bind];
      try discriminate.
    destruct (candidate_spec (getK predicate)
                (getLeafPermutationIndex nl,
                 distance Details_distance predicate nl)
                (isLeaf nl) (st_heap s) (st_radius s) Hk Hinv)
      as (h1 & r1 & E1 & Hinv1 & Hle1 & Hstep1 & Hs1).
    cbn [snd] in E1. rewrite E1. cbn [bind].
    destruct (candidate_spec (getK predicate)
                (getLeafPermutationIndex nr,
                 distance Details_distance predicate nr)
                (isLeaf nr) h1 r1 Hk Hinv1)
      as (h2 & r2 & E2 & Hinv2 & Hle2 & Hstep2 & Hs2).
    cbn [snd] in E2. rewrite E2. cbn [bind].
    intros [= <- <- <- <- <- <- <- <-].
    split; [exact Hinv2|]. split; [eapply leb_trans; eassumption|].
    eapply heap_inv_radius_step; [exact Hinv | exact Hinv2 | lia].
  - intros [= <- <- <- <- <- <- <- <-].
    split; [exact Hinv|].
    split; [apply leb_refl; eapply heap_inv_radius_nonnan; eassumption|].
    left. reflexivity.
Qed.

Lemma nearest_body_heap (cuda_arch : bool) (s s' : NearestState) :
  nearest_body Details_distance cuda_arch bvh predicate s = Ret s' ->
  exists tl tr cl cr dl dr,
    examine_children Details_distance bvh predicate s
      = Ret (tl, tr, cl, cr, dl, dr, st_heap s', st_radius s').
Proof.
  unfold nearest_body.
  destruct (examine_children Details_distance bvh predicate s)
    as [[[[[[[[tl tr] cl] cr] dl] dr] h] radius]| |]; cbn [bind];
    try discriminate.
  intros E. exists tl, tr, cl, cr, dl, dr.
  assert (st_heap s' = h /\ st_radius s' = radius) as [-> ->];
    [|reflexivity].
  destruct (negb tl && negb tr).
  - destruct (stack_pop (st_stack s)) as [[node stack]| |]; cbn [bind] in E;
      try discriminate.
    destruct cuda_arch.
    + destruct (if negb (is_null node) then _ else _) as [d| |];
        cbn [bind] in E; try discriminate.
      injection E as <-. auto.
    + destruct (stack_pop (st_stack_distance s)) as [[d sd]| |];
        cbn [bind] in E; try discriminate.
      injection E as <-. auto.
  - destruct (tl && tr).
    + destruct (stack_push _ (st_stack s)) as [stack| |]; cbn [bind] in E;
        try discriminate.
      destruct (if cuda_arch then _ else _) as [sd| |]; cbn [bind] in E;
        try discriminate.
      injection E as <-. auto.
    + injection E as <-. auto.
Qed.

Lemma nearest_body_inv (cuda_arch : bool) (s s' : NearestState) :
  1 <= getK predicate ->
  heap_inv (getK predicate) (st_heap s) (st_radius s) ->
  nearest_body Details_distance cuda_arch bvh predicate s = Ret s' ->
  heap_inv (getK predicate) (st_heap s') (st_radius s') /\
  SFleb (st_radius s') (st_radius s) = true /\
  radius_step (getK predicate) (st_radius s) (st_heap s') (st_radius s').
Proof.
  intros Hk Hinv E.
  destruct (nearest_body_heap _ _ _ E) as (tl & tr & cl & cr & dl & dr & Ex).
  eapply examine_children_inv; eassumption.
Qed.

Lemma reachable_inv (cuda_arch : bool) (s : NearestState) :
  1 <= getK predicate ->
  reachable Details_distance bvh predicate cuda_arch s ->
  heap_inv (getK predicate) (st_heap s) (st_radius s).
Proof.
  intros Hk R. induction R as [|s s' R IH E].
  - apply heap_inv_init, Hk.
  - eapply nearest_body_inv; eassumption.
Qed.

Lemma nearest_loop_inv (cuda_arch : bool) (fuel : nat) (s s' : NearestState) :
  1 <= getK predicate ->
  heap_inv (getK predicate) (st_heap s) (st_radius s) ->
  nearest_loop Details_distance cuda_arch fuel bvh predicate s = Ret s' ->
  heap_inv (getK predicate) (st_heap s') (st_radius s').
Proof.
  intros Hk. unfold nearest_loop. revert s.
  induction fuel as [|fuel IH]; intros s Hinv; simpl; [discriminate|].
  destruct (nearest_body Details_distance cuda_arch bvh predicate s)
    as [s1| |] eqn:E; cbn [bind]; try discriminate.
  destruct (nearest_body_inv _ _ _ Hk Hinv E) as (Hinv1 & _).
  destruct (negb (is_null (st_node s1))).
  - apply IH, Hinv1.
  - intros [= <-]. exact Hinv1.
Qed.

End NearestInvariant.


(** ** The nearest loop follows [visit] *)

Section NearestKernel.
Context {BV Geometry : Type}.
Variable Details_distance : Geometry -> BV -> float.
Context {Node : Type} `{NodeTag BV Node} `{PriorityQueue}.
Variable bvh : BVH Node.
Variable predicate : @NearestPredicate Geometry.

Definition nearest_cond (s : NearestState) : bool := negb (is_null (st_node s)).

Local Abbreviation k := (getK predicate).
Local Abbreviation dist := (Details_distance (getGeometry predicate)).
Local Abbreviation body := (nearest_body Details_distance false bvh predicate).

(** One host iteration at an internal node, in terms of the tree. *)
Lemma nearest_body_internal (i : Z) bv (l r : @tree BV) :
  encodes bvh i (Internal bv l r) ->
  exists li ri,
    encodes bvh li l /\ encodes bvh ri r /\
    forall d stack sdist h radius,
      body (mkNearest (Some i) d stack sdist h radius) =
      if SFltb d radius then
        s1 <- consider k dist l (h, radius);;
        s2 <- consider k dist r s1;;
        let traverse_left := descends dist l (snd s2) in
        let traverse_right := descends dist r (snd s2) in
        if negb traverse_left && negb traverse_right then
          '(node, stack') <- stack_pop stack;;
          '(d', sdist') <- stack_pop sdist;;
          Ret (mkNearest node d' stack' sdist' (fst s2) (snd s2))
        else if traverse_left
                && (SFleb (dist (tree_bv l)) (dist (tree_bv r))
                    || negb traverse_right)
        then
          if traverse_left && traverse_right then
            stack' <- stack_push (Some ri) stack;;
            sdist' <- stack_push (dist (tree_bv r)) sdist;;
            Ret (mkNearest (Some li) (dist (tree_bv l)) stack' sdist'
                   (fst s2) (snd s2))
          else
            Ret (mkNearest (Some li) (dist (tree_bv l)) stack sdist
                   (fst s2) (snd s2))
        else
          if traverse_left && traverse_right then
            stack' <- stack_push (Some li) stack;;
            sdist' <- stack_push (dist (tree_bv l)) sdist;;
            Ret (mkNearest (Some ri) (dist (tree_bv r)) stack' sdist'
                   (fst s2) (snd s2))
          else
            Ret (mkNearest (Some ri) (dist (tree_bv r)) stack sdist
                   (fst s2) (snd s2))
      else
        '(node, stack') <- stack_pop stack;;
        '(d', sdist') <- stack_pop sdist;;
        Ret (mkNearest node d' stack' sdist' h radius).
Proof.
  intros He.
  destruct (encodes_children He) as (n & ri & Hd & Hj & Hl & Hr).
  exists (left_child n), ri. split; [exact Hl|]. split; [exact Hr|].
  destruct (encodes_root Hl) as (nl & Hdl & Hbl & Hll & Hil).
  destruct (encodes_root Hr) as (nr & Hdr & Hbr & Hlr & Hir).
  intros d stack sdist h radius.
  unfold nearest_body, examine_children, getNodePtr.
  cbn [st_node st_distance_node st_stack st_stack_distance st_heap st_radius].
  destruct (SFltb d radius); [|reflexivity].
  rewrite Hd. cbn [bind]. rewrite Hj. cbn [bind]. rewrite Hdl, Hdr.
  cbn [bind]. unfold distance. rewrite Hbl, Hbr, Hll, Hlr.
  unfold consider at 1. cbn [fst snd].
  assert (Ei : tree_is_leaf l = true ->
               getLeafPermutationIndex nl = tree_index l) by exact Hil.
  assert (Ej : tree_is_leaf r = true ->
               getLeafPermutationIndex nr = tree_index r) by exact Hir.
  replace (if SFltb (dist (tree_bv l)) radius && tree_is_leaf l
           then insert_leaf_pair k
                  (getLeafPermutationIndex nl, dist (tree_bv l)) h radius
           else Ret (h, radius))
    with (if SFltb (dist (tree_bv l)) radius && tree_is_leaf l
          then insert_leaf_pair k (tree_index l, dist (tree_bv l)) h radius
          else Ret (h, radius))
    by (destruct (tree_is_leaf l); [rewrite Ei by reflexivity|];
        rewrite ?andb_false_r; reflexivity).
  destruct (if SFltb (dist (tree_bv l)) radius && tree_is_leaf l then _ else _)
    as [[h1 r1]| |]; cbn [bind]; try reflexivity.
  unfold consider. cbn [fst snd].
  replace (if SFltb (dist (tree_bv r)) r1 && tree_is_leaf r
           then insert_leaf_pair k
                  (getLeafPermutationIndex nr, dist (tree_bv r)) h1 r1
           else Ret (h1, r1))
    with (if SFltb (dist (tree_bv r)) r1 && tree_is_leaf r
          then insert_leaf_pair k (tree_index r, dist (tree_bv r)) h1 r1
          else Ret (h1, r1))
    by (destruct (tree_is_leaf r); [rewrite Ej by reflexivity|];
        rewrite ?andb_false_r; reflexivity).
  destruct (if SFltb (dist (tree_bv r)) r1 && tree_is_leaf r then _ else _)
    as [[h2 r2]| |]; cbn [bind]; try reflexivity.
  unfold descends. cbn [fst snd].
  set (tl := SFltb (dist (tree_bv l)) r2 && negb (tree_is_leaf l)).
  set (tr := SFltb (dist (tree_bv r)) r2 && negb (tree_is_leaf r)).
  destruct (negb tl && negb tr) eqn:Eneither; [reflexivity|].
  destruct (tl && (SFleb (dist (tree_bv l)) (dist (tree_bv r)) || negb tr))
    eqn:Efirst.
  - (* the left child is chosen *)
    cbn [pointer_eqb]. rewrite Z.eqb_refl. reflexivity.
  - (* the right child is chosen *)
    cbn [pointer_eqb].
    destruct (ri =? left_child n) eqn:Ealias; [|reflexivity].
    (* both children are the same node: same pointer, same distance *)
    apply Z.eqb_eq in Ealias. subst ri.
    rewrite Hdl in Hdr. injection Hdr as <-.
    rewrite <- Hbr, Hbl. reflexivity.
Qed.

Lemma nearest_simulation (t : @tree BV) :
  tree_is_leaf t = false ->
  forall i, encodes bvh i t ->
  forall d x dx stack sdist h radius s',
    (length (x :: stack) + height t <= 65)%nat ->
    length sdist = length stack ->
    visit k dist t d (h, radius) = Ret s' ->
    exists n, (1 <= n <= internal_nodes t)%nat /\
      forall fuel,
        do_while body nearest_cond (n + fuel)
          (mkNearest (Some i) d (x :: stack) (dx :: sdist) h radius) =
        resume body nearest_cond fuel
          (mkNearest x dx stack sdist (fst s') (snd s')).
Proof.
  induction t as [bv idx|bv l IHl r IHr];
    intros Hi i He d x dx stack sdist h radius s' Hh Hlen Hv; [discriminate|].
  unfold pointer in *.
  destruct (nearest_body_internal _ _ _ _ He) as (li & ri & Hl & Hr & Hbody).
  specialize (Hbody d (x :: stack) (dx :: sdist) h radius).
  cbn [visit snd] in Hv. cbn [height] in Hh. cbn [internal_nodes].
  destruct (SFltb d radius).
  2:{ (* the node is no nearer than the radius: it is dropped *)
      injection Hv as <-. exists 1%nat. split; [lia|]. intros fuel.
      apply do_while_step. exact Hbody. }
  destruct (consider k dist l (h, radius)) as [s1| |]; cbn [bind] in Hv, Hbody;
    try discriminate.
  destruct (consider k dist r s1) as [s2| |]; cbn [bind] in Hv, Hbody;
    try discriminate.
  cbn zeta in Hv, Hbody.
  destruct (descends dist l (snd s2)) eqn:Tl;
    destruct (descends dist r (snd s2)) eqn:Tr;
    cbn [negb andb orb bind stack_pop] in Hv, Hbody.
  - (* both children are descended *)
    assert (Il : tree_is_leaf l = false)
      by (apply andb_prop in Tl as [_ Tl]; apply negb_true_iff, Tl).
    assert (Ir : tree_is_leaf r = false)
      by (apply andb_prop in Tr as [_ Tr]; apply negb_true_iff, Tr).
    unfold stack_push, pointer in Hbody.
    assert (Hroom : (length (x :: stack) <? STACK_SIZE)%nat = true).
    { apply Nat.ltb_lt. unfold STACK_SIZE.
      destruct l, r; try discriminate; cbn [height length] in *; lia. }
    assert (Hroom' : (length (dx :: sdist) <? STACK_SIZE)%nat = true).
    { cbn [length] in *. rewrite Hlen. exact Hroom. }
    rewrite Hroom, Hroom' in Hbody.
    cbn [bind] in Hbody. rewrite orb_false_r in Hv, Hbody.
    destruct (SFleb (dist (tree_bv l)) (dist (tree_bv r))).
    + destruct (visit k dist l (dist (tree_bv l)) s2) as [s3| |] eqn:Vl;
        cbn [bind] in Hv; try discriminate.
      destruct s2 as [h2 r2], s3 as [h3 r3]. cbn [fst snd] in *.
      destruct (IHl Il li Hl _ (Some ri) (dist (tree_bv r)) (x :: stack)
                  (dx :: sdist) h2 r2 _
                  ltac:(cbn [length] in *; lia) ltac:(cbn [length]; lia) Vl)
        as (nl & Hnl & Hsl).
      destruct (IHr Ir ri Hr _ x dx stack sdist h3 r3 _
                  ltac:(cbn [length] in *; lia) Hlen Hv)
        as (nr & Hnr & Hsr).
      exists (1 + (nl + nr))%nat. split; [lia|]. intros fuel.
      rewrite <- Nat.add_assoc, (do_while_step nearest_cond Hbody).
      unfold resume at 1. cbn [nearest_cond st_node is_null negb].
      apply (do_while_seq Hsl eq_refl Hsr).
    + destruct (visit k dist r (dist (tree_bv r)) s2) as [s3| |] eqn:Vr;
        cbn [bind] in Hv; try discriminate.
      destruct s2 as [h2 r2], s3 as [h3 r3]. cbn [fst snd] in *.
      destruct (IHr Ir ri Hr _ (Some li) (dist (tree_bv l)) (x :: stack)
                  (dx :: sdist) h2 r2 _
                  ltac:(cbn [length] in *; lia) ltac:(cbn [length]; lia) Vr)
        as (nr & Hnr & Hsr).
      destruct (IHl Il li Hl _ x dx stack sdist h3 r3 _
                  ltac:(cbn [length] in *; lia) Hlen Hv)
        as (nl & Hnl & Hsl).
      exists (1 + (nr + nl))%nat. split; [lia|]. intros fuel.
      rewrite <- Nat.add_assoc, (do_while_step nearest_cond Hbody).
      unfold resume at 1. cbn [nearest_cond st_node is_null negb].
      apply (do_while_seq Hsr eq_refl Hsl).
  - (* only the left child is descended *)
    assert (Il : tree_is_leaf l = false)
      by (apply andb_prop in Tl as [_ Tl]; apply negb_true_iff, Tl).
    rewrite orb_true_r in Hv, Hbody.
    destruct (visit k dist l (dist (tree_bv l)) s2) as [s3| |] eqn:Vl;
      cbn [bind] in Hv; try discriminate.
    injection Hv as <-. destruct s2 as [h2 r2]. cbn [fst snd] in *.
    destruct (IHl Il li Hl _ x dx stack sdist h2 r2 _
                ltac:(cbn [length] in *; lia) Hlen Vl)
      as (nl & Hnl & Hsl).
    exists (1 + nl)%nat. split; [lia|]. intros fuel.
    rewrite <- Nat.add_assoc, (do_while_step nearest_cond Hbody).
    unfold resume at 1. cbn [nearest_cond st_node is_null negb].
    apply Hsl.
  - (* only the right child is descended *)
    assert (Ir : tree_is_leaf r = false)
      by (apply andb_prop in Tr as [_ Tr]; apply negb_true_iff, Tr).
    destruct (visit k dist r (dist (tree_bv r)) s2) as [s3| |] eqn:Vr;
      cbn [bind] in Hv; try discriminate.
    injection Hv as <-. destruct s2 as [h2 r2]. cbn [fst snd] in *.
    destruct (IHr Ir ri Hr _ x dx stack sdist h2 r2 _
                ltac:(cbn [length] in *; lia) Hlen Vr)
      as (nr & Hnr & Hsr).
    exists (1 + nr)%nat. split; [lia|]. intros fuel.
    rewrite <- Nat.add_assoc, (do_while_step nearest_cond Hbody).
    unfold resume at 1. cbn [nearest_cond st_node is_null negb].
    apply Hsr.
  - (* no child is descended *)
    injection Hv as <-. exists 1%nat. split; [lia|]. intros fuel.
    apply do_while_step. exact Hbody.
Qed.

End NearestKernel.

(** ** What the heap holds after a subtree has been visited

    The leaves seen so far split into the heap entries and the rejected
    ones; [R] is what is known of a rejected leaf and [ok] what is asked of
    a subtree for its rejection to establish [R]. *)

Section Selection.
Context {BV : Type} `{PriorityQueue}.
Variable k : Z.
Variable dist : BV -> float.
Variable R : heap -> float -> PairIndexDistance -> Prop.
Variable ok : @tree BV -> Prop.
Import FloatOrder.

Hypothesis Hk : 1 <= k.
Hypothesis ok_children : forall bv l r, ok (Internal bv l r) -> ok l /\ ok r.
Hypothesis R_stable : forall h radius h' radius' q,
  heap_inv k h radius -> heap_inv k h' radius' ->
  SFleb radius' radius = true -> heap_size h <= heap_size h' ->
  R h radius q -> R h' radius' q.
Hypothesis R_full : forall h radius q,
  heap_size h = k -> SFltb (snd q) radius = false -> R h radius q.
Hypothesis R_reject : forall c h radius,
  ok c -> heap_inv k h radius ->
  SFltb (dist (tree_bv c)) radius = false ->
  Forall (R h radius) (leaf_pairs dist c).

Definition selection (done : list PairIndexDistance) (h : heap)
  (radius : float) : Prop :=
  heap_inv k h radius /\
  exists rejected,
    Permutation done (rejected ++ data h) /\ Forall (R h radius) rejected.

(** The leaves of a child that its candidate insertion has seen, and those
    left to a visit of the child. *)
Definition counted (c : @tree BV) : list PairIndexDistance :=
  if tree_is_leaf c then leaf_pairs dist c else [].

Definition pending (c : @tree BV) : list PairIndexDistance :=
  if tree_is_leaf c then [] else leaf_pairs dist c.

Lemma selection_Permutation done done' h radius :
  Permutation done done' -> selection done h radius ->
  selection done' h radius.
Proof.
  intros P (Hinv & rej & Hp & Hr). split; [exact Hinv|].
  exists rej. split; [|exact Hr]. rewrite <- P. exact Hp.
Qed.

Lemma selection_reject done l h radius :
  selection done h radius -> Forall (R h radius) l ->
  selection (l ++ done) h radius.
Proof.
  intros (Hinv & rej & Hp & Hr) Hl. split; [exact Hinv|].
  exists (l ++ rej). split.
  - rewrite <- app_assoc. apply Permutation_app_head, Hp.
  - apply Forall_app. auto.
Qed.

Lemma not_nearer_mono (x radius radius' : float) :
  SFleb radius' radius = true -> SFltb x radius = false ->
  SFltb x radius' = false.
Proof.
  intros Hle Hx. destruct (SFltb x radius') eqn:E; [|reflexivity].
  rewrite <- Hx. symmetry. eapply ltb_leb_trans; eassumption.
Qed.

Lemma selection_consider (c : @tree BV) done h radius :
  ok c -> selection done h radius ->
  exists h1 r1,
    consider k dist c (h, radius) = Ret (h1, r1) /\
    selection (counted c ++ done) h1 r1 /\
    SFleb r1 radius = true /\ heap_size h <= heap_size h1.
Proof.
  intros Hok Hsel. unfold consider, counted. cbn [fst snd].
  pose proof Hsel as (Hinv & rej & Hp & Hr).
  assert (Hrefl : SFleb radius radius = true)
    by (apply leb_refl; eapply heap_inv_radius_nonnan; eassumption).
  destruct (tree_is_leaf c) eqn:Ec.
  2:{ rewrite andb_false_r. exists h, radius. split; [reflexivity|].
      split; [exact Hsel|]. split; [exact Hrefl | lia]. }
  rewrite andb_true_r.
  destruct (SFltb (dist (tree_bv c)) radius) eqn:Ed.
  - destruct (insert_leaf_pair_spec k (tree_index c, dist (tree_bv c)) h
                radius Hk Hinv Ed)
      as (h1 & r1 & dropped & E & Hinv1 & Hle & Hlt & Hfull & P & Hd).
    assert (Hs : heap_size h <= heap_size h1).
    { destruct Hinv as [_ [[Hl _]|[He _]]].
      - destruct (Hlt Hl) as [_ ->]. lia.
      - rewrite (Hfull He), He. lia. }
    exists h1, r1. split; [exact E|]. split; [|split; assumption].
    split; [exact Hinv1|]. exists (dropped ++ rej). split.
    + destruct c as [bv i|]; [|discriminate]. unfold leaf_pairs.
      cbn [leaves map fst snd app tree_index tree_bv] in P |- *.
      rewrite Hp.
      etransitivity; [apply Permutation_middle|].
      etransitivity; [apply Permutation_app_head, P|].
      rewrite !app_assoc. apply Permutation_app_tail, Permutation_app_comm.
    + apply Forall_app. split.
      * destruct Hinv as [_ [[Hl _]|[He _]]].
        -- destruct (Hlt Hl) as [-> _]. constructor.
        -- eapply Forall_impl; [|exact Hd]. intros q Hq.
           apply R_full; auto.
      * eapply Forall_impl; [|exact Hr]. intros q Hq.
        exact (R_stable h radius h1 r1 q Hinv Hinv1 Hle Hs Hq).
  - exists h, radius. split; [reflexivity|]. split; [|split; [auto | lia]].
    apply selection_reject; [exact Hsel|]. apply R_reject; assumption.
Qed.

(** A child after the candidate insertions: visited when its flag, read at
    [flag_radius], is set, and rejected as a whole otherwise. *)
Lemma selection_child (c : @tree BV) (flag_radius : float) done h radius
  (IH : tree_is_leaf c = false ->
        forall d done h radius,
          selection done h radius ->
          (SFltb d radius = false ->
           Forall (R h radius) (leaf_pairs dist c)) ->
          exists h' r',
            visit k dist c d (h, radius) = Ret (h', r') /\
            selection (leaf_pairs dist c ++ done) h' r' /\
            SFleb r' radius = true /\ heap_size h <= heap_size h') :
  ok c -> selection done h radius -> SFleb radius flag_radius = true ->
  exists h' r',
    (if descends dist c flag_radius
     then visit k dist c (dist (tree_bv c)) (h, radius)
     else Ret (h, radius)) = Ret (h', r') /\
    selection (pending c ++ done) h' r' /\
    SFleb r' radius = true /\ heap_size h <= heap_size h'.
Proof.
  intros Hok Hsel Hle. unfold descends, pending.
  pose proof Hsel as (Hinv & _).
  destruct (tree_is_leaf c) eqn:Ec.
  - rewrite andb_false_r. exists h, radius.
    split; [reflexivity|]. split; [exact Hsel|].
    split; [|lia]. apply leb_refl. eapply heap_inv_radius_nonnan; eassumption.
  - rewrite andb_true_r.
    destruct (SFltb (dist (tree_bv c)) flag_radius) eqn:Ed.
    + apply IH; [reflexivity | exact Hsel |].
      intros Hd. apply R_reject; assumption.
    + exists h, radius. split; [reflexivity|].
      split; [|split; [|lia]].
      * apply selection_reject; [exact Hsel|].
        apply R_reject; auto. eapply not_nearer_mono; eassumption.
      * apply leb_refl. eapply heap_inv_radius_nonnan; eassumption.
Qed.

Lemma leaf_pairs_split (c : @tree BV) :
  Permutation (leaf_pairs dist c) (pending c ++ counted c).
Proof.
  unfold pending, counted. destruct (tree_is_leaf c);
    rewrite ?app_nil_r; reflexivity.
Qed.

Lemma leaf_pairs_Internal bv (l r : @tree BV) :
  leaf_pairs dist (Internal bv l r) = leaf_pairs dist l ++ leaf_pairs dist r.
Proof. unfold leaf_pairs. simpl. apply map_app. Qed.

Lemma Permutation_regroup {A : Type} (a b c d e : list A) :
  Permutation ((a ++ b) ++ (c ++ d) ++ e) ((a ++ d) ++ (b ++ c) ++ e).
Proof.
  rewrite <- !app_assoc. apply Permutation_app_head.
  rewrite (app_assoc b c), (app_assoc (b ++ c) d).
  rewrite (Permutation_app_comm (b ++ c) d).
  rewrite <- !app_assoc. reflexivity.
Qed.

Lemma visit_selection (t : @tree BV) :
  tree_is_leaf t = false ->
  match t with Internal _ l r => ok l /\ ok r | Leaf _ _ => True end ->
  forall d done h radius,
    selection done h radius ->
    (SFltb d radius = false -> Forall (R h radius) (leaf_pairs dist t)) ->
    exists h' r',
      visit k dist t d (h, radius) = Ret (h', r') /\
      selection (leaf_pairs dist t ++ done) h' r' /\
      SFleb r' radius = true /\ heap_size h <= heap_size h'.
Proof.
  induction t as [bv idx|bv l IHl r IHr]; intros Hi Hok d done h radius Hsel Hd;
    [discriminate|].
  destruct Hok as [Hokl Hokr].
  assert (IHl' := fun Hl => IHl Hl
    ltac:(destruct l; [exact I | eapply ok_children; eassumption])).
  assert (IHr' := fun Hr => IHr Hr
    ltac:(destruct r; [exact I | eapply ok_children; eassumption])).
  clear IHl IHr. cbn [visit snd].
  pose proof Hsel as (Hinv & _).
  assert (Hrefl : SFleb radius radius = true)
    by (apply leb_refl; eapply heap_inv_radius_nonnan; eassumption).
  destruct (SFltb d radius).
  2:{ exists h, radius. split; [reflexivity|].
      split; [|split; [auto | lia]].
      apply selection_reject; auto. }
  destruct (selection_consider l _ _ _ Hokl Hsel)
    as (h1 & r1 & E1 & S1 & L1 & Z1).
  rewrite E1. cbn [bind].
  destruct (selection_consider r _ _ _ Hokr S1)
    as (h2 & r2 & E2 & S2 & L2 & Z2).
  rewrite E2. cbn [bind snd].
  pose proof S2 as (Hinv2 & _).
  assert (Hrefl2 : SFleb r2 r2 = true)
    by (apply leb_refl; eapply heap_inv_radius_nonnan; eassumption).
  assert (Hfinal : forall h' r' a b,
            selection (a ++ b ++ counted r ++ counted l ++ done) h' r' ->
            Permutation (a ++ b) (pending l ++ pending r) ->
            selection (leaf_pairs dist (Internal bv l r) ++ done) h' r').
  { intros h' r' a b Hs P. eapply selection_Permutation; [|exact Hs].
    rewrite leaf_pairs_Internal.
    transitivity ((pending l ++ pending r) ++ (counted r ++ counted l) ++ done).
    { rewrite <- P, <- !app_assoc. reflexivity. }
    etransitivity; [apply Permutation_regroup|].
    rewrite <- (leaf_pairs_split l), <- (leaf_pairs_split r), app_assoc.
    reflexivity. }
  destruct (negb (descends dist l r2) && negb (descends dist r r2))
    eqn:Eneither.
  - (* no child is descended *)
    apply andb_prop in Eneither as [Fl Fr]. apply negb_true_iff in Fl, Fr.
    destruct (selection_child l r2 _ _ _ IHl' Hokl S2 Hrefl2)
      as (h3 & r3 & E3 & S3 & L3 & Z3).
    rewrite Fl in E3. injection E3 as <- <-.
    destruct (selection_child r r2 _ _ _ IHr' Hokr S3 Hrefl2)
      as (h4 & r4 & E4 & S4 & L4 & Z4).
    rewrite Fr in E4. injection E4 as <- <-.
    exists h2, r2. split; [reflexivity|].
    split; [|split; [exact (leb_trans _ _ _ L2 L1) | lia]].
    apply (Hfinal _ _ (pending r) (pending l)).
    + exact S4.
    + apply Permutation_app_comm.
  - destruct (descends dist l r2
              && (SFleb (dist (tree_bv l)) (dist (tree_bv r))
                  || negb (descends dist r r2))) eqn:Efirst.
    + (* the left child first *)
      apply andb_prop in Efirst as [Tl _].
      destruct (selection_child l r2 _ _ _ IHl' Hokl S2 Hrefl2)
        as (h3 & r3 & E3 & S3 & L3 & Z3).
      rewrite Tl in E3. rewrite E3. cbn [bind].
      destruct (selection_child r r2 _ _ _ IHr' Hokr S3 L3)
        as (h4 & r4 & E4 & S4 & L4 & Z4).
      exists h4, r4. split; [exact E4|].
      split;
        [|split;
          [exact (leb_trans _ _ _ L4
                    (leb_trans _ _ _ L3 (leb_trans _ _ _ L2 L1)))
          | lia]].
      apply (Hfinal _ _ (pending r) (pending l)).
      * exact S4.
      * apply Permutation_app_comm.
    + (* the right child first *)
      assert (Tr : descends dist r r2 = true).
      { destruct (descends dist l r2), (descends dist r r2);
          cbn [negb andb] in *; rewrite ?orb_true_r in *;
          try discriminate; reflexivity. }
      destruct (selection_child r r2 _ _ _ IHr' Hokr S2 Hrefl2)
        as (h3 & r3 & E3 & S3 & L3 & Z3).
      rewrite Tr in E3. rewrite E3. cbn [bind].
      destruct (selection_child l r2 _ _ _ IHl' Hokl S3 L3)
        as (h4 & r4 & E4 & S4 & L4 & Z4).
      exists h4, r4. split; [exact E4|].
      split;
        [|split;
          [exact (leb_trans _ _ _ L4
                    (leb_trans _ _ _ L3 (leb_trans _ _ _ L2 L1)))
          | lia]].
      apply (Hfinal _ _ (pending l) (pending r)).
      * exact S4.
      * reflexivity.
Qed.

End Selection.

(** ** Instances of the selection invariant *)

Section SelectionInstances.
Context {BV : Type} `{PriorityQueue}.
Variable k : Z.
Variable dist : BV -> float.
Hypothesis Hk : 1 <= k.
Import FloatOrder.

Lemma selection_init (R : heap -> float -> PairIndexDistance -> Prop) :
  selection k R [] empty_heap infinity.
Proof.
  split; [apply heap_inv_init, Hk|]. exists []. rewrite data_empty_heap.
  split; [reflexivity | constructor].
Qed.

(** Nothing asked, nothing known: the visit returns and keeps [heap_inv]. *)
Lemma visit_returns (t : @tree BV) (d : float) (h : heap) (radius : float) :
  tree_is_leaf t = false -> heap_inv k h radius ->
  exists h' r',
    visit k dist t d (h, radius) = Ret (h', r') /\ heap_inv k h' r'.
Proof.
  intros Hi Hinv.
  destruct (visit_selection k dist (fun _ _ _ => True) (fun _ => True) Hk)
    with (t := t) (d := d) (done := data h) (h := h) (radius := radius)
    as (h' & r' & E & (Hinv' & _) & _); auto.
  - intros. rewrite Forall_forall. auto.
  - destruct t; auto.
  - split; [exact Hinv|]. exists []. split; [reflexivity | constructor].
  - intros _. rewrite Forall_forall. auto.
  - exists h', r'. auto.
Qed.

(** Monotone distances: a rejected leaf is not nearer than the radius. *)
Definition not_nearer (h : heap) (radius : float) (q : PairIndexDistance)
  : Prop :=
  SFltb (snd q) radius = false.

Lemma monotone_children bv (l r : @tree BV) :
  monotone dist (Internal bv l r) = true ->
  SFleb (dist bv) (dist (tree_bv l)) = true /\
  SFleb (dist bv) (dist (tree_bv r)) = true /\
  monotone dist l = true /\ monotone dist r = true.
Proof.
  simpl. intros Hm. apply andb_prop in Hm as [Hm Hr].
  apply andb_prop in Hm as [Hm Hl]. apply andb_prop in Hm as [H1 H2]. auto.
Qed.

Lemma monotone_not_nearer (c : @tree BV) (radius : float) :
  monotone dist c = true ->
  SFltb (dist (tree_bv c)) radius = false ->
  Forall (fun q => SFltb (snd q) radius = false) (leaf_pairs dist c).
Proof.
  induction c as [bv i|bv l IHl r IHr]; intros Hm Hd.
  - unfold leaf_pairs. simpl. constructor; [exact Hd | constructor].
  - apply monotone_children in Hm as (Hl & Hr & Ml & Mr).
    cbn [tree_bv] in Hd. rewrite leaf_pairs_Internal.
    assert (Hstep : forall x, SFleb (dist bv) x = true ->
                              SFltb x radius = false).
    { intros x Hx. destruct (SFltb x radius) eqn:E; [|reflexivity].
      rewrite <- Hd. symmetry. eapply leb_ltb_trans; eassumption. }
    apply Forall_app. split; [apply IHl | apply IHr]; auto.
Qed.

Lemma visit_nearest_selection (t : @tree BV) :
  tree_is_leaf t = false -> monotone dist t = true ->
  exists h' r',
    visit k dist t zero (empty_heap, infinity) = Ret (h', r') /\
    selection k not_nearer (leaf_pairs dist t) h' r'.
Proof.
  intros Hi Hm.
  destruct (visit_selection k dist not_nearer
              (fun c => monotone dist c = true) Hk)
    with (t := t) (d := zero) (done := @nil PairIndexDistance)
         (h := empty_heap) (radius := infinity)
    as (h' & r' & E & Hsel & _); auto.
  - intros bv l r Hc. apply monotone_children in Hc. tauto.
  - unfold not_nearer. intros h radius h1 r1 q _ _ Hle _.
    apply not_nearer_mono, Hle.
  - intros c h radius Hc _. apply monotone_not_nearer, Hc.
  - destruct t as [|bv l r]; [exact I|].
    apply monotone_children in Hm. tauto.
  - apply selection_init.
  - discriminate.
  - exists h', r'. rewrite app_nil_r in Hsel. auto.
Qed.

(** Finite distances: a leaf is rejected only by a heap of [k] entries. *)
Definition rejected_when_full (h : heap) (radius : float)
  (q : PairIndexDistance) : Prop :=
  heap_size h = k.

Lemma heap_inv_size (h : heap) (radius : float) :
  heap_inv k h radius -> heap_size h <= k.
Proof. intros [_ [[Hl _]|[He _]]]; lia. Qed.

Lemma visit_nearest_count (t : @tree BV) :
  tree_is_leaf t = false -> finite_below dist t = true ->
  exists h' r',
    visit k dist t zero (empty_heap, infinity) = Ret (h', r') /\
    selection k rejected_when_full (leaf_pairs dist t) h' r'.
Proof.
  intros Hi Hf.
  assert (Hc : forall bv l r,
             finite_below dist (Internal bv l r) = true ->
             (SFltb (dist (tree_bv l)) infinity = true /\
              finite_below dist l = true) /\
             (SFltb (dist (tree_bv r)) infinity = true /\
              finite_below dist r = true)).
  { simpl. intros bv l r Hb. apply andb_prop in Hb as [Hb Fr].
    apply andb_prop in Hb as [Hb Fl]. apply andb_prop in Hb as [Dl Dr]. auto. }
  destruct (visit_selection k dist rejected_when_full
              (fun c => SFltb (dist (tree_bv c)) infinity = true
                        /\ finite_below dist c = true) Hk)
    with (t := t) (d := zero) (done := @nil PairIndexDistance)
         (h := empty_heap) (radius := infinity)
    as (h' & r' & E & Hsel & _); auto.
  - intros bv l r [_ Hb]. apply (Hc bv), Hb.
  - unfold rejected_when_full. intros h radius h1 r1 q _ Hinv1 _ Hs Hq.
    apply heap_inv_size in Hinv1. lia.
  - unfold rejected_when_full. intros c h radius [Hd _] [_ Hcase] Hn.
    rewrite Forall_forall. intros q _.
    destruct Hcase as [[_ ->]|[He _]]; [congruence | exact He].
  - destruct t as [|bv l r]; [exact I|]. apply (Hc bv), Hf.
  - apply selection_init.
  - discriminate.
  - exists h', r'. rewrite app_nil_r in Hsel. auto.
Qed.

End SelectionInstances.

(** ** The two builds of the nearest kernel *)

Section Builds.
Context {BV Geometry : Type}.
Variable Details_distance : Geometry -> BV -> float.
Context {Node : Type} `{NodeTag BV Node} `{PriorityQueue}.
Variable bvh : BVH Node.
Variable predicate : @NearestPredicate Geometry.

(** Each distance kept on the host stack is the distance of the node
    deferred beside it. *)
Definition kept_distance (p : pointer) (d : float) : Prop :=
  match p with
  | Some i =>
      exists n, deref bvh (Some i) = Ret n
                /\ distance Details_distance predicate n = d
  | None => True
  end.

(** The device state [c] and the host state [h] at the start of an
    iteration. *)
Definition builds_agree (c h : NearestState) : Prop :=
  st_node c = st_node h /\
  st_stack c = st_stack h /\
  st_heap c = st_heap h /\
  st_radius c = st_radius h /\
  (is_null (st_node h) = false -> st_distance_node c = st_distance_node h) /\
  Forall2 kept_distance (st_stack h) (st_stack_distance h).

Definition same_outcome {A : Type} (P : A -> A -> Prop) (x y : result A)
  : Prop :=
  match x, y with
  | Ret a, Ret b => P a b
  | Undefined, Undefined => True
  | OutOfFuel, OutOfFuel => True
  | _, _ => False
  end.

Lemma examine_children_agree (c h : NearestState) :
  builds_agree c h -> is_null (st_node h) = false ->
  examine_children Details_distance bvh predicate c =
  examine_children Details_distance bvh predicate h.
Proof.
  intros (Hn & _ & Hh & Hr & Hd & _) Hnn. unfold examine_children.
  rewrite Hn, Hh, Hr, (Hd Hnn). reflexivity.
Qed.

(** When a child is to be descended, both children have been read. *)
Lemma examine_children_read (s : NearestState) tl tr cl cr dl dr h radius :
  examine_children Details_distance bvh predicate s
    = Ret (tl, tr, cl, cr, dl, dr, h, radius) ->
  tl || tr = true ->
  kept_distance cl dl /\ kept_distance cr dr.
Proof.
  unfold examine_children.
  destruct (SFltb (st_distance_node s) (st_radius s)).
  2:{ intros [= <- <- <- <- <- <- <- <-]. discriminate. }
  destruct (deref bvh (st_node s)) as [node| |]; cbn [bind]; try discriminate.
  destruct (getRightChild bvh node) as [right| |]; cbn [bind];
    try discriminate.
  unfold getNodePtr.
  destruct (deref bvh (Some (left_child node))) as [nl| |] eqn:El;
    cbn [bind]; try discriminate.
  destruct (deref bvh (Some right)) as [nr| |] eqn:Er; cbn [bind];
    try discriminate.
  destruct (if SFltb (distance Details_distance predicate nl) (st_radius s)
               && isLeaf nl then _ else _) as [[h1 r1]| |];
    cbn [bind]; try discriminate.
  destruct (if SFltb (distance Details_distance predicate nr) r1
               && isLeaf nr then _ else _) as [[h2 r2]| |];
    cbn [bind]; try discriminate.
  intros [= <- <- <- <- <- <- <- <-] _.
  split; [exists nl | exists nr]; auto.
Qed.

Lemma nearest_body_agree (c h : NearestState) :
  builds_agree c h -> is_null (st_node h) = false ->
  same_outcome builds_agree
    (nearest_body Details_distance true bvh predicate c)
    (nearest_body Details_distance false bvh predicate h).
Proof.
  intros Hag Hnn. unfold nearest_body.
  rewrite (examine_children_agree _ _ Hag Hnn).
  destruct Hag as (Hn & Hs & Hh & Hr & Hd & Hk).
  destruct (examine_children Details_distance bvh predicate h)
    as [[[[[[[[tl tr] cl] cr] dl] dr] h2] r2]| |] eqn:Ex;
    cbn [bind same_outcome]; auto.
  rewrite Hs.
  destruct (negb tl && negb tr) eqn:Eneither.
  - (* a deferred node is popped *)
    destruct (st_stack h) as [|x stack]; cbn [stack_pop bind same_outcome];
      [exact I|].
    inversion Hk as [|? d ? sdist Hx Hrest]; subst.
    cbn [stack_pop bind]. destruct x as [i|]; cbn [is_null negb].
    + destruct Hx as (n & Hdn & <-). rewrite Hdn. cbn [bind same_outcome].
      unfold builds_agree.
      cbn [st_node st_stack st_heap st_radius st_distance_node
           st_stack_distance].
      repeat split; auto.
    + cbn [bind same_outcome]. unfold builds_agree.
      cbn [st_node st_stack st_heap st_radius st_distance_node
           st_stack_distance is_null].
      repeat split; auto. discriminate.
  - (* a child is descended *)
    assert (Hflags : tl || tr = true)
      by (destruct tl, tr; try reflexivity; discriminate).
    destruct (examine_children_read _ _ _ _ _ _ _ _ _ Ex Hflags) as [Kl Kr].
    set (node := if tl && (SFleb dl dr || negb tr) then cl else cr).
    destruct (tl && tr).
    + unfold stack_push.
      rewrite <- (Forall2_length Hk).
      destruct (length (st_stack h) <? STACK_SIZE)%nat;
        cbn [bind same_outcome]; [|exact I].
      unfold builds_agree.
      cbn [st_node st_stack st_heap st_radius st_distance_node
           st_stack_distance].
      repeat split; auto.
      constructor; [|exact Hk].
      destruct (pointer_eqb node cl); assumption.
    + cbn [same_outcome]. unfold builds_agree.
      cbn [st_node st_stack st_heap st_radius st_distance_node
           st_stack_distance].
      repeat split; auto.
Qed.

Lemma nearest_loop_agree (fuel : nat) (c h : NearestState) :
  builds_agree c h -> is_null (st_node h) = false ->
  same_outcome (fun c' h' => st_heap c' = st_heap h')
    (nearest_loop Details_distance true fuel bvh predicate c)
    (nearest_loop Details_distance false fuel bvh predicate h).
Proof.
  unfold nearest_loop. revert c h.
  induction fuel as [|fuel IH]; intros c h Hag Hnn; simpl; [exact I|].
  pose proof (nearest_body_agree _ _ Hag Hnn) as Hb.
  destruct (nearest_body Details_distance true bvh predicate c) as [c'| |];
    destruct (nearest_body Details_distance false bvh predicate h)
      as [h'| |]; cbn [same_outcome] in Hb; try contradiction;
    cbn [bind same_outcome]; auto.
  pose proof Hb as (Hn & _ & Hh & _).
  rewrite Hn. destruct (is_null (st_node h')) eqn:En; cbn [negb].
  - exact Hh.
  - apply IH; assumption.
Qed.

Lemma nearest_builds_equal (fuel : nat) :
  nearest Details_distance true fuel bvh predicate =
  nearest Details_distance false fuel bvh predicate.
Proof.
  unfold nearest. destruct (getK predicate <? 1); [reflexivity|].
  assert (Hinit : builds_agree (nearest_init true bvh)
                    (nearest_init false bvh)).
  { unfold builds_agree, nearest_init. cbn. repeat split; auto.
    constructor; [exact I | constructor]. }
  pose proof (nearest_loop_agree fuel _ _ Hinit eq_refl) as Hl.
  destruct (nearest_loop Details_distance true fuel bvh predicate
              (nearest_init true bvh)) as [c'| |];
    destruct (nearest_loop Details_distance false fuel bvh predicate
                (nearest_init false bvh)) as [h'| |];
    cbn [same_outcome] in Hl; try contradiction; cbn [bind]; auto.
  rewrite Hl. reflexivity.
Qed.

End Builds.

(** ** The nearest kernel on an encoded tree *)

Section NearestOnTree.
Context {BV Geometry : Type}.
Variable Details_distance : Geometry -> BV -> float.
Context {Node : Type} `{NodeTag BV Node} `{PriorityQueue}.
Variable bvh : BVH Node.
Variable predicate : @NearestPredicate Geometry.
Variable t : @tree BV.

Hypothesis Hroot : encodes bvh (bvh_root bvh) t.
Hypothesis Hinternal : tree_is_leaf t = false.
Hypothesis Hheight : (height t <= 64)%nat.
Hypothesis Hk : 1 <= getK predicate.

Lemma nearest_visit (cuda_arch : bool) (fuel : nat) (h' : heap) (r' : float) :
  visit (getK predicate) (Details_distance (getGeometry predicate)) t zero
    (empty_heap, infinity) = Ret (h', r') ->
  (internal_nodes t <= fuel)%nat ->
  nearest Details_distance cuda_arch fuel bvh predicate
  = Ret (sortHeap h', heap_size h').
Proof.
  intros Hv Hf.
  assert (Hhost : nearest Details_distance false fuel bvh predicate
                  = Ret (sortHeap h', heap_size h')).
  { unfold nearest.
    replace (getK predicate <? 1) with false by (symmetry; apply Z.ltb_ge; lia).
    destruct (nearest_simulation Details_distance bvh predicate t Hinternal
                _ Hroot zero None zero [] [] empty_heap infinity (h', r')
                ltac:(cbn [length]; lia) eq_refl Hv)
      as (n & Hn & Hs).
    unfold nearest_loop, nearest_init, getRoot.
    change (fun s : NearestState => negb (is_null (st_node s)))
      with nearest_cond.
    rewrite (do_while_finish Hs eq_refl) by lia. reflexivity. }
  destruct cuda_arch; [rewrite nearest_builds_equal|]; exact Hhost.
Qed.

End NearestOnTree.

(** ** Rope nodes under the generic accessors *)

Lemma encodes_rope_encodes {BV : Type} (bvh : BVH (LeftChildAndRope.Node BV))
  (t : @tree BV) :
  forall i next, encodes_rope bvh i t next -> encodes bvh i t.
Proof.
  induction t as [bv idx|bv l IHl r IHr]; intros i next He.
  - destruct He as (n & Hd & Hbv & _ & Hleaf & Hidx).
    exists n. auto.
  - destruct He as (n & Hd & Hbv & _ & Hleaf & j & Hl & Hr).
    exists n. split; [exact Hd|]. split; [exact Hbv|]. split; [exact Hleaf|].
    exists j. split; [|split; [eapply IHl, Hl | eapply IHr, Hr]].
    cbn [getRightChild NodeWithLeftChildAndRopeTag]. rewrite Hleaf.
    destruct l; destruct Hl as (nl & Hdl & _ & Hrope & _);
      unfold getNodePtr; rewrite Hdl; cbn [bind]; rewrite Hrope; reflexivity.
Qed.

(** ** Finite distances *)

Section Finite.
Context {BV : Type}.
Variable dist : BV -> float.
Import FloatOrder.

Lemma monotone_finite (t : @tree BV) :
  monotone dist t = true -> finite_leaves dist t ->
  SFltb (dist (tree_bv t)) infinity = true /\ finite_below dist t = true.
Proof.
  unfold finite_leaves.
  induction t as [bv i|bv l IHl r IHr]; intros Hm Hf.
  - unfold leaf_pairs in Hf. simpl in Hf. inversion Hf; subst. auto.
  - apply monotone_children in Hm as (Hl & Hr & Ml & Mr).
    rewrite leaf_pairs_Internal in Hf. apply Forall_app in Hf as [Fl Fr].
    destruct (IHl Ml Fl) as [Dl Bl]. destruct (IHr Mr Fr) as [Dr Br].
    split.
    + cbn [tree_bv]. eapply leb_ltb_trans; eassumption.
    + simpl. rewrite Dl, Dr, Bl, Br. reflexivity.
Qed.

End Finite.

Lemma leaf_pairs_length {BV : Type} (dist : BV -> float) (t : @tree BV) :
  length (leaf_pairs dist t) = length (leaves t).
Proof. unfold leaf_pairs. apply length_map. Qed.

Lemma visit_nearest_bound {BV : Type} `{PriorityQueue} (k : Z)
  (dist : BV -> float) (t : @tree BV) :
  1 <= k -> tree_is_leaf t = false ->
  exists h' r',
    visit k dist t zero (empty_heap, infinity) = Ret (h', r') /\
    heap_inv k h' r' /\
    exists rejected, Permutation (leaf_pairs dist t) (rejected ++ data h').
Proof.
  intros Hk Hi.
  destruct (visit_selection k dist (fun _ _ _ => True) (fun _ => True) Hk)
    with (t := t) (d := zero) (done := @nil PairIndexDistance)
         (h := empty_heap) (radius := infinity)
    as (h' & r' & E & (Hinv & rej & Hp & _) & _); auto.
  - intros. rewrite Forall_forall. auto.
  - destruct t; auto.
  - apply selection_init, Hk.
  - discriminate.
  - exists h', r'. split; [exact E|]. split; [exact Hinv|].
    exists rej. rewrite app_nil_r in Hp. exact Hp.
Qed.

(** ** The offsets of the scratch views *)

Section Offsets.

Local Abbreviation total := (fold_right Z.add 0).

Lemma int_wrap_small (z : Z) : 0 <= z <= INT_MAX -> int_wrap z = z.
Proof.
  unfold int_wrap, INT_MAX. intros Hz.
  rewrite Z.mod_small by lia. lia.
Qed.

Lemma sum_nonneg (ks : list Z) : Forall (fun k => 0 <= k) ks -> 0 <= total ks.
Proof. induction 1; simpl; lia. Qed.

Lemma sum_firstn_le (ks : list Z) (i : nat) :
  Forall (fun k => 0 <= k) ks -> 0 <= total (firstn i ks) <= total ks.
Proof.
  intros Hk. revert i. induction Hk as [|k ks Hk0 Hk IH]; intros i.
  - rewrite firstn_nil. simpl. lia.
  - destruct i as [|i]; simpl.
    + pose proof (sum_nonneg ks Hk). lia.
    + specialize (IH i). lia.
Qed.

Lemma sum_firstn_mono (ks : list Z) (i j : nat) :
  Forall (fun k => 0 <= k) ks -> (i <= j)%nat ->
  total (firstn i ks) <= total (firstn j ks).
Proof.
  intros Hk. revert i j. induction Hk as [|k ks Hk0 Hk IH]; intros i j Hij.
  - rewrite !firstn_nil. lia.
  - destruct i as [|i], j as [|j]; simpl; try lia.
    + pose proof (sum_firstn_le ks j Hk). lia.
    + specialize (IH i j). lia.
Qed.

Lemma sum_firstn_succ (ks : list Z) (i : nat) (k : Z) :
  nth_error ks i = Some k ->
  total (firstn (S i) ks) = total (firstn i ks) + k.
Proof.
  revert i. induction ks as [|k0 ks IH]; intros [|i]; simpl; try discriminate.
  - intros [= ->]. lia.
  - intros E. specialize (IH i E). simpl in IH. lia.
Qed.

(** Without overflow, entry [i] of the scan is the sum of the [k] before
    it, whatever the last entry held. *)
Lemma exclusivePrefixSum_from_nth (ks : list Z) :
  forall (acc u : Z) (i : nat),
    Forall (fun k => 0 <= k) ks -> 0 <= acc -> acc + total ks <= INT_MAX ->
    (i <= length ks)%nat ->
    nth_error (exclusivePrefixSum_from acc (ks ++ [u])) i
    = Some (acc + total (firstn i ks)).
Proof.
  induction ks as [|k ks IH]; intros acc u i Hk Ha Hs Hi.
  - destruct i; [|simpl in Hi; lia]. simpl. f_equal. lia.
  - inversion Hk as [|? ? Hk0 Hk']; subst. simpl in Hs.
    pose proof (sum_nonneg ks Hk').
    destruct i as [|i]; [simpl; f_equal; lia|].
    cbn [app exclusivePrefixSum_from nth_error firstn fold_right].
    rewrite int_wrap_small by lia.
    rewrite IH by (simpl in Hi; auto; lia). f_equal. lia.
Qed.

Lemma last_cons {A : Type} (rest : list A) :
  forall y d, last (y :: rest) d = last rest y.
Proof.
  induction rest as [|z rest IH]; intros y d; [reflexivity|].
  change (last (y :: z :: rest) d) with (last (z :: rest) d).
  rewrite !IH. reflexivity.
Qed.

Lemma lastElement_exclusivePrefixSum_from (ks : list Z) :
  forall (acc u : Z),
    Forall (fun k => 0 <= k) ks -> 0 <= acc -> acc + total ks <= INT_MAX ->
    lastElement (exclusivePrefixSum_from acc (ks ++ [u]))
    = Ret (acc + total ks).
Proof.
  induction ks as [|k ks IH]; intros acc u Hk Ha Hs.
  - simpl. f_equal. lia.
  - inversion Hk as [|? ? Hk0 Hk']; subst. simpl in Hs.
    pose proof (sum_nonneg ks Hk').
    specialize (IH (int_wrap (acc + k)) u Hk').
    rewrite int_wrap_small in IH by lia.
    specialize (IH ltac:(lia) ltac:(lia)).
    cbn [app exclusivePrefixSum_from fold_right lastElement].
    rewrite int_wrap_small by lia.
    destruct (exclusivePrefixSum_from (acc + k) (ks ++ [u])) as [|y rest];
      [discriminate|].
    cbn [lastElement] in IH. injection IH as IH.
    rewrite last_cons, IH. f_equal. lia.
Qed.

End Offsets.

Section Provision.
Context {Geometry : Type}.
Variable uninitialized : Z.
Variable predicates : list (@NearestPredicate Geometry).
Hypothesis Hk : Forall (fun p => 0 <= getK p) predicates.
Hypothesis Htotal : total_k predicates <= INT_MAX.

Local Abbreviation ks := (map getK predicates).
Local Abbreviation before := (fun i => fold_right Z.add 0 (firstn i ks)).

Lemma ks_nonneg : Forall (fun k => 0 <= k) ks.
Proof. rewrite Forall_map. exact Hk. Qed.

Lemma allocateBuffer_returns :
  allocateBuffer uninitialized predicates
  = Ret (mkBufferProvider (mkBuffer 0 (total_k predicates))
           (exclusivePrefixSum (ks ++ [uninitialized]))).
Proof.
  unfold allocateBuffer, exclusivePrefixSum.
  rewrite lastElement_exclusivePrefixSum_from;
    [| exact ks_nonneg | lia | exact Htotal].
  cbn [bind]. unfold total_k.
  replace (0 + fold_right Z.add 0 ks <? 0) with false; [reflexivity|].
  symmetry. apply Z.ltb_ge. pose proof (sum_nonneg _ ks_nonneg). lia.
Qed.

Lemma provide_allocated (i : nat) (predicate : @NearestPredicate Geometry) :
  nth_error predicates i = Some predicate ->
  provide (mkBufferProvider (mkBuffer 0 (total_k predicates))
             (exclusivePrefixSum (ks ++ [uninitialized]))) (Z.of_nat i)
  = Ret (mkBuffer (before i) (before i + getK predicate)).
Proof.
  intros E.
  assert (Hi : (i < length ks)%nat).
  { rewrite length_map. apply nth_error_Some. congruence. }
  assert (Ek : nth_error ks i = Some (getK predicate))
    by (rewrite nth_error_map, E; reflexivity).
  unfold provide, view_get, exclusivePrefixSum. cbn [offset_ buffer_].
  replace (Z.of_nat i <? 0) with false by (symmetry; apply Z.ltb_ge; lia).
  replace (Z.of_nat i + 1 <? 0) with false by (symmetry; apply Z.ltb_ge; lia).
  replace (Z.to_nat (Z.of_nat i + 1)) with (S i) by lia.
  rewrite Nat2Z.id.
  rewrite !exclusivePrefixSum_from_nth
    by first [exact ks_nonneg | exact Htotal | lia].
  cbn [bind]. unfold subview. cbn [fst snd buffer_begin].
  rewrite (sum_firstn_succ _ _ _ Ek). f_equal.
Qed.

End Provision.

Lemma map_query_indices {A B : Type} (f : Z -> B) (g : A -> B) (l : list A) :
  (forall i x, nth_error l i = Some x -> f (Z.of_nat i) = g x) ->
  map f (query_indices (length l)) = map g l.
Proof.
  unfold query_indices. intros Hfg.
  assert (Hgen : forall start,
             (forall i x, nth_error l i = Some x ->
                          f (Z.of_nat (start + i)) = g x) ->
             map f (map Z.of_nat (seq start (length l))) = map g l).
  { clear Hfg. induction l as [|x l IH]; intros start Hfg; [reflexivity|].
    cbn [length seq map]. f_equal.
    - rewrite <- (Hfg 0%nat x eq_refl). f_equal. lia.
    - apply IH. intros i y E. rewrite <- (Hfg (S i) y E). f_equal. lia. }
  apply Hgen. exact Hfg.
Qed.

(** Whatever the [k_i], an allocated provider has an offset on each side of
    every query. *)
Lemma exclusivePrefixSum_from_length (view : list Z) :
  forall acc, length (exclusivePrefixSum_from acc view) = length view.
Proof.
  induction view as [|x view IH]; intros acc; [reflexivity|].
  simpl. rewrite IH. reflexivity.
Qed.

Lemma view_get_returns {A : Type} (view : list A) (i : nat) :
  (i < length view)%nat -> exists x, view_get view (Z.of_nat i) = Ret x.
Proof.
  intros Hi. unfold view_get.
  replace (Z.of_nat i <? 0) with false by (symmetry; apply Z.ltb_ge; lia).
  rewrite Nat2Z.id.
  destruct (nth_error view i) as [x|] eqn:E; [exists x; reflexivity|].
  apply nth_error_None in E. lia.
Qed.

Lemma provide_returns {Geometry : Type} (uninitialized : Z)
  (predicates : list (@NearestPredicate Geometry))
  (provider : BufferProvider) (i : nat) :
  allocateBuffer uninitialized predicates = Ret provider ->
  (i < length predicates)%nat ->
  exists buffer, provide provider (Z.of_nat i) = Ret buffer.
Proof.
  unfold allocateBuffer.
  destruct (lastElement _) as [size_| |]; cbn [bind]; try discriminate.
  destruct (size_ <? 0); [discriminate|]. intros [= <-] Hi.
  unfold provide. cbn [offset_ buffer_].
  assert (Hlen : length (exclusivePrefixSum
                           (map getK predicates ++ [uninitialized]))
                 = S (length predicates)).
  { unfold exclusivePrefixSum.
    rewrite exclusivePrefixSum_from_length, length_app, length_map.
    cbn [length]. lia. }
  destruct (view_get_returns
              (exclusivePrefixSum (map getK predicates ++ [uninitialized])) i)
    as [first Hfirst]; [lia|].
  destruct (view_get_returns
              (exclusivePrefixSum (map getK predicates ++ [uninitialized]))
              (S i)) as [second Hsecond]; [lia|].
  replace (Z.of_nat i + 1) with (Z.of_nat (S i)) by lia.
  rewrite Hfirst, Hsecond. cbn [bind]. eexists. reflexivity.
Qed.

(** The count that the kernel returns is at most [k]. *)
Lemma nearest_count_at_most_k {BV Geometry Node : Type}
  (Details_distance : Geometry -> BV -> float)
  `{NodeTag BV Node} `{PriorityQueue} (cuda_arch : bool) (fuel : nat)
  (bvh : BVH Node) (predicate : @NearestPredicate Geometry)
  (out : list PairIndexDistance) (n : Z) :
  nearest Details_distance cuda_arch fuel bvh predicate = Ret (out, n) ->
  0 <= n <= Z.max 0 (getK predicate).
Proof.
  unfold nearest. destruct (getK predicate <? 1) eqn:Ek.
  - intros [= <- <-]. lia.
  - apply Z.ltb_ge in Ek.
    destruct (nearest_loop Details_distance cuda_arch fuel bvh predicate
                (nearest_init cuda_arch bvh)) as [s| |] eqn:E; cbn [bind];
      try discriminate.
    intros [= <- <-].
    pose proof (nearest_loop_inv Details_distance bvh predicate cuda_arch
                  fuel (nearest_init cuda_arch bvh) s Ek
                  (heap_inv_init _ Ek) E) as Hinv.
    apply heap_inv_size in Hinv. unfold heap_size in *. lia.
Qed.

(** * Properties of the traversal *)

(** C1.  Spatial contract.  On a tree whose volumes are nested and a
    predicate that respects the nesting (it holds of a parent's volume when
    it holds of a child's), each spatial kernel (the stack kernel over
    two-child nodes, the rope kernel over rope nodes whose root is node 0,
    and the one-leaf kernel over a single leaf of index 0) returns once run
    with enough fuel, and its callbacks are, up to order, the leaf indices of
    exactly the leaves whose bounding volume satisfies the predicate, each
    once.  The kernels test a node only after its ancestors: a predicate that
    does not respect the nesting loses leaves. *)
Theorem spatial_kernels_emit_hits {BV : Type} (predicate : BV -> bool)
  (t : @tree BV) :
  hereditary predicate t = true ->
  (forall (bvh : BVH (TwoChildren.Node BV)) (fuel : nat),
      encodes bvh (bvh_root bvh) t ->
      tree_is_leaf t = false ->
      (height t <= 64)%nat ->
      (internal_nodes t <= fuel)%nat ->
      exists out,
        spatial_stack fuel bvh predicate = Ret out /\
        Permutation out (hits predicate t)) /\
  (forall (bvh : BVH (LeftChildAndRope.Node BV)) (fuel : nat),
      encodes_rope bvh 0 t ROPE_SENTINEL ->
      (all_nodes t <= fuel)%nat ->
      exists out,
        spatial_rope fuel bvh predicate = Ret out /\
        Permutation out (hits predicate t)) /\
  (forall (Node : Type) (tag : NodeTag BV Node) (bvh : BVH Node),
      encodes bvh (bvh_root bvh) t ->
      tree_is_leaf t = true ->
      tree_index t = 0 ->
      exists out,
        spatial_one_leaf bvh predicate = Ret out /\
        Permutation out (hits predicate t)).
Proof.
  intros Hh. split; [|split].
  - intros bvh fuel He Hi Hd Hf.
    apply spatial_stack_hits; assumption.
  - intros bvh fuel He Hf. exists (hits predicate t). split; [|reflexivity].
    unfold spatial_rope. apply spatial_rope_from_hits; assumption.
  - intros Node tag bvh He Hl Hi.
    destruct t as [bv i|]; [|discriminate]. cbn [tree_index] in Hi. subst i.
    exists (hits predicate (Leaf bv 0)). split; [|reflexivity].
    apply spatial_one_leaf_hits, He.
Qed.

(** C2.  Nearest correctness.  On an encoded tree of at least two leaves
    whose distances are monotone from parent to child and less than
    [+infinity] at the leaves, a query with [k >= 1] returns (with enough
    fuel, in either build), and its callbacks are a selection of the [k]
    nearest leaves: they
    are leaves of the tree, each leaf at most once, [min(k, N)] of them, and
    no leaf left out is nearer than an emitted leaf.  The callbacks are a
    function of the input: which of several leaves at the cut-off distance is
    emitted is fixed by the order of the insertions.  On a single leaf of
    index 0 the one-leaf kernel emits that leaf with its distance. *)
Theorem nearest_emits_k_nearest {BV Geometry Node : Type}
  (Details_distance : Geometry -> BV -> float)
  (tag : NodeTag BV Node) (queue : PriorityQueue) (cuda_arch : bool)
  (fuel : nat) (bvh : BVH Node) (predicate : @NearestPredicate Geometry)
  (t : @tree BV) :
  let k := getK predicate in
  let dist := Details_distance (getGeometry predicate) in
  encodes bvh (bvh_root bvh) t ->
  1 <= k ->
  (tree_is_leaf t = false ->
   (height t <= 64)%nat ->
   (internal_nodes t <= fuel)%nat ->
   monotone dist t = true ->
   finite_leaves dist t ->
   exists out n rest,
     nearest Details_distance cuda_arch fuel bvh predicate = Ret (out, n) /\
     Permutation (leaf_pairs dist t) (out ++ rest) /\
     (forall p q, In p out -> In q rest -> SFleb (snd p) (snd q) = true) /\
     Z.of_nat (length out) = Z.min k (Z.of_nat (length (leaves t))) /\
     n = Z.of_nat (length out)) /\
  (tree_is_leaf t = true ->
   tree_index t = 0 ->
   nearest_one_leaf Details_distance bvh predicate
   = Ret (leaf_pairs dist t, 1)).
Proof.
  intros k dist He Hk. split.
  - intros Hi Hh Hf Hm Hfin.
    destruct (visit_nearest_selection k dist Hk t Hi Hm)
      as (h' & r' & Hv & Hinv & rej & Hp & Hrej).
    destruct (monotone_finite dist t Hm Hfin) as [_ Hbelow].
    destruct (visit_nearest_count k dist Hk t Hi Hbelow)
      as (h2 & r2 & Hv2 & _ & rej2 & Hp2 & Hrej2).
    rewrite Hv in Hv2. injection Hv2 as <- <-.
    pose proof (sortHeap_Permutation h') as Hsort.
    exists (sortHeap h'), (heap_size h'), rej.
    split; [eapply nearest_visit; eassumption|].
    split; [rewrite Hsort, Hp; apply Permutation_app_comm|].
    split; [|split].
    + intros p q Hp' Hq.
      apply (Permutation_in _ Hsort) in Hp'.
      destruct Hinv as [Hle _]. rewrite Forall_forall in Hle, Hrej.
      eapply FloatOrder.leb_trans; [apply Hle, Hp'|].
      apply FloatOrder.not_ltb_leb; [| |apply Hrej, Hq].
      * unfold finite_leaves in Hfin. rewrite Forall_forall in Hfin.
        eapply FloatOrder.ltb_nonnan_l, Hfin.
        apply (Permutation_in _ (Permutation_sym Hp)).
        apply in_or_app. left. exact Hq.
      * eapply FloatOrder.leb_nonnan_r, Hle, Hp'.
    + rewrite (Permutation_length Hsort).
      pose proof (Permutation_length Hp2) as Hlen.
      rewrite leaf_pairs_length, length_app in Hlen.
      pose proof (heap_inv_size k _ _ Hinv) as Hsize. unfold heap_size in Hsize.
      destruct rej2 as [|x rej2].
      * simpl in Hlen. lia.
      * inversion Hrej2 as [|? ? Hx _]; subst.
        unfold rejected_when_full, heap_size in Hx. simpl in Hlen. lia.
    + unfold heap_size. rewrite (Permutation_length Hsort). reflexivity.
  - intros Hl Hi. destruct t as [bv i|]; [|discriminate].
    cbn [tree_index] in Hi. subst i.
    destruct He as (n & Hd & Hbv & _).
    unfold nearest_one_leaf, getRoot.
    replace (getK predicate <? 1) with false
      by (symmetry; apply Z.ltb_ge; exact Hk).
    rewrite Hd. cbn [bind]. unfold distance. rewrite Hbv. reflexivity.
Qed.

(** C3.  Nearest cardinality.  On an encoded tree of [N >= 2]
    leaves a query with [k >= 1] returns (with enough fuel, in either build)
    with at most [min(k, N)] callbacks, whatever the distances, and with
    exactly [min(k, N)] when every node below the root is at a distance less
    than [+infinity]; the returned count is the number of callbacks.  On a
    single leaf the one-leaf kernel emits exactly one callback,
    [min(k, 1)]. *)
Theorem nearest_emits_min_k_N {BV Geometry Node : Type}
  (Details_distance : Geometry -> BV -> float)
  (tag : NodeTag BV Node) (queue : PriorityQueue) (cuda_arch : bool)
  (fuel : nat) (bvh : BVH Node) (predicate : @NearestPredicate Geometry)
  (t : @tree BV) :
  let k := getK predicate in
  let dist := Details_distance (getGeometry predicate) in
  let N := Z.of_nat (length (leaves t)) in
  encodes bvh (bvh_root bvh) t ->
  1 <= k ->
  (tree_is_leaf t = false ->
   (height t <= 64)%nat ->
   (internal_nodes t <= fuel)%nat ->
   exists out n,
     nearest Details_distance cuda_arch fuel bvh predicate = Ret (out, n) /\
     n = Z.of_nat (length out) /\
     Z.of_nat (length out) <= Z.min k N /\
     (finite_below dist t = true -> Z.of_nat (length out) = Z.min k N)) /\
  (tree_is_leaf t = true ->
   exists p,
     nearest_one_leaf Details_distance bvh predicate = Ret ([p], 1) /\
     Z.of_nat (length [p]) = Z.min k N).
Proof.
  intros k dist N He Hk. split.
  - intros Hi Hh Hf.
    destruct (visit_nearest_bound k dist t Hk Hi)
      as (h' & r' & Hv & Hinv & rej & Hp).
    pose proof (sortHeap_Permutation h') as Hsort.
    pose proof (heap_inv_size k _ _ Hinv) as Hsize. unfold heap_size in Hsize.
    exists (sortHeap h'), (heap_size h').
    split; [eapply nearest_visit; eassumption|].
    rewrite (Permutation_length Hsort).
    split; [reflexivity|]. split.
    + apply Permutation_length in Hp.
      rewrite leaf_pairs_length, length_app in Hp. unfold N. lia.
    + intros Hfin.
      destruct (visit_nearest_count k dist Hk t Hi Hfin)
        as (h2 & r2 & Hv2 & _ & rej2 & Hp2 & Hrej2).
      rewrite Hv in Hv2. injection Hv2 as <- <-.
      apply Permutation_length in Hp2.
      rewrite leaf_pairs_length, length_app in Hp2. unfold N.
      destruct rej2 as [|x rej2].
      * simpl in Hp2. lia.
      * inversion Hrej2 as [|? ? Hx _]; subst.
        unfold rejected_when_full, heap_size in Hx. simpl in Hp2. lia.
  - intros Hl. destruct t as [bv i|]; [|discriminate].
    destruct He as (n & Hd & _).
    exists (0, distance Details_distance predicate n). split.
    + unfold nearest_one_leaf, getRoot.
      replace (getK predicate <? 1) with false
        by (symmetry; apply Z.ltb_ge; exact Hk).
      rewrite Hd. reflexivity.
    + unfold N. simpl. lia.
Qed.

(** C4.  Output order.  Whenever the nearest kernel returns, on any BVH and
    in either build, its callbacks are the heap's entries as [sortHeap]
    leaves them, and their distances are nondecreasing; and on an encoded
    tree it does return once the fuel covers the internal nodes. *)
Theorem nearest_callbacks_are_sorted {BV Geometry Node : Type}
  (Details_distance : Geometry -> BV -> float)
  (tag : NodeTag BV Node) (queue : PriorityQueue) (cuda_arch : bool)
  (fuel : nat) (bvh : BVH Node) (predicate : @NearestPredicate Geometry) :
  (forall out n,
     nearest Details_distance cuda_arch fuel bvh predicate = Ret (out, n) ->
     StronglySorted (fun a b => SFleb (snd a) (snd b) = true) out /\
     (1 <= getK predicate ->
      exists s,
        nearest_loop Details_distance cuda_arch fuel bvh predicate
          (nearest_init cuda_arch bvh) = Ret s /\
        out = sortHeap (st_heap s) /\
        Permutation out (data (st_heap s)))) /\
  (forall t : @tree BV,
     encodes bvh (bvh_root bvh) t ->
     tree_is_leaf t = false ->
     (height t <= 64)%nat ->
     (internal_nodes t <= fuel)%nat ->
     exists out n,
       nearest Details_distance cuda_arch fuel bvh predicate = Ret (out, n)).
Proof.
  split.
  - intros out n. unfold nearest.
    destruct (getK predicate <? 1) eqn:Ek.
    + intros [= <- <-]. split; [constructor|].
      apply Z.ltb_lt in Ek. intros Hk. lia.
    + apply Z.ltb_ge in Ek.
      destruct (nearest_loop Details_distance cuda_arch fuel bvh predicate
                  (nearest_init cuda_arch bvh)) as [s| |] eqn:El;
        cbn [bind]; try discriminate.
      intros [= <- <-].
      assert (Hinv : heap_inv (getK predicate) (st_heap s) (st_radius s)).
      { eapply nearest_loop_inv; [exact Ek | | exact El].
        apply heap_inv_init, Ek. }
      pose proof (heap_inv_comparable _ _ _ Hinv) as Hc.
      split.
      * pose proof (sortHeap_Sorted (st_heap s) Hc) as Hs.
        assert (Hc' : comparable (sortHeap (st_heap s))).
        { unfold comparable. rewrite sortHeap_Permutation. exact Hc. }
        clear -Hs Hc'. induction Hs as [|a l Hs IH Ha]; [constructor|].
        inversion Hc' as [|? ? Hna Hnl]; subst.
        constructor; [apply IH, Hnl|].
        unfold comparable in Hnl. rewrite Forall_forall in Ha, Hnl |- *.
        intros b Hb. apply FloatOrder.not_ltb_leb; auto.
        apply (Ha b Hb).
      * intros _. exists s. split; [reflexivity|]. split; [reflexivity|].
        apply sortHeap_Permutation.
  - intros t He Hi Hh Hf.
    destruct (Z.ltb_spec (getK predicate) 1) as [Hlt|Hk].
    + exists [], 0. unfold nearest.
      replace (getK predicate <? 1) with true
        by (symmetry; apply Z.ltb_lt, Hlt). reflexivity.
    + destruct (visit_returns (getK predicate)
                  (Details_distance (getGeometry predicate)) Hk t zero
                  empty_heap infinity Hi (heap_inv_init _ Hk))
        as (h' & r' & Hv & _).
      exists (sortHeap h'), (heap_size h').
      eapply nearest_visit; eassumption.
Qed.

(** C5.  Encoding equivalence.  For one logical tree of at least
    two leaves encoded with two-child nodes and with rope nodes (root at node
    0): on a predicate that holds of the root's volume when it holds of the
    volume of a child of the root, both spatial kernels return and emit the
    same callbacks up to order; on every nearest predicate
    both nearest kernels return the same callbacks in the same order and the
    same count; and in the rope encoding the right child that
    [getRightChild] returns for an internal node is the rope of its left
    child. *)
Theorem encodings_are_equivalent {BV : Type}
  (two : BVH (TwoChildren.Node BV)) (ropes : BVH (LeftChildAndRope.Node BV))
  (t : @tree BV) :
  encodes two (bvh_root two) t ->
  encodes_rope ropes 0 t ROPE_SENTINEL ->
  bvh_root ropes = 0 ->
  tree_is_leaf t = false ->
  (height t <= 64)%nat ->
  (forall (predicate : BV -> bool) (fuel : nat),
     root_respected predicate t = true ->
     (all_nodes t <= fuel)%nat ->
     exists out_two out_ropes,
       spatial_stack fuel two predicate = Ret out_two /\
       spatial_rope fuel ropes predicate = Ret out_ropes /\
       Permutation out_two out_ropes) /\
  (forall (Geometry : Type) (Details_distance : Geometry -> BV -> float)
          (queue : PriorityQueue) (predicate : @NearestPredicate Geometry)
          (cuda_arch : bool) (fuel : nat),
     (internal_nodes t <= fuel)%nat ->
     exists out n,
       nearest Details_distance cuda_arch fuel two predicate = Ret (out, n) /\
       nearest Details_distance cuda_arch fuel ropes predicate
       = Ret (out, n)) /\
  (forall i bv l r next,
     encodes_rope ropes i (Internal bv l r) next ->
     exists n nl,
       deref ropes (Some i) = Ret n /\
       deref ropes (Some (LeftChildAndRope.left_child n)) = Ret nl /\
       getRightChild ropes n = Ret (LeftChildAndRope.rope nl) /\
       encodes_rope ropes (LeftChildAndRope.rope nl) r next).
Proof.
  intros Htwo Hropes Hroot Hi Hh. split; [|split].
  - intros predicate fuel Hp Hf.
    assert (Hn : (internal_nodes t <= all_nodes t)%nat).
    { clear. induction t; simpl; lia. }
    exists (stack_trace predicate t), (rope_trace predicate t).
    split; [apply spatial_stack_trace; auto; lia|].
    split; [unfold spatial_rope; apply spatial_rope_from_trace; assumption|].
    apply stack_trace_rope_root; assumption.
  - intros Geometry Details_distance queue predicate cuda_arch fuel Hf.
    assert (Hropes' : encodes ropes (bvh_root ropes) t)
      by (rewrite Hroot; eapply encodes_rope_encodes, Hropes).
    destruct (Z.ltb_spec (getK predicate) 1) as [Hlt|Hk].
    + exists [], 0. unfold nearest.
      replace (getK predicate <? 1) with true
        by (symmetry; apply Z.ltb_lt, Hlt). split; reflexivity.
    + destruct (visit_returns (getK predicate)
                  (Details_distance (getGeometry predicate)) Hk t zero
                  empty_heap infinity Hi (heap_inv_init _ Hk))
        as (h' & r' & Hv & _).
      exists (sortHeap h'), (heap_size h').
      split; eapply nearest_visit; eassumption.
  - intros i bv l r next (n & Hd & _ & _ & Hleaf & j & Hl & Hr).
    assert (Hnl : exists nl,
               deref ropes (Some (LeftChildAndRope.left_child n)) = Ret nl /\
               LeftChildAndRope.rope nl = j).
    { destruct l; destruct Hl as (nl & Hdl & _ & Hrope & _); exists nl; auto. }
    destruct Hnl as (nl & Hdl & Hrope).
    exists n, nl. split; [exact Hd|]. split; [exact Hdl|].
    rewrite Hrope. split; [|exact Hr].
    cbn [getRightChild NodeWithLeftChildAndRopeTag]. rewrite Hleaf.
    unfold getNodePtr. rewrite Hdl. cbn [bind]. rewrite Hrope. reflexivity.
Qed.

(** C6.  The pruning radius.  For a query with [k >= 1], on any BVH and in
    either build: the radius is [+infinity] before the first iteration; an
    iteration started in a reachable state leaves a radius that is not
    greater than the one it found; and when it leaves a different radius,
    the heap holds [k] entries and the radius is the distance of its top,
    which no entry of the heap exceeds. *)
Theorem radius_only_tightens {BV Geometry Node : Type}
  (Details_distance : Geometry -> BV -> float)
  (tag : NodeTag BV Node) (queue : PriorityQueue) (cuda_arch : bool)
  (bvh : BVH Node) (predicate : @NearestPredicate Geometry) :
  1 <= getK predicate ->
  st_radius (nearest_init cuda_arch bvh) = infinity /\
  forall s s' : NearestState,
    reachable Details_distance bvh predicate cuda_arch s ->
    nearest_body Details_distance cuda_arch bvh predicate s = Ret s' ->
    SFleb (st_radius s') (st_radius s) = true /\
    (st_radius s' <> st_radius s ->
     heap_size (st_heap s') = getK predicate /\
     exists p,
       top (st_heap s') = Some p /\ st_radius s' = snd p /\
       Forall (fun q => SFleb (snd q) (snd p) = true) (data (st_heap s'))).
Proof.
  intros Hk. split; [reflexivity|].
  intros s s' Hreach Hbody.
  pose proof (reachable_inv _ _ _ _ _ Hk Hreach) as Hinv.
  destruct (nearest_body_inv _ _ _ _ _ _ Hk Hinv Hbody)
    as (Hinv' & Hle & Hstep).
  split; [exact Hle|].
  intros Hne. destruct Hstep as [Heq|Hfull]; [contradiction|].
  exact Hfull.
Qed.

(** C7.  The right child is tested against the radius left by the left
    child.  In an iteration that examines the children, with [(h1, radius1)]
    the heap and radius after the left child's guarded insertion, the block
    is the right child's guarded insertion run on [(h1, radius1)], its test
    being [distance_right < radius1], followed by the two descent flags; so a
    right child that is a leaf no nearer than [radius1] leaves the heap and
    the radius as the left child left them, however it compares with the
    radius at the start of the iteration. *)
Theorem right_child_reads_tightened_radius {BV Geometry Node : Type}
  (Details_distance : Geometry -> BV -> float)
  (tag : NodeTag BV Node) (queue : PriorityQueue) (cuda_arch : bool)
  (bvh : BVH Node) (predicate : @NearestPredicate Geometry)
  (s : NearestState) (node nl nr : Node) (right : Z)
  (h1 : heap) (radius1 : float) :
  let k := getK predicate in
  let distance_left := distance Details_distance predicate nl in
  let distance_right := distance Details_distance predicate nr in
  SFltb (st_distance_node s) (st_radius s) = true ->
  deref bvh (st_node s) = Ret node ->
  getRightChild bvh node = Ret right ->
  deref bvh (getNodePtr bvh (left_child node)) = Ret nl ->
  deref bvh (getNodePtr bvh right) = Ret nr ->
  (if SFltb distance_left (st_radius s) && isLeaf nl
   then insert_leaf_pair k (getLeafPermutationIndex nl, distance_left)
          (st_heap s) (st_radius s)
   else Ret (st_heap s, st_radius s)) = Ret (h1, radius1) ->
  examine_children Details_distance bvh predicate s =
    ('(h2, radius2) <-
       (if SFltb distance_right radius1 && isLeaf nr
        then insert_leaf_pair k (getLeafPermutationIndex nr, distance_right)
               h1 radius1
        else Ret (h1, radius1));;
     Ret (SFltb distance_left radius2 && negb (isLeaf nl),
          SFltb distance_right radius2 && negb (isLeaf nr),
          getNodePtr bvh (left_child node), getNodePtr bvh right,
          distance_left, distance_right, h2, radius2)) /\
  (isLeaf nr = true -> SFltb distance_right radius1 = false ->
   forall s',
     nearest_body Details_distance cuda_arch bvh predicate s = Ret s' ->
     st_heap s' = h1 /\ st_radius s' = radius1).
Proof.
  intros k distance_left distance_right Hd Hnode Hright Hnl Hnr Hleft.
  assert (Hex : examine_children Details_distance bvh predicate s =
    ('(h2, radius2) <-
       (if SFltb distance_right radius1 && isLeaf nr
        then insert_leaf_pair k (getLeafPermutationIndex nr, distance_right)
               h1 radius1
        else Ret (h1, radius1));;
     Ret (SFltb distance_left radius2 && negb (isLeaf nl),
          SFltb distance_right radius2 && negb (isLeaf nr),
          getNodePtr bvh (left_child node), getNodePtr bvh right,
          distance_left, distance_right, h2, radius2))).
  { unfold examine_children. rewrite Hd, Hnode. cbn [bind].
    rewrite Hright. cbn [bind]. rewrite Hnl, Hnr. cbn [bind].
    fold k distance_left distance_right. rewrite Hleft. reflexivity. }
  split; [exact Hex|].
  intros Hleaf Hfar s' Hbody.
  destruct (nearest_body_heap _ _ _ _ _ _ Hbody)
    as (tl & tr & cl & cr & dl & dr & Hex').
  rewrite Hex, Hfar in Hex'. cbn [andb bind] in Hex'.
  injection Hex' as _ _ _ _ _ _ <- <-. split; reflexivity.
Qed.

(** C8.  Degenerate inputs and a negative [k].  An empty tree and a tree
    of one leaf answer a query with [k < 1] with no callback, and so does
    the general path for [k = 0].  But [allocateBuffer] sums the [k_i] of
    the batch as they are: with the one query [k = -1] on two leaves the
    buffer is asked -1 entries and the constructor fails before any task
    runs; with [k = 2, -1] the offsets are 0, 2, 1, the buffer has one
    entry, and the first query, whose view has two, writes its second
    result past the buffer.  The guard [if (k < 1) return 0;] of the kernel
    is not reached in the first case and does not help the first query in
    the second. *)
Theorem negative_k_breaks_the_scratch :
  let two_leaves := Scene.pair_two_children in
  let query := fun k : Z => mkNearestPredicate k 1 in
  traverse Scene.point_distance 0 false 3 Scene.no_leaves
    (NearestPredicates [query (-1)]) = Ret [] /\
  traverse Scene.point_distance 0 false 3 Scene.single_two_children
    (NearestPredicates [query (-1)]) = Ret [Ret []] /\
  traverse Scene.point_distance 0 false 3 two_leaves
    (NearestPredicates [query 2; query 0])
  = Ret [Ret [NearestHit 0 (Scene.float_of_Z 1);
              NearestHit 1 (Scene.float_of_Z 3)]; Ret []] /\
  allocateBuffer 0 [query (-1)] = Undefined /\
  traverse Scene.point_distance 0 false 3 two_leaves
    (NearestPredicates [query (-1)]) = Undefined /\
  (exists provider,
     allocateBuffer 0 [query 2; query (-1)] = Ret provider /\
     offset_ provider = [0; 2; 1] /\
     buffer_ provider = mkBuffer 0 1 /\
     provide provider 0 = Ret (mkBuffer 0 2)) /\
  traverse Scene.point_distance 0 false 3 two_leaves
    (NearestPredicates [query 2; query (-1)]) = Ret [Undefined; Ret []].
Proof.
  cbv zeta. repeat split.
  eexists. repeat split.
Qed.

(** C9.  Host and device builds.  The build that keeps the distances of the
    deferred nodes in [stack_distance] and the build that computes the
    distance again when a node is popped give the same outcome on every BVH,
    predicate and fuel: the same callbacks in the same order and the same
    count when they return, and the same failure otherwise; so do the
    dispatching constructors. *)
Theorem stack_distance_is_redundant {BV Geometry Node : Type}
  (Details_distance : Geometry -> BV -> float)
  (tag : NodeTag BV Node) (queue : PriorityQueue) (fuel : nat)
  (bvh : BVH Node) :
  (forall predicate : @NearestPredicate Geometry,
     nearest Details_distance true fuel bvh predicate =
     nearest Details_distance false fuel bvh predicate) /\
  (forall (uninitialized : Z)
          (predicates : list (@NearestPredicate Geometry)),
     TreeTraversal_nearest Details_distance uninitialized true fuel bvh
       predicates =
     TreeTraversal_nearest Details_distance uninitialized false fuel bvh
       predicates).
Proof.
  assert (Hq : forall predicate : @NearestPredicate Geometry,
             nearest Details_distance true fuel bvh predicate =
             nearest Details_distance false fuel bvh predicate)
    by (intros predicate; apply nearest_builds_equal).
  split; [exact Hq|].
  intros uninitialized predicates. unfold TreeTraversal_nearest.
  destruct (empty bvh); [reflexivity|].
  destruct (size bvh =? 1); [reflexivity|].
  destruct (allocateBuffer uninitialized predicates) as [provider| |];
    cbn [bind]; try reflexivity.
  f_equal. apply map_ext. intros queryIndex.
  unfold nearest_query.
  destruct (view_get predicates queryIndex) as [predicate| |]; cbn [bind];
    try reflexivity.
  destruct (provide provider queryIndex) as [buffer| |]; cbn [bind];
    try reflexivity.
  rewrite Hq. reflexivity.
Qed.

(** C10.  The rope kernel starts at node 0 whatever the root of the BVH is:
    it is the specified algorithm run on the same nodes with root 0.  With
    the root at node 0 it agrees with the specified algorithm and emits the
    hits; with the root elsewhere it can differ from both, as on the two-leaf
    tree stored root last, where it starts at the right leaf and misses the
    left one. *)
Theorem rope_kernel_starts_at_node_0 {BV : Type} :
  (forall (fuel : nat) (bvh : BVH (LeftChildAndRope.Node BV))
          (predicate : BV -> bool),
      spatial_rope fuel bvh predicate =
      spatial_rope_spec fuel (mkBVH (bvh_nodes bvh) (bvh_size bvh) 0)
        predicate) /\
  (forall (fuel : nat) (bvh : BVH (LeftChildAndRope.Node BV))
          (predicate : BV -> bool) (t : @tree BV),
      bvh_root bvh = 0 ->
      encodes_rope bvh (bvh_root bvh) t ROPE_SENTINEL ->
      tree_is_leaf t = false ->
      hereditary predicate t = true ->
      (all_nodes t <= fuel)%nat ->
      spatial_rope fuel bvh predicate = spatial_rope_spec fuel bvh predicate /\
      spatial_rope fuel bvh predicate = Ret (hits predicate t)) /\
  (let bvh := Scene.pair_rope_root_last in
   let predicate := Scene.overlaps 0 4 in
   bvh_root bvh <> 0 /\
   encodes_rope bvh (bvh_root bvh) Scene.pair_tree ROPE_SENTINEL /\
   hereditary predicate Scene.pair_tree = true /\
   spatial_rope_spec 3 bvh predicate = Ret (hits predicate Scene.pair_tree) /\
   spatial_rope 3 bvh predicate = Ret [1] /\
   hits predicate Scene.pair_tree = [0; 1]).
Proof.
  split; [|split].
  - (* the loop reads the nodes only, never the root *)
    intros fuel bvh predicate.
    unfold spatial_rope, spatial_rope_spec, spatial_rope_from.
    cbn [bvh_root].
    change (spatial_rope_body (mkBVH (bvh_nodes bvh) (bvh_size bvh) 0))
      with (spatial_rope_body bvh).
    reflexivity.
  - intros fuel bvh predicate t H0 He Hi Hh Hf.
    unfold spatial_rope_spec, spatial_rope. rewrite H0 in *.
    split; [reflexivity|]. apply spatial_rope_from_hits; assumption.
  - cbv zeta. split; [discriminate|].
    split; [|repeat split].
    cbn. eexists. repeat split.
    eexists. split; [eexists; repeat split|].
    eexists. repeat split.
Qed.

(** * The properties on the scene *)

Ltac read_encoding :=
  repeat (cbn; first [ reflexivity | eexists | split ]).

(** C1 without its preconditions: a predicate that holds of a leaf's volume
    and not of its parent's loses that leaf in the kernels, which prune, and
    the rope kernel loses the leaves that precede node 0 when the root is
    stored elsewhere. *)
Lemma spatial_hits_counterexample :
  (encodes_rope Scene.pair_rope 0 Scene.pair_tree ROPE_SENTINEL /\
   spatial_rope 3 Scene.pair_rope (Scene.within 0 0) = Ret [] /\
   hits (Scene.within 0 0) Scene.pair_tree = [0] /\
   ~ Permutation [] (hits (Scene.within 0 0) Scene.pair_tree)) /\
  (encodes Scene.scene_two_children 0 Scene.scene /\
   spatial_stack 3 Scene.scene_two_children (Scene.within 0 0) = Ret [] /\
   hits (Scene.within 0 0) Scene.scene = [2] /\
   ~ Permutation [] (hits (Scene.within 0 0) Scene.scene)) /\
  (encodes_rope Scene.pair_rope_root_last 2 Scene.pair_tree ROPE_SENTINEL /\
   bvh_root Scene.pair_rope_root_last = 2 /\
   spatial_rope 3 Scene.pair_rope_root_last (Scene.overlaps 0 4) = Ret [1] /\
   hits (Scene.overlaps 0 4) Scene.pair_tree = [0; 1] /\
   ~ Permutation [1] (hits (Scene.overlaps 0 4) Scene.pair_tree)).
Proof.
  split; [|split].
  - split; [read_encoding|]. split; [reflexivity|]. split; [reflexivity|].
    intros P. apply Permutation_nil in P. discriminate.
  - split; [read_encoding|]. split; [reflexivity|]. split; [reflexivity|].
    intros P. apply Permutation_nil in P. discriminate.
  - split; [read_encoding|]. split; [reflexivity|]. split; [reflexivity|].
    split; [reflexivity|].
    intros P. apply Permutation_length in P. discriminate.
Qed.

Lemma spatial_kernels_emit_hits_witness :
  (exists out,
     spatial_stack 3 Scene.scene_two_children (Scene.overlaps 1 6) = Ret out /\
     Permutation out (hits (Scene.overlaps 1 6) Scene.scene)) /\
  (exists out,
     spatial_rope 7 Scene.scene_rope (Scene.overlaps 1 6) = Ret out /\
     Permutation out (hits (Scene.overlaps 1 6) Scene.scene)) /\
  (exists out,
     spatial_one_leaf Scene.single_rope (Scene.overlaps 5 9) = Ret out /\
     Permutation out (hits (Scene.overlaps 5 9) (Leaf (7, 7) 0))).
Proof.
  destruct (spatial_kernels_emit_hits (Scene.overlaps 1 6) Scene.scene eq_refl)
    as (Hstack & Hrope & _).
  destruct (spatial_kernels_emit_hits (Scene.overlaps 5 9) (Leaf (7, 7) 0)
              eq_refl) as (_ & _ & Hleaf).
  split; [|split].
  - apply Hstack; [read_encoding | reflexivity | simpl; lia | simpl; lia].
  - apply Hrope; [read_encoding | simpl; lia].
  - apply (Hleaf _ _ Scene.single_rope); [read_encoding | reflexivity..].
Defined.

(** C2 without finite distances: with every volume at distance
    [+infinity], a non-negative and monotone metric, no leaf is ever nearer
    than the initial radius and nothing is emitted, although [k] exceeds the
    number of leaves. *)
Lemma nearest_selection_counterexample :
  let predicate := mkNearestPredicate 3 1 in
  let dist := Scene.far_distance (getGeometry predicate) in
  encodes Scene.pair_two_children (bvh_root Scene.pair_two_children)
    Scene.pair_tree /\
  monotone dist Scene.pair_tree = true /\
  Forall (fun q => SFleb zero (snd q) = true)
    (leaf_pairs dist Scene.pair_tree) /\
  nearest Scene.far_distance false 1 Scene.pair_two_children predicate
  = Ret ([], 0) /\
  leaf_pairs dist Scene.pair_tree = [(0, infinity); (1, infinity)] /\
  ~ Permutation [] (leaf_pairs dist Scene.pair_tree).
Proof.
  cbv zeta. split; [read_encoding|]. split; [reflexivity|].
  split; [repeat constructor|]. split; [reflexivity|].
  split; [reflexivity|].
  intros P. apply Permutation_nil in P. discriminate.
Qed.

Lemma nearest_emits_k_nearest_witness :
  let predicate := mkNearestPredicate 2 3 in
  let dist := Scene.point_distance 3 in
  exists out n rest,
    nearest Scene.point_distance false 3 Scene.scene_two_children predicate
    = Ret (out, n) /\
    Permutation (leaf_pairs dist Scene.scene) (out ++ rest) /\
    (forall p q, In p out -> In q rest -> SFleb (snd p) (snd q) = true) /\
    Z.of_nat (length out) = Z.min 2 (Z.of_nat (length (leaves Scene.scene))) /\
    n = Z.of_nat (length out).
Proof.
  cbv zeta.
  destruct (nearest_emits_k_nearest Scene.point_distance _ list_heap false 3
              Scene.scene_two_children (mkNearestPredicate 2 3) Scene.scene)
    as (Hgeneral & _); [read_encoding | simpl; lia |].
  apply Hgeneral;
    [reflexivity | simpl; lia | simpl; lia | reflexivity | repeat constructor].
Defined.

(** C3 without finite distances: two leaves at distance [+infinity] and
    [k = 1] give no callback, where [min(k, N) = 1]. *)
Lemma nearest_cardinality_counterexample :
  let predicate := mkNearestPredicate 1 1 in
  encodes Scene.pair_two_children (bvh_root Scene.pair_two_children)
    Scene.pair_tree /\
  1 <= getK predicate /\
  exists out n,
    nearest Scene.far_distance false 1 Scene.pair_two_children predicate
    = Ret (out, n) /\
    Z.of_nat (length out)
    <> Z.min (getK predicate) (Z.of_nat (length (leaves Scene.pair_tree))).
Proof.
  cbv zeta. split; [read_encoding|]. split; [simpl; lia|].
  exists [], 0. split; [reflexivity | discriminate].
Qed.

Lemma nearest_emits_min_k_N_witness :
  exists out n,
    nearest Scene.point_distance true 3 Scene.scene_rope
      (mkNearestPredicate 10 3) = Ret (out, n) /\
    n = Z.of_nat (length out) /\
    Z.of_nat (length out) <= Z.min 10 4 /\
    (finite_below (Scene.point_distance 3) Scene.scene = true ->
     Z.of_nat (length out) = Z.min 10 4).
Proof.
  destruct (nearest_emits_min_k_N Scene.point_distance _ list_heap true 3
              Scene.scene_rope (mkNearestPredicate 10 3) Scene.scene)
    as (Hgeneral & _); [read_encoding | simpl; lia |].
  apply Hgeneral; [reflexivity | simpl; lia | simpl; lia].
Defined.

Lemma nearest_callbacks_are_sorted_witness :
  StronglySorted (fun a b => SFleb (snd a) (snd b) = true)
    [(0, Scene.float_of_Z 1); (2, Scene.float_of_Z 3)] /\
  exists out n,
    nearest Scene.point_distance false 3 Scene.scene_two_children
      (mkNearestPredicate 2 3) = Ret (out, n).
Proof.
  destruct (nearest_callbacks_are_sorted Scene.point_distance _ list_heap
              false 3 Scene.scene_two_children (mkNearestPredicate 2 3))
    as (Hsorted & Hreturns).
  split.
  - apply (Hsorted _ 2 eq_refl).
  - apply (Hreturns Scene.scene);
      [read_encoding | reflexivity | simpl; lia | simpl; lia].
Defined.

(** C5 without the root respected: a predicate that holds of the left leaf
    and not of the root is reported by the stack kernel, which never tests
    the root, and not by the rope kernel, which tests it first; and with the
    root of the rope encoding stored elsewhere than at node 0 the rope kernel
    misses the left leaf, which the stack kernel reports. *)
Lemma encodings_counterexample :
  encodes Scene.pair_two_children (bvh_root Scene.pair_two_children)
    Scene.pair_tree /\
  encodes_rope Scene.pair_rope 0 Scene.pair_tree ROPE_SENTINEL /\
  bvh_root Scene.pair_rope = 0 /\
  spatial_stack 3 Scene.pair_two_children (Scene.within 0 0) = Ret [0] /\
  spatial_rope 3 Scene.pair_rope (Scene.within 0 0) = Ret [] /\
  ~ Permutation [0] (@nil Z) /\
  encodes_rope Scene.pair_rope_root_last
    (bvh_root Scene.pair_rope_root_last) Scene.pair_tree ROPE_SENTINEL /\
  spatial_stack 3 Scene.pair_two_children (Scene.overlaps 0 4) = Ret [0; 1] /\
  spatial_rope 3 Scene.pair_rope_root_last (Scene.overlaps 0 4) = Ret [1] /\
  ~ Permutation [0; 1] [1].
Proof.
  split; [read_encoding|]. split; [read_encoding|].
  split; [reflexivity|]. split; [reflexivity|]. split; [reflexivity|].
  split.
  { intros P. apply Permutation_sym, Permutation_nil in P. discriminate. }
  split; [read_encoding|]. split; [reflexivity|]. split; [reflexivity|].
  intros P. apply Permutation_length in P. discriminate.
Qed.

Lemma encodings_are_equivalent_witness :
  (exists out_two out_ropes,
     spatial_stack 7 Scene.scene_two_children (Scene.overlaps 1 6)
     = Ret out_two /\
     spatial_rope 7 Scene.scene_rope (Scene.overlaps 1 6) = Ret out_ropes /\
     Permutation out_two out_ropes) /\
  (exists out n,
     nearest Scene.point_distance false 3 Scene.scene_two_children
       (mkNearestPredicate 2 3) = Ret (out, n) /\
     nearest Scene.point_distance false 3 Scene.scene_rope
       (mkNearestPredicate 2 3) = Ret (out, n)).
Proof.
  destruct (encodings_are_equivalent Scene.scene_two_children Scene.scene_rope
              Scene.scene)
    as (Hspatial & Hnearest & _);
    [read_encoding | read_encoding | reflexivity | reflexivity | simpl; lia |].
  split.
  - apply Hspatial; [reflexivity | simpl; lia].
  - apply (Hnearest Z Scene.point_distance list_heap). simpl; lia.
Defined.

Lemma radius_only_tightens_witness :
  let predicate := mkNearestPredicate 1 1 in
  let s := nearest_init false Scene.pair_two_children in
  exists s',
    nearest_body Scene.point_distance false Scene.pair_two_children predicate s
    = Ret s' /\
    st_radius s = infinity /\
    st_radius s' = Scene.float_of_Z 1 /\
    SFleb (st_radius s') (st_radius s) = true.
Proof.
  cbv zeta.
  destruct (radius_only_tightens Scene.point_distance _ list_heap false
              Scene.pair_two_children (mkNearestPredicate 1 1))
    as (Hinit & Hstep); [simpl; lia|].
  eexists. split; [reflexivity|]. split; [exact Hinit|].
  split; [reflexivity|].
  apply (Hstep _ _ (reachable_init _ _ _ _)). reflexivity.
Defined.

(** The right leaf, at distance 3, is nearer than the radius [+infinity] the
    iteration starts with and no nearer than the radius 1 the left leaf
    leaves: it does not enter the heap. *)
Lemma right_child_reads_tightened_radius_witness :
  let predicate := mkNearestPredicate 1 1 in
  let s := nearest_init false Scene.pair_two_children in
  SFltb (Scene.float_of_Z 3) (st_radius s) = true /\
  forall s',
    nearest_body Scene.point_distance false Scene.pair_two_children predicate s
    = Ret s' ->
    st_heap s' = [(0, Scene.float_of_Z 1)] /\
    st_radius s' = Scene.float_of_Z 1.
Proof.
  cbv zeta. split; [reflexivity|].
  refine (proj2 (right_child_reads_tightened_radius Scene.point_distance _
                   list_heap false Scene.pair_two_children
                   (mkNearestPredicate 1 1)
                   (nearest_init false Scene.pair_two_children)
                   (TwoChildren.mkNode false 1 2 0 (0, 4))
                   (TwoChildren.mkNode true 0 0 0 (0, 0))
                   (TwoChildren.mkNode true 0 0 1 (4, 4))
                   2 [(0, Scene.float_of_Z 1)] (Scene.float_of_Z 1)
                   eq_refl eq_refl eq_refl eq_refl eq_refl eq_refl)
            eq_refl eq_refl).
Defined.

Lemma rope_kernel_starts_at_node_0_witness :
  spatial_rope 7 Scene.scene_rope (Scene.overlaps 1 6)
  = spatial_rope_spec 7 Scene.scene_rope (Scene.overlaps 1 6) /\
  spatial_rope 7 Scene.scene_rope (Scene.overlaps 1 6)
  = Ret (hits (Scene.overlaps 1 6) Scene.scene).
Proof.
  destruct (@rope_kernel_starts_at_node_0 Scene.Interval) as (_ & Hroot & _).
  apply Hroot;
    [reflexivity | read_encoding | reflexivity | reflexivity | simpl; lia].
Defined.

(** ** The scenarios of the specification, on the line

    Leaf indices 2, 0, 3, 1 stand at 0, 4, 6 and 20; the query point of the
    nearest scenarios is 3. *)

Example scene_box_query :
  traverse Scene.point_distance 0 false 7 Scene.scene_rope
    (SpatialPredicates [Scene.overlaps (-1) 5; Scene.overlaps 30 40;
                        Scene.overlaps (-100) 100])
  = Ret [Ret [SpatialHit 2; SpatialHit 0]; Ret [];
         Ret [SpatialHit 2; SpatialHit 0; SpatialHit 3; SpatialHit 1]].
Proof. reflexivity. Qed.

Example scene_box_query_stack :
  traverse Scene.point_distance 0 false 7 Scene.scene_two_children
    (SpatialPredicates [Scene.overlaps (-1) 5; Scene.overlaps 30 40;
                        Scene.overlaps (-100) 100])
  = Ret [Ret [SpatialHit 2; SpatialHit 0]; Ret [];
         Ret [SpatialHit 2; SpatialHit 0; SpatialHit 3; SpatialHit 1]].
Proof. reflexivity. Qed.

Example scene_nearest_query :
  traverse Scene.point_distance 0 false 7 Scene.scene_two_children
    (NearestPredicates [mkNearestPredicate 2 3; mkNearestPredicate 10 3;
                        mkNearestPredicate 0 3])
  = Ret
      [Ret [NearestHit 0 (Scene.float_of_Z 1);
            NearestHit 2 (Scene.float_of_Z 3)];
       Ret [NearestHit 0 (Scene.float_of_Z 1);
            NearestHit 3 (Scene.float_of_Z 3);
            NearestHit 2 (Scene.float_of_Z 3);
            NearestHit 1 (Scene.float_of_Z 17)];
       Ret []].
Proof. reflexivity. Qed.

Example scene_one_leaf :
  traverse Scene.point_distance 0 true 7 Scene.single_rope
    (NearestPredicates [mkNearestPredicate 3 10; mkNearestPredicate 0 10])
  = Ret [Ret [NearestHit 0 (Scene.float_of_Z 3)]; Ret []].
Proof. reflexivity. Qed.

(** Fewer than two iterations of fuel cut the loop off; a node index out of
    range is undefined behaviour. *)
Example scene_out_of_fuel :
  spatial_stack 1 Scene.scene_two_children (Scene.overlaps (-100) 100)
  = OutOfFuel.
Proof. reflexivity. Qed.

Example scene_dangling_child :
  spatial_stack 3
    (mkBVH [TwoChildren.mkNode false 1 2 0 (0, 4);
            TwoChildren.mkNode true 0 0 0 (0, 0)] 2 0)
    (Scene.overlaps 0 4)
  = Undefined.
Proof. reflexivity. Qed.

(** * Further properties of the kernels *)

(** ** Loop invariants and failing runs *)

Section LoopFacts.
Context {S : Type}.
Variables (body : S -> result S) (cond : S -> bool).

Lemma do_while_invariant (P : S -> Prop) :
  (forall s s', P s -> body s = Ret s' -> P s') ->
  forall fuel s s', P s -> do_while body cond fuel s = Ret s' -> P s'.
Proof.
  intros Hstep. induction fuel as [|fuel IH]; intros s s' Hs; simpl;
    [discriminate|].
  destruct (body s) as [s1| |] eqn:E; cbn [bind]; try discriminate.
  pose proof (Hstep _ _ Hs E) as H1.
  destruct (cond s1); [apply IH, H1 | intros [= <-]; exact H1].
Qed.

Lemma do_while_fails (fuel : nat) (s : S) :
  body s = Undefined -> do_while body cond (1 + fuel) s = Undefined.
Proof. intros E. simpl. rewrite E. reflexivity. Qed.

Lemma do_while_seq_fails (n m : nat) (s s1 : S) :
  (forall fuel, do_while body cond (n + fuel) s = resume body cond fuel s1) ->
  cond s1 = true ->
  (forall fuel, do_while body cond (m + fuel) s1 = Undefined) ->
  forall fuel, do_while body cond ((n + m) + fuel) s = Undefined.
Proof.
  intros H1 C H2 fuel.
  rewrite <- Nat.add_assoc, H1. unfold resume. rewrite C. apply H2.
Qed.

End LoopFacts.

(** ** The spatial kernels under any predicate *)

Section AnyPredicate.
Context {BV : Type}.
Variable predicate : BV -> bool.

Lemma stack_trace_children bv (l r : @tree BV) :
  Permutation (stack_trace predicate (Internal bv l r))
    (rope_trace predicate l ++ rope_trace predicate r).
Proof.
  rewrite <- (stack_trace_rope_trace predicate l),
    <- (stack_trace_rope_trace predicate r).
  cbn [stack_trace].
  rewrite <- !app_assoc. apply Permutation_app_head.
  rewrite !app_assoc. apply Permutation_app_tail.
  apply Permutation_app_comm.
Qed.

(** The leaves reached through accepted ancestors are hits, each once. *)
Lemma rope_trace_within_hits (t : @tree BV) :
  exists missed,
    Permutation (rope_trace predicate t ++ missed) (hits predicate t).
Proof.
  induction t as [bv i|bv l [ml IHl] r [mr IHr]].
  - exists []. rewrite hits_Leaf. simpl. destruct (predicate bv); reflexivity.
  - rewrite hits_Internal. cbn [rope_trace tree_bv].
    destruct (predicate bv).
    + exists (ml ++ mr). rewrite <- IHl, <- IHr.
      rewrite <- !app_assoc. apply Permutation_app_head.
      rewrite !app_assoc. apply Permutation_app_tail.
      apply Permutation_app_comm.
    + exists (hits predicate l ++ hits predicate r). reflexivity.
Qed.

End AnyPredicate.

(** ** Properties of the spatial kernels *)

(** X1.  The rope kernel under any predicate.  On a rope-encoded tree whose
    root is node 0 the kernel returns once the fuel covers the nodes, and
    its callbacks are, in depth-first left-to-right order, the leaves whose
    volume satisfies the predicate along with the volumes of all their
    ancestors, the root included. *)
Theorem rope_kernel_emits_accepted_paths {BV : Type}
  (bvh : BVH (LeftChildAndRope.Node BV)) (predicate : BV -> bool)
  (t : @tree BV) (fuel : nat) :
  encodes_rope bvh 0 t ROPE_SENTINEL ->
  (all_nodes t <= fuel)%nat ->
  spatial_rope fuel bvh predicate = Ret (rope_trace predicate t).
Proof.
  intros He Hf. unfold spatial_rope.
  apply spatial_rope_from_trace; assumption.
Qed.

(** X2.  The stack kernel never tests the volume of the root.  On a
    two-child encoding of a tree of at least two leaves, and for any
    predicate, the callbacks are up to order those of the leaves accepted
    along with all their ancestors below the root; two encoded trees that
    differ in the volume of the root only give the same callbacks, in the
    same order. *)
Theorem stack_kernel_skips_root_volume {BV : Type}
  (bvh bvh' : BVH (TwoChildren.Node BV)) (predicate : BV -> bool)
  (bv bv' : BV) (l r : @tree BV) (fuel : nat) :
  encodes bvh (bvh_root bvh) (Internal bv l r) ->
  encodes bvh' (bvh_root bvh') (Internal bv' l r) ->
  (height (Internal bv l r) <= 64)%nat ->
  (internal_nodes (Internal bv l r) <= fuel)%nat ->
  exists out,
    spatial_stack fuel bvh predicate = Ret out /\
    spatial_stack fuel bvh' predicate = Ret out /\
    Permutation out (rope_trace predicate l ++ rope_trace predicate r).
Proof.
  intros He He' Hh Hf.
  exists (stack_trace predicate (Internal bv l r)).
  split; [apply spatial_stack_trace; auto|].
  split; [|apply stack_trace_children].
  change (stack_trace predicate (Internal bv l r))
    with (stack_trace predicate (Internal bv' l r)).
  apply spatial_stack_trace; auto.
Qed.

(** X3.  No false hit and no duplicate, whatever the predicate.  On an
    encoded tree both spatial kernels return, and their callbacks together
    with some missed leaves are the hits: every callback is a leaf whose
    volume satisfies the predicate, and no leaf is reported twice.  That the
    predicate respects the nesting is needed only for no hit to be missed. *)
Theorem spatial_kernels_emit_only_hits {BV : Type} (predicate : BV -> bool)
  (t : @tree BV) :
  (forall (bvh : BVH (TwoChildren.Node BV)) (fuel : nat),
      encodes bvh (bvh_root bvh) t -> tree_is_leaf t = false ->
      (height t <= 64)%nat -> (internal_nodes t <= fuel)%nat ->
      exists out missed,
        spatial_stack fuel bvh predicate = Ret out /\
        Permutation (out ++ missed) (hits predicate t)) /\
  (forall (bvh : BVH (LeftChildAndRope.Node BV)) (fuel : nat),
      encodes_rope bvh 0 t ROPE_SENTINEL -> (all_nodes t <= fuel)%nat ->
      exists out missed,
        spatial_rope fuel bvh predicate = Ret out /\
        Permutation (out ++ missed) (hits predicate t)).
Proof.
  split.
  - intros bvh fuel He Hi Hh Hf.
    destruct t as [|bv l r]; [discriminate|].
    destruct (rope_trace_within_hits predicate l) as [ml Hl].
    destruct (rope_trace_within_hits predicate r) as [mr Hr].
    exists (stack_trace predicate (Internal bv l r)), (ml ++ mr).
    split; [apply spatial_stack_trace; auto|].
    rewrite stack_trace_children, hits_Internal, <- Hl, <- Hr.
    rewrite <- !app_assoc. apply Permutation_app_head.
    rewrite !app_assoc. apply Permutation_app_tail.
    apply Permutation_app_comm.
  - intros bvh fuel He Hf.
    destruct (rope_trace_within_hits predicate t) as [m Hm].
    exists (rope_trace predicate t), m. split; [|exact Hm].
    unfold spatial_rope. apply spatial_rope_from_trace; assumption.
Qed.

(** ** The spatial kernels on any array of nodes *)

Lemma deref_In {Node : Type} (bvh : BVH Node) (p : pointer) (n : Node) :
  deref bvh p = Ret n -> In n (bvh_nodes bvh).
Proof.
  unfold deref. destruct p as [i|]; [|discriminate].
  destruct (i <? 0); [discriminate|].
  destruct (nth_error (bvh_nodes bvh) (Z.to_nat i)) as [m|] eqn:E;
    [|discriminate].
  intros [= <-]. eapply nth_error_In, E.
Qed.

Lemma spatial_stack_body_stored {BV : Type} (bvh : BVH (TwoChildren.Node BV))
  (predicate : BV -> bool) (s s' : SpatialState) :
  Forall (stored_hit bvh predicate) (sp_callbacks s) ->
  spatial_stack_body bvh predicate s = Ret s' ->
  Forall (stored_hit bvh predicate) (sp_callbacks s').
Proof.
  intros Hs. unfold spatial_stack_body, getNodePtr.
  destruct (deref bvh (sp_node s)) as [node| |]; cbn [bind]; try discriminate.
  destruct (deref bvh (Some (TwoChildren.left_child node))) as [nl| |] eqn:El;
    cbn [bind]; try discriminate.
  destruct (deref bvh (Some (TwoChildren.right_child node))) as [nr| |] eqn:Er;
    cbn [bind]; try discriminate.
  set (out1 := if predicate (getBoundingVolume nl) && isLeaf nl then _ else _).
  set (out2 := if predicate (getBoundingVolume nr) && isLeaf nr then _ else _).
  assert (H1 : Forall (stored_hit bvh predicate) out1).
  { subst out1.
    destruct (predicate (getBoundingVolume nl)) eqn:Pl; cbn [andb]; auto.
    destruct (isLeaf nl) eqn:Ll; auto.
    apply Forall_app. split; [exact Hs|]. constructor; [|constructor].
    exists nl. split; [eapply deref_In, El|]. auto. }
  assert (H2 : Forall (stored_hit bvh predicate) out2).
  { subst out2.
    destruct (predicate (getBoundingVolume nr)) eqn:Pr; cbn [andb]; auto.
    destruct (isLeaf nr) eqn:Lr; auto.
    apply Forall_app. split; [exact H1|]. constructor; [|constructor].
    exists nr. split; [eapply deref_In, Er|]. auto. }
  clearbody out2.
  destruct (negb _ && negb _).
  - destruct (stack_pop (sp_stack s)) as [[popped rest]| |]; cbn [bind];
      try discriminate.
    intros [= <-]. exact H2.
  - destruct (if _ && _ then stack_push _ _ else _) as [stack| |];
      cbn [bind]; try discriminate.
    intros [= <-]. exact H2.
Qed.

Lemma spatial_rope_body_stored {BV : Type}
  (bvh : BVH (LeftChildAndRope.Node BV)) (predicate : BV -> bool)
  (s s' : RopeState) :
  Forall (stored_hit bvh predicate) (rp_callbacks s) ->
  spatial_rope_body bvh predicate s = Ret s' ->
  Forall (stored_hit bvh predicate) (rp_callbacks s').
Proof.
  intros Hs. unfold spatial_rope_body, getNodePtr.
  destruct (deref bvh (Some (rp_next s))) as [node| |] eqn:E; cbn [bind];
    try discriminate.
  destruct (predicate (getBoundingVolume node)) eqn:P.
  - destruct (isLeaf node) eqn:L; cbn [negb]; intros [= <-]; [|exact Hs].
    apply Forall_app. split; [exact Hs|]. constructor; [|constructor].
    exists node. split; [eapply deref_In, E|]. auto.
  - intros [= <-]. exact Hs.
Qed.

(** X4.  On any array of nodes, a tree or not, and with any fuel: when a
    spatial kernel returns, each of its callbacks carries the index of a
    stored leaf whose volume satisfies the predicate. *)
Theorem spatial_kernels_emit_stored_leaves {BV : Type}
  (predicate : BV -> bool) (fuel : nat) :
  (forall (bvh : BVH (TwoChildren.Node BV)) (out : list Z),
      spatial_stack fuel bvh predicate = Ret out ->
      Forall (stored_hit bvh predicate) out) /\
  (forall (bvh : BVH (LeftChildAndRope.Node BV)) (out : list Z),
      spatial_rope fuel bvh predicate = Ret out ->
      Forall (stored_hit bvh predicate) out).
Proof.
  split; intros bvh out.
  - unfold spatial_stack.
    destruct (do_while _ _ fuel _) as [s| |] eqn:E; cbn [bind];
      try discriminate.
    intros [= <-].
    eapply (do_while_invariant _ _
              (fun s => Forall (stored_hit bvh predicate) (sp_callbacks s))
              (fun s0 s1 => spatial_stack_body_stored bvh predicate s0 s1)
              fuel); [|exact E].
    constructor.
  - unfold spatial_rope, spatial_rope_from.
    destruct (do_while _ _ fuel _) as [s| |] eqn:E; cbn [bind];
      try discriminate.
    intros [= <-].
    eapply (do_while_invariant _ _
              (fun s => Forall (stored_hit bvh predicate) (rp_callbacks s))
              (fun s0 s1 => spatial_rope_body_stored bvh predicate s0 s1)
              fuel); [|exact E].
    constructor.
Qed.

(** ** The depth of the stack *)

Section StackDepth.
Context {BV : Type}.
Variable bvh : BVH (TwoChildren.Node BV).
Variable predicate : BV -> bool.

Local Abbreviation body := (spatial_stack_body bvh predicate).

(** With room for the deferred siblings, the subtree is traversed. *)
Lemma stack_simulation_deferred (t : @tree BV) :
  tree_is_leaf t = false ->
  forall i, encodes bvh i t ->
  forall x stack out,
    (length (x :: stack) + deferred predicate t <= 64)%nat ->
    exists n, (1 <= n <= internal_nodes t)%nat /\
      forall fuel,
        do_while body stack_cond (n + fuel)
          (mkSpatial (Some i) (x :: stack) out) =
        resume body stack_cond fuel
          (mkSpatial x stack (out ++ stack_trace predicate t)).
Proof.
  induction t as [bv idx|bv l IHl r IHr]; intros Hi i He x stack out Hh;
    [discriminate|].
  destruct (stack_body_internal bvh predicate _ _ _ _ He)
    as (li & ri & Hl & Hr & Hbody).
  specialize (Hbody (x :: stack) out). cbn zeta in Hbody.
  cbn [deferred] in Hh. cbn [stack_trace internal_nodes].
  set (a := if predicate (tree_bv l) && tree_is_leaf l then _ else _) in *.
  set (b := if predicate (tree_bv r) && tree_is_leaf r then _ else _) in *.
  destruct (predicate (tree_bv l) && negb (tree_is_leaf l)) eqn:Tl;
    destruct (predicate (tree_bv r) && negb (tree_is_leaf r)) eqn:Tr;
    cbn [negb andb bind stack_pop] in Hbody, Hh.
  - (* both children are descended: the right one waits on the stack *)
    apply andb_prop in Tl as [_ Tl]. apply andb_prop in Tr as [_ Tr].
    apply negb_true_iff in Tl, Tr.
    unfold stack_push in Hbody.
    match type of Hbody with
    | context [Nat.ltb ?a ?b] => assert (Hlen : Nat.ltb a b = true)
    end.
    { apply Nat.ltb_lt. unfold STACK_SIZE. unfold pointer in *.
      cbn [length] in *. lia. }
    rewrite Hlen in Hbody.
    cbn [bind] in Hbody.
    destruct (IHl Tl li Hl (Some ri) (x :: stack) (out ++ a ++ b))
      as (nl & Hnl & Hsl); [cbn [length] in *; lia|].
    destruct (IHr Tr ri Hr x stack ((out ++ a ++ b) ++ stack_trace predicate l))
      as (nr & Hnr & Hsr); [cbn [length] in *; lia|].
    exists (1 + (nl + nr))%nat. split; [lia|]. intros fuel.
    rewrite <- Nat.add_assoc. rewrite (do_while_step stack_cond Hbody).
    unfold resume at 1. cbn [stack_cond sp_node is_null negb].
    rewrite (do_while_seq Hsl eq_refl Hsr).
    rewrite <- ?app_assoc. reflexivity.
  - (* only the left child is descended *)
    apply andb_prop in Tl as [_ Tl]. apply negb_true_iff in Tl.
    destruct (IHl Tl li Hl x stack (out ++ a ++ b)) as (nl & Hnl & Hsl);
      [cbn [length] in *; lia|].
    exists (1 + nl)%nat. split; [lia|]. intros fuel.
    rewrite <- Nat.add_assoc. rewrite (do_while_step stack_cond Hbody).
    unfold resume at 1. cbn [stack_cond sp_node is_null negb].
    rewrite Hsl, ?app_nil_r, <- ?app_assoc. reflexivity.
  - (* only the right child is descended *)
    apply andb_prop in Tr as [_ Tr]. apply negb_true_iff in Tr.
    destruct (IHr Tr ri Hr x stack (out ++ a ++ b)) as (nr & Hnr & Hsr);
      [cbn [length] in *; lia|].
    exists (1 + nr)%nat. split; [lia|]. intros fuel.
    rewrite <- Nat.add_assoc. rewrite (do_while_step stack_cond Hbody).
    unfold resume at 1. cbn [stack_cond sp_node is_null negb].
    rewrite Hsr. cbn [app]. rewrite <- ?app_assoc. reflexivity.
  - (* no child is descended: the next node is popped *)
    exists 1%nat. split; [lia|]. intros fuel.
    rewrite (do_while_step stack_cond Hbody). cbn [app].
    rewrite ?app_nil_r. reflexivity.
Qed.

(** Without that room, a write past the last slot ends the traversal. *)
Lemma stack_overflow (t : @tree BV) :
  tree_is_leaf t = false ->
  forall i, encodes bvh i t ->
  forall x stack out,
    (length (x :: stack) <= 64)%nat ->
    (64 < length (x :: stack) + deferred predicate t)%nat ->
    exists n, (1 <= n <= internal_nodes t)%nat /\
      forall fuel,
        do_while body stack_cond (n + fuel)
          (mkSpatial (Some i) (x :: stack) out) = Undefined.
Proof.
  induction t as [bv idx|bv l IHl r IHr]; intros Hi i He x stack out Hle Hh;
    [discriminate|].
  destruct (stack_body_internal bvh predicate _ _ _ _ He)
    as (li & ri & Hl & Hr & Hbody).
  specialize (Hbody (x :: stack) out). cbn zeta in Hbody.
  cbn [deferred] in Hh. cbn [internal_nodes].
  set (a := if predicate (tree_bv l) && tree_is_leaf l then _ else _) in *.
  set (b := if predicate (tree_bv r) && tree_is_leaf r then _ else _) in *.
  destruct (predicate (tree_bv l) && negb (tree_is_leaf l)) eqn:Tl;
    destruct (predicate (tree_bv r) && negb (tree_is_leaf r)) eqn:Tr;
    cbn [negb andb bind stack_pop] in Hbody, Hh.
  - apply andb_prop in Tl as [_ Tl]. apply andb_prop in Tr as [_ Tr].
    apply negb_true_iff in Tl, Tr.
    unfold stack_push in Hbody.
    match type of Hbody with
    | context [Nat.ltb ?a ?b] => destruct (Nat.ltb a b) eqn:Hlen
    end.
    + (* the right child is pushed *)
      cbn [bind] in Hbody.
      apply Nat.ltb_lt in Hlen. unfold STACK_SIZE in Hlen.
      unfold pointer in *.
      destruct (Nat.le_gt_cases
                  (length (Some ri :: x :: stack) + deferred predicate l) 64)
        as [Hfits|Hover].
      * (* the left subtree fits, the right one does not *)
        destruct (stack_simulation_deferred l Tl li Hl (Some ri) (x :: stack)
                    (out ++ a ++ b) Hfits) as (nl & Hnl & Hsl).
        destruct (IHr Tr ri Hr x stack
                    ((out ++ a ++ b) ++ stack_trace predicate l))
          as (nr & Hnr & Hsr); [exact Hle | cbn [length] in *; lia|].
        exists (1 + (nl + nr))%nat. split; [lia|]. intros fuel.
        rewrite <- Nat.add_assoc. rewrite (do_while_step stack_cond Hbody).
        unfold resume at 1. cbn [stack_cond sp_node is_null negb].
        apply (do_while_seq_fails _ _ _ _ _ _ Hsl eq_refl Hsr).
      * destruct (IHl Tl li Hl (Some ri) (x :: stack) (out ++ a ++ b))
          as (nl & Hnl & Hsl); [cbn [length] in *; lia | exact Hover|].
        exists (1 + nl)%nat. split; [lia|]. intros fuel.
        rewrite <- Nat.add_assoc. rewrite (do_while_step stack_cond Hbody).
        unfold resume at 1. cbn [stack_cond sp_node is_null negb].
        apply Hsl.
    + (* the stack is full: the push is the overflow *)
      cbn [bind] in Hbody.
      exists 1%nat. split; [lia|]. intros fuel.
      apply do_while_fails. exact Hbody.
  - apply andb_prop in Tl as [_ Tl]. apply negb_true_iff in Tl.
    destruct (IHl Tl li Hl x stack (out ++ a ++ b)) as (nl & Hnl & Hsl);
      [exact Hle | exact Hh|].
    exists (1 + nl)%nat. split; [lia|]. intros fuel.
    rewrite <- Nat.add_assoc. rewrite (do_while_step stack_cond Hbody).
    unfold resume at 1. cbn [stack_cond sp_node is_null negb].
    apply Hsl.
  - apply andb_prop in Tr as [_ Tr]. apply negb_true_iff in Tr.
    destruct (IHr Tr ri Hr x stack (out ++ a ++ b)) as (nr & Hnr & Hsr);
      [exact Hle | exact Hh|].
    exists (1 + nr)%nat. split; [lia|]. intros fuel.
    rewrite <- Nat.add_assoc. rewrite (do_while_step stack_cond Hbody).
    unfold resume at 1. cbn [stack_cond sp_node is_null negb].
    apply Hsr.
  - lia.
Qed.

End StackDepth.

(** The deferred siblings are fewer than the levels of the tree. *)
Lemma deferred_height {BV : Type} (predicate : BV -> bool) (t : @tree BV) :
  (deferred predicate t <= Nat.pred (height t))%nat.
Proof.
  induction t as [bv i|bv l IHl r IHr]; [simpl; lia|].
  cbn [deferred height Nat.pred].
  destruct (predicate (tree_bv l) && negb (tree_is_leaf l)) eqn:Tl;
    destruct (predicate (tree_bv r) && negb (tree_is_leaf r)) eqn:Tr;
    cbn [andb]; try lia.
  apply andb_prop in Tl as [_ Tl]. apply negb_true_iff in Tl.
  destruct l; [discriminate|]. cbn [height Nat.pred] in *. lia.
Qed.

(** X5.  The 64 slots bound the deferred siblings, not the depth.  On a
    two-child encoding of a tree of at least two leaves, the stack kernel
    returns the callbacks of the traversal as soon as no more than 63 right
    children wait at once on the stack (the first slot holds the null
    sentinel), however deep the tree is; in particular when the tree has at
    most 64 levels of internal nodes. *)
Theorem stack_kernel_fits_deferred_siblings {BV : Type}
  (bvh : BVH (TwoChildren.Node BV)) (predicate : BV -> bool) (t : @tree BV)
  (fuel : nat) :
  encodes bvh (bvh_root bvh) t ->
  tree_is_leaf t = false ->
  (deferred predicate t <= 63)%nat ->
  (internal_nodes t <= fuel)%nat ->
  spatial_stack fuel bvh predicate = Ret (stack_trace predicate t) /\
  (deferred predicate t < height t)%nat.
Proof.
  intros He Hi Hd Hf. split.
  - destruct (stack_simulation_deferred bvh predicate t Hi _ He None [] [])
      as (n & Hn & Hs); [cbn [length]; lia|].
    unfold spatial_stack, getRoot.
    change (fun s : SpatialState => negb (is_null (sp_node s)))
      with stack_cond.
    rewrite (do_while_finish Hs eq_refl) by lia. reflexivity.
  - pose proof (deferred_height predicate t).
    destruct t; [discriminate|]. cbn [height Nat.pred] in *. lia.
Qed.

(** X6.  Stack overflow.  On a two-child encoding of a tree, when 64 right
    children or more come to wait at once on the stack, the write of the
    last of them is past the 64th slot: the kernel's outcome is undefined,
    whatever the fuel that covers the internal nodes. *)
Theorem stack_kernel_overflows {BV : Type}
  (bvh : BVH (TwoChildren.Node BV)) (predicate : BV -> bool) (t : @tree BV)
  (fuel : nat) :
  encodes bvh (bvh_root bvh) t ->
  tree_is_leaf t = false ->
  (64 <= deferred predicate t)%nat ->
  (internal_nodes t <= fuel)%nat ->
  spatial_stack fuel bvh predicate = Undefined.
Proof.
  intros He Hi Hd Hf.
  destruct (stack_overflow bvh predicate t Hi _ He None [] [])
    as (n & Hn & Hs); [cbn [length]; lia | cbn [length]; lia|].
  unfold spatial_stack, getRoot.
  change (fun s : SpatialState => negb (is_null (sp_node s))) with stack_cond.
  replace fuel with (n + (fuel - n))%nat by lia.
  rewrite Hs. reflexivity.
Qed.

(** ** Every tree has a two-child encoding *)

Lemma deref_middle {Node : Type} (pre post : list Node) (n : Node)
  (s r : Z) :
  deref (mkBVH (pre ++ n :: post) s r) (Some (Z.of_nat (length pre))) = Ret n.
Proof.
  unfold deref. cbn [bvh_nodes].
  replace (Z.of_nat (length pre) <? 0) with false
    by (symmetry; apply Z.ltb_ge; lia).
  rewrite Nat2Z.id, nth_error_app2, Nat.sub_diag by lia. reflexivity.
Qed.

Lemma nodes_encodes {BV : Type} (t : @tree BV) :
  forall (pre post : list (TwoChildren.Node BV)) (s r : Z),
    encodes (mkBVH (pre ++ Layout.nodes t (Z.of_nat (length pre)) ++ post) s r)
      (Z.of_nat (length pre)) t.
Proof.
  induction t as [bv idx|bv l IHl r0 IHr]; intros pre post s r.
  - cbn [Layout.nodes app encodes]. eexists. split; [apply deref_middle|].
    cbn. auto.
  - cbn [Layout.nodes encodes]. cbv zeta.
    set (i := Z.of_nat (length pre)).
    set (left := Layout.nodes l (i + 1)).
    set (j := i + 1 + Z.of_nat (length left)).
    set (n := TwoChildren.mkNode false (i + 1) j 0 bv).
    exists n. split; [apply deref_middle|].
    split; [reflexivity|]. split; [reflexivity|].
    exists j. split; [reflexivity|].
    cbn [left_child NodeWithTwoChildrenTag TwoChildren.left_child n].
    split.
    + specialize (IHl (pre ++ [n]) (Layout.nodes r0 j ++ post) s r).
      rewrite length_app, Nat2Z.inj_add in IHl. cbn [length] in IHl.
      change (Z.of_nat 1) with 1 in IHl. fold i in IHl. fold left in IHl.
      rewrite <- !app_assoc in IHl. cbn [app] in *.
      rewrite <- app_assoc. exact IHl.
    + specialize (IHr (pre ++ n :: left) post s r).
      rewrite length_app, Nat2Z.inj_add in IHr. cbn [length] in IHr.
      rewrite Nat2Z.inj_succ in IHr. fold i in IHr.
      replace (i + Z.succ (Z.of_nat (length left))) with j in IHr
        by (unfold j; lia).
      rewrite <- !app_assoc in IHr. cbn [app] in *.
      rewrite <- app_assoc. exact IHr.
Qed.

Lemma two_children_encodes {BV : Type} (t : @tree BV) :
  encodes (Layout.two_children t) (bvh_root (Layout.two_children t)) t.
Proof.
  pose proof (nodes_encodes t [] []
                (Z.of_nat (length (leaves t))) 0) as H.
  cbn [length app] in H. rewrite app_nil_r in H. exact H.
Qed.

(** ** The nearest kernel on any array of nodes *)

Section NearestStored.
Context {BV Geometry : Type}.
Variable Details_distance : Geometry -> BV -> float.
Context {Node : Type} `{NodeTag BV Node} `{PriorityQueue}.
Variable bvh : BVH Node.
Variable predicate : @NearestPredicate Geometry.
Import FloatOrder.

(** A heap entry: a stored leaf, its own distance, less than
    [+infinity]. *)
Definition candidate (p : PairIndexDistance) : Prop :=
  stored_candidate Details_distance bvh predicate p /\
  SFltb (snd p) infinity = true.

Lemma guarded_insertion_stored (n : Node) (h h' : heap)
  (radius radius' : float) :
  1 <= getK predicate ->
  heap_inv (getK predicate) h radius ->
  Forall candidate (data h) ->
  In n (bvh_nodes bvh) ->
  (if SFltb (distance Details_distance predicate n) radius && isLeaf n
   then insert_leaf_pair (getK predicate)
          (getLeafPermutationIndex n, distance Details_distance predicate n)
          h radius
   else Ret (h, radius)) = Ret (h', radius') ->
  heap_inv (getK predicate) h' radius' /\ Forall candidate (data h').
Proof.
  intros Hk Hinv Hc Hn.
  destruct (SFltb (distance Details_distance predicate n) radius) eqn:Hd;
    cbn [andb]; [|intros [= <- <-]; auto].
  destruct (isLeaf n) eqn:Hl; [|intros [= <- <-]; auto].
  destruct (insert_leaf_pair_spec (getK predicate)
              (getLeafPermutationIndex n,
               distance Details_distance predicate n) h radius Hk Hinv Hd)
    as (h1 & r1 & dropped & E & Hinv1 & _ & _ & _ & Hp & _).
  rewrite E. intros [= <- <-]. split; [exact Hinv1|].
  rewrite Forall_forall in Hc |- *. intros q Hq.
  assert (Hin : In q ((getLeafPermutationIndex n,
                       distance Details_distance predicate n) :: data h)).
  { eapply Permutation_in; [symmetry; exact Hp|].
    apply in_or_app. right. exact Hq. }
  destruct Hin as [<-|Hin]; [|apply Hc, Hin].
  split; [exists n; auto|]. cbn [snd].
  eapply ltb_leb_trans; [exact Hd|].
  apply leb_infinity. eapply heap_inv_radius_nonnan, Hinv.
Qed.

Lemma examine_children_stored (s : NearestState) tl tr cl cr dl dr h radius :
  1 <= getK predicate ->
  heap_inv (getK predicate) (st_heap s) (st_radius s) ->
  Forall candidate (data (st_heap s)) ->
  examine_children Details_distance bvh predicate s
    = Ret (tl, tr, cl, cr, dl, dr, h, radius) ->
  Forall candidate (data h).
Proof.
  intros Hk Hinv Hc. unfold examine_children.
  destruct (SFltb (st_distance_node s) (st_radius s));
    [|intros [= <- <- <- <- <- <- <- <-]; exact Hc].
  destruct (deref bvh (st_node s)) as [node| |]; cbn [bind]; try discriminate.
  destruct (getRightChild bvh node) as [right| |]; cbn [bind];
    try discriminate.
  destruct (deref bvh (getNodePtr bvh (left_child node))) as [nl| |] eqn:El;
    cbn [bind]; try discriminate.
  destruct (deref bvh (getNodePtr bvh right)) as [nr| |] eqn:Er; cbn [bind];
    try discriminate.
  destruct (if SFltb (distance Details_distance predicate nl) (st_radius s)
               && isLeaf nl then _ else _) as [[h1 r1]| |] eqn:E1;
    cbn [bind]; try discriminate.
  destruct (guarded_insertion_stored nl _ _ _ _ Hk Hinv Hc
              (deref_In _ _ _ El) E1) as [Hinv1 Hc1].
  destruct (if SFltb (distance Details_distance predicate nr) r1
               && isLeaf nr then _ else _) as [[h2 r2]| |] eqn:E2;
    cbn [bind]; try discriminate.
  destruct (guarded_insertion_stored nr _ _ _ _ Hk Hinv1 Hc1
              (deref_In _ _ _ Er) E2) as [Hinv2 Hc2].
  intros [= <- <- <- <- <- <- <- <-]. exact Hc2.
Qed.

Lemma nearest_body_stored (cuda_arch : bool) (s s' : NearestState) :
  1 <= getK predicate ->
  heap_inv (getK predicate) (st_heap s) (st_radius s) /\
  Forall candidate (data (st_heap s)) ->
  nearest_body Details_distance cuda_arch bvh predicate s = Ret s' ->
  heap_inv (getK predicate) (st_heap s') (st_radius s') /\
  Forall candidate (data (st_heap s')).
Proof.
  intros Hk [Hinv Hc] E.
  split; [eapply nearest_body_inv; eassumption|].
  destruct (nearest_body_heap _ _ _ _ _ _ E)
    as (tl & tr & cl & cr & dl & dr & Ex).
  eapply examine_children_stored; eassumption.
Qed.

(** The heap operations never fail: the candidate insertions of an
    iteration return once the nodes have been read. *)
Lemma examine_children_returns (s : NearestState) (node nl nr : Node)
  (right : Z) :
  1 <= getK predicate ->
  heap_inv (getK predicate) (st_heap s) (st_radius s) ->
  deref bvh (st_node s) = Ret node ->
  getRightChild bvh node = Ret right ->
  deref bvh (getNodePtr bvh (left_child node)) = Ret nl ->
  deref bvh (getNodePtr bvh right) = Ret nr ->
  exists found, examine_children Details_distance bvh predicate s = Ret found.
Proof.
  intros Hk Hinv Hn Hr Hl Hrr. unfold examine_children.
  destruct (SFltb (st_distance_node s) (st_radius s)); [|eexists; reflexivity].
  rewrite Hn. cbn [bind]. rewrite Hr. cbn [bind]. rewrite Hl, Hrr.
  cbn [bind].
  destruct (candidate_spec (getK predicate)
              (getLeafPermutationIndex nl,
               distance Details_distance predicate nl)
              (isLeaf nl) (st_heap s) (st_radius s) Hk Hinv)
    as (h1 & r1 & E1 & Hinv1 & _).
  cbn [snd] in E1. rewrite E1. cbn [bind].
  destruct (candidate_spec (getK predicate)
              (getLeafPermutationIndex nr,
               distance Details_distance predicate nr)
              (isLeaf nr) h1 r1 Hk Hinv1)
    as (h2 & r2 & E2 & _).
  cbn [snd] in E2. rewrite E2. cbn [bind]. eexists. reflexivity.
Qed.

End NearestStored.

(** ** Properties of the nearest kernel *)

(** X7.  On any array of nodes, a tree or not, with any fuel and in either
    build: when the nearest kernel returns, the count it returns is the
    number of its callbacks, which is at most [k] (none when [k < 1]), and
    each callback carries the index of a stored leaf with the distance of
    that leaf's volume, a distance less than [+infinity] and so not NaN. *)
Theorem nearest_kernel_emits_stored_leaves {BV Geometry Node : Type}
  (Details_distance : Geometry -> BV -> float)
  (tag : NodeTag BV Node) (queue : PriorityQueue) (cuda_arch : bool)
  (fuel : nat) (bvh : BVH Node) (predicate : @NearestPredicate Geometry)
  (out : list PairIndexDistance) (n : Z) :
  nearest Details_distance cuda_arch fuel bvh predicate = Ret (out, n) ->
  n = Z.of_nat (length out) /\
  n <= Z.max 0 (getK predicate) /\
  Forall (fun p =>
            stored_candidate Details_distance bvh predicate p /\
            SFltb (snd p) infinity = true) out.
Proof.
  unfold nearest. destruct (getK predicate <? 1) eqn:Ek.
  - intros [= <- <-]. split; [reflexivity|]. split; [lia | constructor].
  - apply Z.ltb_ge in Ek.
    destruct (nearest_loop Details_distance cuda_arch fuel bvh predicate
                (nearest_init cuda_arch bvh)) as [s| |] eqn:E; cbn [bind];
      try discriminate.
    intros [= <- <-].
    assert (Hs : heap_inv (getK predicate) (st_heap s) (st_radius s) /\
                 Forall (candidate Details_distance bvh predicate)
                   (data (st_heap s))).
    { unfold nearest_loop in E.
      eapply (do_while_invariant _ _
                (fun s => heap_inv (getK predicate) (st_heap s) (st_radius s)
                          /\ Forall (candidate Details_distance bvh predicate)
                               (data (st_heap s)))
                (fun s0 s1 =>
                   nearest_body_stored Details_distance bvh predicate
                     cuda_arch s0 s1 Ek)
                fuel); [|exact E].
      split; [apply heap_inv_init, Ek|].
      cbn [nearest_init st_heap]. rewrite data_empty_heap. constructor. }
    destruct Hs as [Hinv Hc].
    pose proof (sortHeap_Permutation (st_heap s)) as Hp.
    split; [unfold heap_size; rewrite (Permutation_length Hp); reflexivity|].
    split; [pose proof (heap_inv_size _ _ _ Hinv); lia|].
    rewrite Forall_forall in Hc |- *. intros p Hin.
    apply Hc. eapply Permutation_in; eassumption.
Qed.

(** X8.  The heap never outgrows its [k] entries.  For a query with
    [k >= 1], on any array of nodes and in either build, at the start of
    every iteration the heap holds at most [k] entries, none farther than
    the radius; the radius is still [+infinity] while fewer than [k] entries
    are held, so that nothing is pruned before [k] candidates are found, and
    it is the distance of the top once [k] are held.  The heap operations of
    the iteration never fail: once the node and its two children have been
    read, the block that examines the children returns. *)
Theorem heap_never_outgrows_k {BV Geometry Node : Type}
  (Details_distance : Geometry -> BV -> float)
  (tag : NodeTag BV Node) (queue : PriorityQueue) (cuda_arch : bool)
  (bvh : BVH Node) (predicate : @NearestPredicate Geometry)
  (s : NearestState) :
  let k := getK predicate in
  1 <= k ->
  reachable Details_distance bvh predicate cuda_arch s ->
  heap_size (st_heap s) <= k /\
  Forall (fun q => SFleb (snd q) (st_radius s) = true) (data (st_heap s)) /\
  (heap_size (st_heap s) < k -> st_radius s = infinity) /\
  (heap_size (st_heap s) = k ->
   exists p, top (st_heap s) = Some p /\ st_radius s = snd p) /\
  (forall (node nl nr : Node) (right : Z),
     deref bvh (st_node s) = Ret node ->
     getRightChild bvh node = Ret right ->
     deref bvh (getNodePtr bvh (left_child node)) = Ret nl ->
     deref bvh (getNodePtr bvh right) = Ret nr ->
     exists found,
       examine_children Details_distance bvh predicate s = Ret found).
Proof.
  intros k Hk Hreach.
  pose proof (reachable_inv _ _ _ _ _ Hk Hreach) as Hinv.
  split; [eapply heap_inv_size, Hinv|].
  split; [apply Hinv|].
  split; [|split].
  - intros Hlt. destruct Hinv as [_ [[_ Hr]|[He _]]]; [exact Hr | lia].
  - intros Heq. destruct Hinv as [_ [[Hlt _]|[_ Hp]]]; [lia | exact Hp].
  - intros node nl nr right. apply examine_children_returns; assumption.
Qed.

(** ** The depth of the stack of the nearest kernel *)

Section NearestDepth.
Context {BV Geometry : Type}.
Variable Details_distance : Geometry -> BV -> float.
Context {Node : Type} `{NodeTag BV Node} `{PriorityQueue}.
Variable bvh : BVH Node.
Variable predicate : @NearestPredicate Geometry.

Local Abbreviation k := (getK predicate).
Local Abbreviation dist := (Details_distance (getGeometry predicate)).
Local Abbreviation body := (nearest_body Details_distance false bvh predicate).

(** The host loop follows [visit] as long as the deferred children find
    room on the two stacks. *)
Lemma nearest_simulation_branching (t : @tree BV) :
  tree_is_leaf t = false ->
  forall i, encodes bvh i t ->
  forall d x dx stack sdist h radius s',
    (length (x :: stack) + branching_depth t <= 64)%nat ->
    length sdist = length stack ->
    visit k dist t d (h, radius) = Ret s' ->
    exists n, (1 <= n <= internal_nodes t)%nat /\
      forall fuel,
        do_while body nearest_cond (n + fuel)
          (mkNearest (Some i) d (x :: stack) (dx :: sdist) h radius) =
        resume body nearest_cond fuel
          (mkNearest x dx stack sdist (fst s') (snd s')).
Proof.
  induction t as [bv idx|bv l IHl r IHr];
    intros Hi i He d x dx stack sdist h radius s' Hh Hlen Hv; [discriminate|].
  unfold pointer in *.
  destruct (nearest_body_internal Details_distance bvh predicate _ _ _ _ He)
    as (li & ri & Hl & Hr & Hbody).
  specialize (Hbody d (x :: stack) (dx :: sdist) h radius).
  cbn [visit snd] in Hv. cbn [branching_depth] in Hh. cbn [internal_nodes].
  destruct (SFltb d radius).
  2:{ (* the node is no nearer than the radius: it is dropped *)
      injection Hv as <-. exists 1%nat. split; [lia|]. intros fuel.
      apply do_while_step. exact Hbody. }
  destruct (consider k dist l (h, radius)) as [s1| |]; cbn [bind] in Hv, Hbody;
    try discriminate.
  destruct (consider k dist r s1) as [s2| |]; cbn [bind] in Hv, Hbody;
    try discriminate.
  cbn zeta in Hv, Hbody.
  destruct (descends dist l (snd s2)) eqn:Tl;
    destruct (descends dist r (snd s2)) eqn:Tr;
    cbn [negb andb orb bind stack_pop] in Hv, Hbody.
  - (* both children are descended *)
    assert (Il : tree_is_leaf l = false)
      by (apply andb_prop in Tl as [_ Tl]; apply negb_true_iff, Tl).
    assert (Ir : tree_is_leaf r = false)
      by (apply andb_prop in Tr as [_ Tr]; apply negb_true_iff, Tr).
    rewrite Il, Ir in Hh. cbn [negb andb] in Hh.
    unfold stack_push, pointer in Hbody.
    assert (Hroom : (length (x :: stack) <? STACK_SIZE)%nat = true).
    { apply Nat.ltb_lt. unfold STACK_SIZE. cbn [length] in *. lia. }
    assert (Hroom' : (length (dx :: sdist) <? STACK_SIZE)%nat = true).
    { cbn [length] in *. rewrite Hlen. exact Hroom. }
    rewrite Hroom, Hroom' in Hbody.
    cbn [bind] in Hbody. rewrite orb_false_r in Hv, Hbody.
    destruct (SFleb (dist (tree_bv l)) (dist (tree_bv r))).
    + destruct (visit k dist l (dist (tree_bv l)) s2) as [s3| |] eqn:Vl;
        cbn [bind] in Hv; try discriminate.
      destruct s2 as [h2 r2], s3 as [h3 r3]. cbn [fst snd] in *.
      destruct (IHl Il li Hl _ (Some ri) (dist (tree_bv r)) (x :: stack)
                  (dx :: sdist) h2 r2 _
                  ltac:(cbn [length] in *; lia) ltac:(cbn [length]; lia) Vl)
        as (nl & Hnl & Hsl).
      destruct (IHr Ir ri Hr _ x dx stack sdist h3 r3 _
                  ltac:(cbn [length] in *; lia) Hlen Hv)
        as (nr & Hnr & Hsr).
      exists (1 + (nl + nr))%nat. split; [lia|]. intros fuel.
      rewrite <- Nat.add_assoc, (do_while_step nearest_cond Hbody).
      unfold resume at 1. cbn [nearest_cond st_node is_null negb].
      apply (do_while_seq Hsl eq_refl Hsr).
    + destruct (visit k dist r (dist (tree_bv r)) s2) as [s3| |] eqn:Vr;
        cbn [bind] in Hv; try discriminate.
      destruct s2 as [h2 r2], s3 as [h3 r3]. cbn [fst snd] in *.
      destruct (IHr Ir ri Hr _ (Some li) (dist (tree_bv l)) (x :: stack)
                  (dx :: sdist) h2 r2 _
                  ltac:(cbn [length] in *; lia) ltac:(cbn [length]; lia) Vr)
        as (nr & Hnr & Hsr).
      destruct (IHl Il li Hl _ x dx stack sdist h3 r3 _
                  ltac:(cbn [length] in *; lia) Hlen Hv)
        as (nl & Hnl & Hsl).
      exists (1 + (nr + nl))%nat. split; [lia|]. intros fuel.
      rewrite <- Nat.add_assoc, (do_while_step nearest_cond Hbody).
      unfold resume at 1. cbn [nearest_cond st_node is_null negb].
      apply (do_while_seq Hsr eq_refl Hsl).
  - (* only the left child is descended *)
    assert (Il : tree_is_leaf l = false)
      by (apply andb_prop in Tl as [_ Tl]; apply negb_true_iff, Tl).
    rewrite orb_true_r in Hv, Hbody.
    destruct (visit k dist l (dist (tree_bv l)) s2) as [s3| |] eqn:Vl;
      cbn [bind] in Hv; try discriminate.
    injection Hv as <-. destruct s2 as [h2 r2]. cbn [fst snd] in *.
    destruct (IHl Il li Hl _ x dx stack sdist h2 r2 _
                ltac:(cbn [length] in *; lia) Hlen Vl)
      as (nl & Hnl & Hsl).
    exists (1 + nl)%nat. split; [lia|]. intros fuel.
    rewrite <- Nat.add_assoc, (do_while_step nearest_cond Hbody).
    unfold resume at 1. cbn [nearest_cond st_node is_null negb].
    apply Hsl.
  - (* only the right child is descended *)
    assert (Ir : tree_is_leaf r = false)
      by (apply andb_prop in Tr as [_ Tr]; apply negb_true_iff, Tr).
    destruct (visit k dist r (dist (tree_bv r)) s2) as [s3| |] eqn:Vr;
      cbn [bind] in Hv; try discriminate.
    injection Hv as <-. destruct s2 as [h2 r2]. cbn [fst snd] in *.
    destruct (IHr Ir ri Hr _ x dx stack sdist h2 r2 _
                ltac:(cbn [length] in *; lia) Hlen Vr)
      as (nr & Hnr & Hsr).
    exists (1 + nr)%nat. split; [lia|]. intros fuel.
    rewrite <- Nat.add_assoc, (do_while_step nearest_cond Hbody).
    unfold resume at 1. cbn [nearest_cond st_node is_null negb].
    apply Hsr.
  - (* no child is descended *)
    injection Hv as <-. exists 1%nat. split; [lia|]. intros fuel.
    apply do_while_step. exact Hbody.
Qed.

End NearestDepth.

Lemma branching_depth_height {BV : Type} (t : @tree BV) :
  (branching_depth t <= Nat.pred (height t))%nat.
Proof.
  induction t as [bv i|bv l IHl r IHr]; [simpl; lia|].
  cbn [branching_depth height Nat.pred].
  destruct l as [|bl ll lr], r as [|br rl rr];
    cbn [tree_is_leaf negb andb branching_depth height Nat.pred] in *; lia.
Qed.

(** X9.  The loop is the best-first descent, and its stacks bound the
    branching, not the depth.  On an encoded tree of at least two leaves on
    which no path from the root meets more than 63 nodes with two internal
    children (so on every tree of at most 64 levels, and on deeper ones), a
    query with [k >= 1] returns, for any distance function and in either
    build, the sorted heap that the recursive descent [visit] leaves: at
    each internal node the left child and then the right child are offered
    to the heap when they are leaves, the subtree of the nearer child (the
    left one when they tie) is traversed to its end before the other, and
    the other is entered only if its distance is still less than the radius
    at that time. *)
Theorem nearest_kernel_fits_branching_depth {BV Geometry Node : Type}
  (Details_distance : Geometry -> BV -> float)
  (tag : NodeTag BV Node) (queue : PriorityQueue) (cuda_arch : bool)
  (fuel : nat) (bvh : BVH Node) (predicate : @NearestPredicate Geometry)
  (t : @tree BV) :
  let k := getK predicate in
  let dist := Details_distance (getGeometry predicate) in
  encodes bvh (bvh_root bvh) t ->
  tree_is_leaf t = false ->
  (branching_depth t <= 63)%nat ->
  1 <= k ->
  (internal_nodes t <= fuel)%nat ->
  (exists h' r',
     visit k dist t zero (empty_heap, infinity) = Ret (h', r') /\
     nearest Details_distance cuda_arch fuel bvh predicate
     = Ret (sortHeap h', heap_size h')) /\
  (branching_depth t < height t)%nat.
Proof.
  intros k dist He Hi Hb Hk Hf. split.
  - destruct (visit_returns k dist Hk t zero empty_heap infinity Hi
                (heap_inv_init k Hk)) as (h' & r' & Hv & _).
    exists h', r'. split; [exact Hv|].
    assert (Hhost : nearest Details_distance false fuel bvh predicate
                    = Ret (sortHeap h', heap_size h')).
    { unfold nearest.
      replace (getK predicate <? 1) with false
        by (symmetry; apply Z.ltb_ge; exact Hk).
      destruct (nearest_simulation_branching Details_distance bvh predicate t
                  Hi _ He zero None zero [] [] empty_heap infinity (h', r')
                  ltac:(cbn [length]; lia) eq_refl Hv)
        as (n & Hn & Hs).
      unfold nearest_loop, nearest_init, getRoot.
      change (fun s : NearestState => negb (is_null (st_node s)))
        with nearest_cond.
      rewrite (do_while_finish Hs eq_refl) by lia. reflexivity. }
    destruct cuda_arch; [rewrite nearest_builds_equal|]; exact Hhost.
  - pose proof (branching_depth_height t).
    destruct t; [discriminate|]. cbn [height Nat.pred] in *. lia.
Qed.

(** X10.  No leaf twice, whatever the distances.  On an encoded tree of at
    least two leaves, for a query with [k >= 1] and for any distance
    function (monotone or not, NaN included), the kernel returns and its
    callbacks, together with some leaves left out, are the leaves of the
    tree with their distances: each callback is a leaf of the tree with its
    own distance, and no leaf is reported twice. *)
Theorem nearest_kernel_emits_each_leaf_once {BV Geometry Node : Type}
  (Details_distance : Geometry -> BV -> float)
  (tag : NodeTag BV Node) (queue : PriorityQueue) (cuda_arch : bool)
  (fuel : nat) (bvh : BVH Node) (predicate : @NearestPredicate Geometry)
  (t : @tree BV) :
  let dist := Details_distance (getGeometry predicate) in
  encodes bvh (bvh_root bvh) t ->
  tree_is_leaf t = false ->
  (height t <= 64)%nat ->
  1 <= getK predicate ->
  (internal_nodes t <= fuel)%nat ->
  exists out n left_out,
    nearest Details_distance cuda_arch fuel bvh predicate = Ret (out, n) /\
    Permutation (leaf_pairs dist t) (out ++ left_out).
Proof.
  intros dist He Hi Hh Hk Hf.
  destruct (visit_nearest_bound (getK predicate) dist t Hk Hi)
    as (h' & r' & Hv & _ & rej & Hp).
  exists (sortHeap h'), (heap_size h'), rej.
  split; [eapply nearest_visit; eassumption|].
  rewrite Hp, (sortHeap_Permutation h'). apply Permutation_app_comm.
Qed.

(** ** Properties of the scratch *)

(** X11.  Every scratch view holds [k] entries.  For a batch whose [k_i]
    are not negative and whose sum fits an [int], [allocateBuffer] returns
    a buffer of as many entries as the sum, and the view that the provider
    gives to query [i] lies in the buffer and has [k_i] entries, which is
    what [assert(k == (int)buffer.size())] wants; the last entry of
    [offset], not initialized before the scan, has no part in it. *)
Theorem scratch_views_hold_k_entries {Geometry : Type} (uninitialized : Z)
  (predicates : list (@NearestPredicate Geometry)) :
  Forall (fun p => 0 <= getK p) predicates ->
  total_k predicates <= INT_MAX ->
  exists provider,
    allocateBuffer uninitialized predicates = Ret provider /\
    buffer_ provider = mkBuffer 0 (total_k predicates) /\
    forall (i : nat) (predicate : @NearestPredicate Geometry),
      nth_error predicates i = Some predicate ->
      exists buffer,
        provide provider (Z.of_nat i) = Ret buffer /\
        buffer_size buffer = getK predicate /\
        0 <= buffer_begin buffer /\
        buffer_end buffer <= total_k predicates.
Proof.
  intros Hk Htotal. eexists.
  split; [exact (allocateBuffer_returns uninitialized predicates Hk Htotal)|].
  split; [reflexivity|].
  intros i predicate E. eexists.
  split; [exact (provide_allocated uninitialized predicates Hk Htotal i
                   predicate E)|].
  unfold buffer_size. cbn [buffer_begin buffer_end].
  assert (Ek : nth_error (map getK predicates) i = Some (getK predicate))
    by (rewrite nth_error_map, E; reflexivity).
  pose proof (ks_nonneg predicates Hk) as Hks.
  pose proof (sum_firstn_le _ i Hks) as H0.
  pose proof (sum_firstn_le _ (S i) Hks) as H1.
  rewrite (sum_firstn_succ _ _ _ Ek) in H1.
  unfold total_k. lia.
Qed.

(** X12.  The scratch views of two queries do not overlap.  For a batch
    whose [k_i] are not negative and whose sum fits an [int], the view of a
    query ends where or before the view of any later query begins. *)
Theorem scratch_views_are_disjoint {Geometry : Type} (uninitialized : Z)
  (predicates : list (@NearestPredicate Geometry)) :
  Forall (fun p => 0 <= getK p) predicates ->
  total_k predicates <= INT_MAX ->
  exists provider,
    allocateBuffer uninitialized predicates = Ret provider /\
    forall (i j : nat) (pi pj : @NearestPredicate Geometry),
      (i < j)%nat ->
      nth_error predicates i = Some pi ->
      nth_error predicates j = Some pj ->
      exists bi bj,
        provide provider (Z.of_nat i) = Ret bi /\
        provide provider (Z.of_nat j) = Ret bj /\
        buffer_end bi <= buffer_begin bj.
Proof.
  intros Hk Htotal. eexists.
  split; [exact (allocateBuffer_returns uninitialized predicates Hk Htotal)|].
  intros i j pi pj Hij Ei Ej. eexists. eexists.
  split; [exact (provide_allocated uninitialized predicates Hk Htotal i pi
                   Ei)|].
  split; [exact (provide_allocated uninitialized predicates Hk Htotal j pj
                   Ej)|].
  cbn [buffer_begin buffer_end].
  assert (Ek : nth_error (map getK predicates) i = Some (getK pi))
    by (rewrite nth_error_map, Ei; reflexivity).
  rewrite <- (sum_firstn_succ _ _ _ Ek).
  apply sum_firstn_mono; [apply ks_nonneg, Hk | lia].
Qed.

(** Within such a batch the task of a query is the run of the kernel on
    its predicate. *)
Lemma nearest_query_serves {BV Geometry Node : Type}
  (Details_distance : Geometry -> BV -> float)
  `{NodeTag BV Node} `{PriorityQueue}
  (uninitialized : Z) (cuda_arch : bool) (fuel : nat) (bvh : BVH Node)
  (predicates : list (@NearestPredicate Geometry)) (i : nat)
  (predicate : @NearestPredicate Geometry) :
  Forall (fun p => 0 <= getK p) predicates ->
  total_k predicates <= INT_MAX ->
  nth_error predicates i = Some predicate ->
  nearest_query Details_distance cuda_arch fuel bvh predicates
    (mkBufferProvider (mkBuffer 0 (total_k predicates))
       (exclusivePrefixSum (map getK predicates ++ [uninitialized])))
    (Z.of_nat i)
  = nearest Details_distance cuda_arch fuel bvh predicate.
Proof.
  intros Hk Htotal E.
  unfold nearest_query, view_get.
  replace (Z.of_nat i <? 0) with false by (symmetry; apply Z.ltb_ge; lia).
  rewrite Nat2Z.id, E. cbn [bind].
  rewrite (provide_allocated uninitialized predicates Hk Htotal _ _ E).
  cbn [bind buffer_].
  unfold buffer_size, holds_entries. cbn [buffer_begin buffer_end].
  destruct (getK predicate <? 1) eqn:Ek.
  - unfold nearest. rewrite Ek. reflexivity.
  - replace (getK predicate =? _) with true
      by (symmetry; apply Z.eqb_eq; lia).
    destruct (nearest Details_distance cuda_arch fuel bvh predicate)
      as [[callbacks n]| |] eqn:En; cbn [bind]; try reflexivity.
    apply nearest_count_at_most_k in En. apply Z.ltb_ge in Ek.
    assert (Ek' : nth_error (map getK predicates) i = Some (getK predicate))
      by (rewrite nth_error_map, E; reflexivity).
    pose proof (ks_nonneg predicates Hk) as Hks.
    pose proof (sum_firstn_le _ i Hks) as H2.
    pose proof (sum_firstn_le _ (S i) Hks) as H3.
    rewrite (sum_firstn_succ _ _ _ Ek') in H3. unfold total_k.
    replace ((_ <=? _) && (_ <=? _)) with true;
      [rewrite orb_true_r; reflexivity|].
    symmetry. apply andb_true_intro. split; apply Z.leb_le; lia.
Qed.

(** X13.  The scratch serves every query.  For a batch whose [k_i] are not
    negative and whose sum fits an [int], the constructor allocates the
    scratch and hands each task the view of its query, and every task is the
    run of the kernel on its predicate: each
    [assert(k == (int)buffer.size())] holds and every entry that a heap
    writes is an entry of the buffer. *)
Theorem scratch_serves_every_query {BV Geometry Node : Type}
  (Details_distance : Geometry -> BV -> float)
  (tag : NodeTag BV Node) (queue : PriorityQueue)
  (uninitialized : Z) (cuda_arch : bool) (fuel : nat) (bvh : BVH Node)
  (predicates : list (@NearestPredicate Geometry)) :
  Forall (fun p => 0 <= getK p) predicates ->
  total_k predicates <= INT_MAX ->
  TreeTraversal_nearest Details_distance uninitialized cuda_arch fuel bvh
    predicates
  = Ret (if empty bvh then []
         else if size bvh =? 1
              then map (nearest_one_leaf Details_distance bvh) predicates
         else map (nearest Details_distance cuda_arch fuel bvh) predicates).
Proof.
  intros Hk Htotal.
  unfold TreeTraversal_nearest.
  destruct (empty bvh); [reflexivity|].
  destruct (size bvh =? 1); [reflexivity|].
  rewrite (allocateBuffer_returns uninitialized predicates Hk Htotal).
  cbn [bind]. f_equal.
  apply map_query_indices. intros i predicate E.
  apply nearest_query_serves; assumption.
Qed.

(** ** The tree of one leaf *)

(** X14.  A tree of one leaf is answered from its root alone.  When
    [size()] is 1, each query of a batch reads the root and nothing else, in
    no loop: a spatial query has the one callback of index 0 when the volume
    of the root satisfies the predicate, and none otherwise; a nearest query
    with [k >= 1] has the one callback of index 0 with the distance of the
    root's volume, whatever that distance (NaN and [+infinity] included),
    and none when [k < 1].  The index is 0, not the index that the leaf
    stores. *)
Theorem one_leaf_tree_is_answered_from_its_root {BV Geometry Node : Type}
  (Details_distance : Geometry -> BV -> float)
  (tag : NodeTag BV Node) (operator : SpatialOperator BV Node)
  (queue : PriorityQueue) (uninitialized : Z) (cuda_arch : bool)
  (fuel : nat) (bvh : BVH Node) (root : Node) :
  size bvh = 1 ->
  deref bvh (getRoot bvh) = Ret root ->
  (forall predicates : list (@SpatialPredicate BV),
     traverse Details_distance uninitialized cuda_arch fuel bvh
       (SpatialPredicates predicates)
     = Ret (map (fun predicate : @SpatialPredicate BV =>
                   Ret (if predicate (getBoundingVolume root)
                        then [SpatialHit 0] else []))
              predicates)) /\
  (forall predicates : list (@NearestPredicate Geometry),
     traverse Details_distance uninitialized cuda_arch fuel bvh
       (NearestPredicates predicates)
     = Ret (map (fun predicate : @NearestPredicate Geometry =>
                   Ret (if getK predicate <? 1 then []
                        else [NearestHit 0
                                (Details_distance (getGeometry predicate)
                                   (getBoundingVolume root))]))
              predicates)).
Proof.
  intros Hs Hr. split; intros predicates.
  - unfold traverse, TreeTraversal_spatial, empty. rewrite Hs.
    cbn [Z.eqb Pos.eqb]. f_equal.
    rewrite map_map. apply map_ext. intros predicate.
    unfold spatial_one_leaf. rewrite Hr. cbn [bind].
    destruct (predicate (getBoundingVolume root)); reflexivity.
  - unfold traverse, TreeTraversal_nearest, empty. rewrite Hs.
    cbn [Z.eqb Pos.eqb bind]. f_equal.
    rewrite map_map. apply map_ext. intros predicate.
    unfold nearest_one_leaf.
    destruct (getK predicate <? 1); [reflexivity|].
    rewrite Hr. reflexivity.
Qed.

(** X15.  The nearest kernel never reads the volume of the root: the root
    enters the loop with the distance [0.f], less than the radius
    [+infinity], and is always examined.  Two encoded trees of at least two
    leaves that differ in the volume of the root only give, for a query with
    [k >= 1] and in either build, the same callbacks in the same order and
    the same count. *)
Theorem nearest_kernel_skips_root_volume {BV Geometry Node : Type}
  (Details_distance : Geometry -> BV -> float)
  (tag : NodeTag BV Node) (queue : PriorityQueue) (cuda_arch : bool)
  (fuel : nat) (bvh bvh' : BVH Node) (predicate : @NearestPredicate Geometry)
  (bv bv' : BV) (l r : @tree BV) :
  encodes bvh (bvh_root bvh) (Internal bv l r) ->
  encodes bvh' (bvh_root bvh') (Internal bv' l r) ->
  (height (Internal bv l r) <= 64)%nat ->
  1 <= getK predicate ->
  (internal_nodes (Internal bv l r) <= fuel)%nat ->
  exists out n,
    nearest Details_distance cuda_arch fuel bvh predicate = Ret (out, n) /\
    nearest Details_distance cuda_arch fuel bvh' predicate = Ret (out, n).
Proof.
  intros He He' Hh Hk Hf.
  destruct (visit_returns (getK predicate)
              (Details_distance (getGeometry predicate)) Hk
              (Internal bv l r) zero empty_heap infinity eq_refl
              (heap_inv_init _ Hk)) as (h' & r' & Hv & _).
  exists (sortHeap h'), (heap_size h'). split.
  - eapply nearest_visit; eauto.
  - eapply nearest_visit; eauto.
Qed.

(** ** Degenerate inputs *)

(** X17.  Degenerate inputs.  On an empty BVH [traverse] launches no task
    and so invokes no callback, whatever the batch, its negative [k_i]
    included.  A nearest query with [k < 1] returns zero results without a
    callback from the one-leaf kernel and from the general kernel; and on
    the general path, once the constructor has allocated the scratch, the
    task of a query with [k_i < 1] returns zero results without a callback,
    before the heap is laid over its view. *)
Theorem degenerate_inputs_return_nothing {BV Geometry Node : Type}
  (Details_distance : Geometry -> BV -> float)
  (tag : NodeTag BV Node) (op : SpatialOperator BV Node)
  (queue : PriorityQueue) (uninitialized : Z) (cuda_arch : bool)
  (fuel : nat) (bvh : BVH Node) :
  (empty bvh = true ->
   forall predicates : Predicates BV Geometry,
     traverse Details_distance uninitialized cuda_arch fuel bvh predicates
     = Ret []) /\
  (forall predicate : @NearestPredicate Geometry,
     getK predicate < 1 ->
     nearest Details_distance cuda_arch fuel bvh predicate = Ret ([], 0) /\
     nearest_one_leaf Details_distance bvh predicate = Ret ([], 0)) /\
  (forall (predicates : list (@NearestPredicate Geometry))
          (provider : BufferProvider) (i : nat)
          (predicate : @NearestPredicate Geometry),
     allocateBuffer uninitialized predicates = Ret provider ->
     nth_error predicates i = Some predicate ->
     getK predicate < 1 ->
     nearest_query Details_distance cuda_arch fuel bvh predicates provider
       (Z.of_nat i) = Ret ([], 0)).
Proof.
  split; [|split].
  - intros He predicates.
    destruct predicates as [ps|ps]; unfold traverse.
    + unfold TreeTraversal_spatial. rewrite He. reflexivity.
    + unfold TreeTraversal_nearest. rewrite He. reflexivity.
  - intros predicate Hk.
    assert (Hlt : (getK predicate <? 1) = true) by (apply Z.ltb_lt, Hk).
    unfold nearest, nearest_one_leaf. rewrite Hlt. split; reflexivity.
  - intros predicates provider i predicate Ha E Hk.
    assert (Hi : (i < length predicates)%nat)
      by (apply nth_error_Some; congruence).
    destruct (provide_returns uninitialized predicates provider i Ha Hi)
      as [buffer Hb].
    unfold nearest_query, view_get.
    replace (Z.of_nat i <? 0) with false by (symmetry; apply Z.ltb_ge; lia).
    rewrite Nat2Z.id, E. cbn [bind]. rewrite Hb. cbn [bind].
    replace (getK predicate <? 1) with true by (symmetry; apply Z.ltb_lt, Hk).
    reflexivity.
Qed.

(** ** The entry point on an encoded tree *)

Lemma internal_nodes_all_nodes {BV : Type} (t : @tree BV) :
  (internal_nodes t <= all_nodes t)%nat.
Proof. induction t; simpl; lia. Qed.

(** A batch that the scratch can serve: the [k_i] of its nearest queries
    are not negative and their sum fits an [int]. *)
Definition provisioned {BV Geometry : Type} (batch : Predicates BV Geometry)
  : Prop :=
  match batch with
  | SpatialPredicates _ => True
  | NearestPredicates ps =>
      Forall (fun p => 0 <= getK p) ps /\ total_k ps <= INT_MAX
  end.

Section Returns.
Context {BV Geometry : Type}.
Variable Details_distance : Geometry -> BV -> float.
Context {Node : Type} `{NodeTag BV Node} `{SpatialOperator BV Node}
  `{PriorityQueue}.
Variable bvh : BVH Node.
Variable t : @tree BV.
Variables (uninitialized : Z) (cuda_arch : bool) (fuel : nat).

Hypothesis Hroot : encodes bvh (bvh_root bvh) t.
Hypothesis Hinternal : tree_is_leaf t = false.
Hypothesis Hheight : (height t <= 64)%nat.
Hypothesis Hfuel : (all_nodes t <= fuel)%nat.
Hypothesis Hsize : 2 <= size bvh.
Hypothesis Hspatial :
  forall predicate, exists out, spatial_operator fuel bvh predicate = Ret out.

Lemma nearest_returns (predicate : @NearestPredicate Geometry) :
  exists found,
    nearest Details_distance cuda_arch fuel bvh predicate = Ret found.
Proof.
  destruct (Z.ltb_spec (getK predicate) 1) as [Hlt|Hk].
  - unfold nearest.
    replace (getK predicate <? 1) with true by (symmetry; apply Z.ltb_lt, Hlt).
    eexists. reflexivity.
  - destruct (visit_returns (getK predicate)
                (Details_distance (getGeometry predicate)) Hk t zero
                empty_heap infinity Hinternal (heap_inv_init _ Hk))
      as (h' & r' & Hv & _).
    eexists. eapply nearest_visit; eauto.
    pose proof (internal_nodes_all_nodes t). lia.
Qed.

Lemma traverse_returns (batch : Predicates BV Geometry) :
  provisioned batch ->
  exists tasks,
    traverse Details_distance uninitialized cuda_arch fuel bvh batch
    = Ret tasks /\
    Forall (fun task => exists callbacks, task = Ret callbacks) tasks.
Proof.
  assert (He : empty bvh = false) by (unfold empty; apply Z.eqb_neq; lia).
  assert (Hone : (size bvh =? 1) = false) by (apply Z.eqb_neq; lia).
  intros Hbatch. destruct batch as [ps|ps]; cbn [traverse provisioned] in *.
  - eexists. split; [reflexivity|].
    rewrite Forall_forall. intros task Hin.
    unfold TreeTraversal_spatial in Hin. rewrite He, Hone, map_map in Hin.
    apply in_map_iff in Hin as (predicate & <- & _).
    destruct (Hspatial predicate) as [out ->]. eexists. reflexivity.
  - destruct Hbatch as [Hk Htotal].
    unfold TreeTraversal_nearest. rewrite He, Hone.
    rewrite (allocateBuffer_returns uninitialized ps Hk Htotal).
    cbn [bind].
    rewrite (map_query_indices _
               (nearest Details_distance cuda_arch fuel bvh) ps)
      by (intros i predicate E; apply nearest_query_serves; assumption).
    eexists. split; [reflexivity|].
    rewrite Forall_forall. intros task Hin. rewrite map_map in Hin.
    apply in_map_iff in Hin as (predicate & <- & _).
    destruct (nearest_returns predicate) as [found ->]. eexists. reflexivity.
Qed.

End Returns.

(** X16.  The entry point is safe on a well-formed BVH.  On a tree of at
    least two leaves and at most 64 levels, in the two-child encoding or in
    the rope encoding with its root at node 0, the constructor behind
    [traverse] returns and launches tasks that all return, for every batch
    of spatial predicates, respecting the nesting or not, and for every
    batch of nearest queries whose [k_i] are not negative and sum to no
    more than the greatest [int], with any distance function and in either
    build: no task reads outside the nodes, writes past the stack or the
    scratch, or reads the top of an empty heap, and each ends within as
    many iterations as the tree has nodes. *)
Theorem traverse_returns_on_encoded_trees {BV Geometry : Type}
  (Details_distance : Geometry -> BV -> float) (queue : PriorityQueue)
  (uninitialized : Z) (cuda_arch : bool) (fuel : nat) (t : @tree BV)
  (batch : Predicates BV Geometry) :
  tree_is_leaf t = false ->
  (height t <= 64)%nat ->
  (all_nodes t <= fuel)%nat ->
  provisioned batch ->
  (forall two : BVH (TwoChildren.Node BV),
     encodes two (bvh_root two) t -> 2 <= size two ->
     exists tasks,
       traverse Details_distance uninitialized cuda_arch fuel two batch
       = Ret tasks /\
       Forall (fun task => exists callbacks, task = Ret callbacks) tasks) /\
  (forall ropes : BVH (LeftChildAndRope.Node BV),
     encodes_rope ropes 0 t ROPE_SENTINEL -> bvh_root ropes = 0 ->
     2 <= size ropes ->
     exists tasks,
       traverse Details_distance uninitialized cuda_arch fuel ropes batch
       = Ret tasks /\
       Forall (fun task => exists callbacks, task = Ret callbacks) tasks).
Proof.
  intros Hi Hh Hf Hbatch. split.
  - intros two He Hs.
    apply (traverse_returns Details_distance two t uninitialized cuda_arch
             fuel He Hi Hh Hf Hs); [|exact Hbatch].
    intros predicate. eexists.
    apply (spatial_stack_trace two predicate t fuel He Hi Hh).
    pose proof (internal_nodes_all_nodes t). lia.
  - intros ropes He H0 Hs.
    apply (traverse_returns Details_distance ropes t uninitialized cuda_arch
             fuel); auto.
    + rewrite H0. eapply encodes_rope_encodes, He.
    + intros predicate. eexists.
      apply (spatial_rope_from_trace ropes predicate 0 t fuel He Hf).
Qed.

(** * The further properties on the scene *)

Lemma rope_kernel_emits_accepted_paths_witness :
  spatial_rope 7 Scene.scene_rope (Scene.within 0 20) = Ret [2; 0; 3; 1] /\
  spatial_rope 7 Scene.scene_rope (Scene.within 0 4) = Ret [] /\
  hits (Scene.within 0 4) Scene.scene = [2; 0].
Proof.
  split; [|split; [|reflexivity]].
  - apply (rope_kernel_emits_accepted_paths Scene.scene_rope
             (Scene.within 0 20) Scene.scene 7); [read_encoding | simpl; lia].
  - apply (rope_kernel_emits_accepted_paths Scene.scene_rope
             (Scene.within 0 4) Scene.scene 7); [read_encoding | simpl; lia].
Defined.

(** The left leaf is reported whether the root is [(0, 4)] or [(9, 9)]. *)
Lemma stack_kernel_skips_root_volume_witness :
  let moved := Internal (9, 9) (Leaf (0, 0) 0) (Leaf (4, 4) 1) in
  exists out,
    spatial_stack 1 Scene.pair_two_children (Scene.within 0 0) = Ret out /\
    spatial_stack 1 (Layout.two_children moved) (Scene.within 0 0) = Ret out /\
    Permutation out [0].
Proof.
  cbv zeta.
  apply (stack_kernel_skips_root_volume Scene.pair_two_children
           (Layout.two_children (Internal (9, 9) (Leaf (0, 0) 0) (Leaf (4, 4) 1)))
           (Scene.within 0 0) (0, 4) (9, 9) (Leaf (0, 0) 0) (Leaf (4, 4) 1) 1);
    [read_encoding | apply two_children_encodes | simpl; lia | simpl; lia].
Defined.

(** [within 0 4] holds of two leaves and not of the root: the rope kernel
    misses both, the stack kernel reports both. *)
Lemma spatial_kernels_emit_only_hits_witness :
  (exists out missed,
     spatial_stack 3 Scene.scene_two_children (Scene.within 0 4) = Ret out /\
     Permutation (out ++ missed) [2; 0]) /\
  (exists out missed,
     spatial_rope 7 Scene.scene_rope (Scene.within 0 4) = Ret out /\
     Permutation (out ++ missed) [2; 0]).
Proof.
  destruct (spatial_kernels_emit_only_hits (Scene.within 0 4) Scene.scene)
    as (Hstack & Hrope).
  split.
  - apply Hstack; [read_encoding | reflexivity | simpl; lia | simpl; lia].
  - apply Hrope; [read_encoding | simpl; lia].
Defined.

Lemma spatial_kernels_emit_stored_leaves_witness :
  Forall (stored_hit Scene.scene_two_children (Scene.overlaps 1 6)) [0; 3] /\
  Forall (stored_hit Scene.pair_rope_root_last (Scene.overlaps 0 4)) [1].
Proof.
  destruct (spatial_kernels_emit_stored_leaves (Scene.overlaps 1 6) 3)
    as (Hstack & _).
  destruct (spatial_kernels_emit_stored_leaves (Scene.overlaps 0 4) 3)
    as (_ & Hrope).
  split; [apply Hstack | apply Hrope]; reflexivity.
Defined.

(** A chain of 100 levels asks no slot beyond the sentinel's. *)
Lemma stack_kernel_fits_deferred_siblings_witness :
  let t := Layout.chain 99 in
  let predicate := Scene.overlaps 0 200 in
  (64 < height t)%nat /\
  deferred predicate t = 0%nat /\
  spatial_stack 100 (Layout.two_children t) predicate
  = Ret (stack_trace predicate t).
Proof.
  cbv zeta. split; [vm_compute; lia|]. split; [vm_compute; reflexivity|].
  apply (stack_kernel_fits_deferred_siblings (Layout.two_children (Layout.chain 99))
           (Scene.overlaps 0 200) (Layout.chain 99) 100);
    [apply two_children_encodes | reflexivity | vm_compute; lia
    | vm_compute; lia].
Defined.

(** A comb of depth 64 has 64 right children waiting at once. *)
Lemma stack_kernel_overflows_witness :
  let t := Layout.comb 64 in
  let predicate := Scene.overlaps 0 200 in
  deferred predicate t = 64%nat /\
  spatial_stack 200 (Layout.two_children t) predicate = Undefined /\
  exists out,
    spatial_stack 200 (Layout.two_children (Layout.comb 63)) predicate
    = Ret out.
Proof.
  cbv zeta. split; [vm_compute; reflexivity|]. split.
  - apply (stack_kernel_overflows (Layout.two_children (Layout.comb 64))
             (Scene.overlaps 0 200) (Layout.comb 64) 200);
      [apply two_children_encodes | reflexivity | vm_compute; lia
      | vm_compute; lia].
  - eexists. vm_compute. reflexivity.
Defined.

Lemma nearest_kernel_emits_stored_leaves_witness :
  let out := [(0, Scene.float_of_Z 1); (2, Scene.float_of_Z 3)] in
  let predicate := mkNearestPredicate 2 3 in
  nearest Scene.point_distance false 3 Scene.scene_two_children predicate
  = Ret (out, 2) /\
  Forall (fun p =>
            stored_candidate Scene.point_distance Scene.scene_two_children
              predicate p /\
            SFltb (snd p) infinity = true) out.
Proof.
  cbv zeta. split; [reflexivity|].
  apply (nearest_kernel_emits_stored_leaves Scene.point_distance
           (NodeWithTwoChildrenTag _) list_heap false 3 Scene.scene_two_children (mkNearestPredicate 2 3)
           [(0, Scene.float_of_Z 1); (2, Scene.float_of_Z 3)] 2 eq_refl).
Defined.

Lemma heap_never_outgrows_k_witness :
  let predicate := mkNearestPredicate 1 1 in
  let s := mkNearest None zero [] [] [(0, Scene.float_of_Z 1)]
             (Scene.float_of_Z 1) in
  nearest_body Scene.point_distance false Scene.pair_two_children predicate
    (nearest_init false Scene.pair_two_children) = Ret s /\
  heap_size (st_heap s) <= 1 /\
  (heap_size (st_heap s) = 1 ->
   exists p, top (st_heap s) = Some p /\ st_radius s = snd p).
Proof.
  cbv zeta.
  assert (Hreach : reachable Scene.point_distance Scene.pair_two_children
                     (mkNearestPredicate 1 1) false
                     (mkNearest None zero [] [] [(0, Scene.float_of_Z 1)]
                        (Scene.float_of_Z 1))).
  { eapply reachable_step; [apply reachable_init | reflexivity]. }
  destruct (heap_never_outgrows_k Scene.point_distance _ list_heap false
              Scene.pair_two_children (mkNearestPredicate 1 1) _
              ltac:(simpl; lia) Hreach) as (Hsize & _ & _ & Htop & _).
  split; [reflexivity|]. split; [exact Hsize | exact Htop].
Defined.

(** A chain of 100 levels defers no child. *)
Lemma nearest_kernel_fits_branching_depth_witness :
  let t := Layout.chain 99 in
  (64 < height t)%nat /\
  branching_depth t = 0%nat /\
  exists out,
    nearest Scene.point_distance false 100 (Layout.two_children t)
      (mkNearestPredicate 2 50) = Ret (out, 2).
Proof.
  cbv zeta. split; [vm_compute; lia|]. split; [vm_compute; reflexivity|].
  destruct (nearest_kernel_fits_branching_depth Scene.point_distance
              (NodeWithTwoChildrenTag _) list_heap false 100
              (Layout.two_children (Layout.chain 99))
              (mkNearestPredicate 2 50) (Layout.chain 99))
    as ((h' & r' & Hv & Hn) & _);
    [apply two_children_encodes | reflexivity | vm_compute; lia | simpl; lia
    | vm_compute; lia|].
  exists (sortHeap h'). rewrite Hn. f_equal. f_equal.
  vm_compute in Hv. injection Hv as <- _. reflexivity.
Defined.

(** With every volume at distance [+infinity] no leaf is reported; with
    the distance to a point, two of the four are. *)
Lemma nearest_kernel_emits_each_leaf_once_witness :
  exists out n left_out,
    nearest Scene.point_distance false 3 Scene.scene_two_children
      (mkNearestPredicate 2 3) = Ret (out, n) /\
    Permutation (leaf_pairs (Scene.point_distance 3) Scene.scene)
      (out ++ left_out).
Proof.
  apply (nearest_kernel_emits_each_leaf_once Scene.point_distance _ list_heap
           false 3 Scene.scene_two_children (mkNearestPredicate 2 3)
           Scene.scene);
    [read_encoding | reflexivity | simpl; lia | simpl; lia | simpl; lia].
Defined.

Lemma nearest_kernel_skips_root_volume_witness :
  let moved := Internal (9, 9) (Leaf (0, 0) 0) (Leaf (4, 4) 1) in
  exists out n,
    nearest Scene.point_distance false 1 Scene.pair_two_children
      (mkNearestPredicate 1 1) = Ret (out, n) /\
    nearest Scene.point_distance false 1 (Layout.two_children moved)
      (mkNearestPredicate 1 1) = Ret (out, n).
Proof.
  cbv zeta.
  apply (nearest_kernel_skips_root_volume Scene.point_distance _ list_heap
           false 1 Scene.pair_two_children
           (Layout.two_children
              (Internal (9, 9) (Leaf (0, 0) 0) (Leaf (4, 4) 1)))
           (mkNearestPredicate 1 1) (0, 4) (9, 9)
           (Leaf (0, 0) 0) (Leaf (4, 4) 1));
    [read_encoding | apply two_children_encodes | simpl; lia | simpl; lia
    | simpl; lia].
Defined.

(** Three queries asking 2, 0 and 3 neighbours. *)
Lemma scratch_views_hold_k_entries_witness :
  let predicates := [mkNearestPredicate 2 1; mkNearestPredicate 0 1;
                     mkNearestPredicate 3 1] in
  exists provider,
    allocateBuffer 12345 predicates = Ret provider /\
    buffer_ provider = mkBuffer 0 5 /\
    offset_ provider = [0; 2; 2; 5] /\
    exists buffer,
      provide provider 2 = Ret buffer /\ buffer_size buffer = 3.
Proof.
  cbv zeta.
  destruct (scratch_views_hold_k_entries 12345
              [mkNearestPredicate 2 1; mkNearestPredicate 0 1;
               mkNearestPredicate 3 1])
    as (provider & Ha & Hb & Hv);
    [repeat constructor; simpl; lia | vm_compute; discriminate|].
  exists provider. split; [exact Ha|]. split; [exact Hb|].
  split; [injection Ha as <-; reflexivity|].
  destruct (Hv 2%nat _ eq_refl) as (buffer & Hp & Hs & _).
  exists buffer. split; [exact Hp | exact Hs].
Defined.

Lemma scratch_views_are_disjoint_witness :
  let predicates := [mkNearestPredicate 2 1; mkNearestPredicate 0 1;
                     mkNearestPredicate 3 1] in
  exists provider bi bj,
    allocateBuffer 12345 predicates = Ret provider /\
    provide provider 0 = Ret bi /\
    provide provider 2 = Ret bj /\
    buffer_end bi <= buffer_begin bj.
Proof.
  cbv zeta.
  destruct (scratch_views_are_disjoint 12345
              [mkNearestPredicate 2 1; mkNearestPredicate 0 1;
               mkNearestPredicate 3 1])
    as (provider & Ha & Hd);
    [repeat constructor; simpl; lia | vm_compute; discriminate|].
  destruct (Hd 0%nat 2%nat _ _ ltac:(lia) eq_refl eq_refl)
    as (bi & bj & Hi & Hj & Hle).
  exists provider, bi, bj. auto.
Defined.

Lemma scratch_serves_every_query_witness :
  let predicates := [mkNearestPredicate 2 3; mkNearestPredicate 0 3;
                     mkNearestPredicate 3 3] in
  TreeTraversal_nearest Scene.point_distance 12345 false 3
    Scene.scene_two_children predicates
  = Ret (map (nearest Scene.point_distance false 3 Scene.scene_two_children)
           predicates).
Proof.
  cbv zeta.
  apply (scratch_serves_every_query Scene.point_distance _ list_heap 12345
           false 3 Scene.scene_two_children);
    [repeat constructor; simpl; lia | vm_compute; discriminate].
Defined.

(** The single leaf stores the index 5 and is reported with the index 0. *)
Lemma one_leaf_tree_is_answered_from_its_root_witness :
  let bvh := mkBVH [TwoChildren.mkNode true 0 0 5 (7, 7)] 1 0 in
  traverse Scene.point_distance 0 false 0 bvh
    (SpatialPredicates [Scene.overlaps 5 9; Scene.overlaps 0 1])
  = Ret [Ret [SpatialHit 0]; Ret []] /\
  traverse Scene.far_distance 0 false 0 bvh
    (NearestPredicates [mkNearestPredicate 1 10; mkNearestPredicate 0 10])
  = Ret [Ret [NearestHit 0 infinity]; Ret []].
Proof.
  cbv zeta.
  destruct (one_leaf_tree_is_answered_from_its_root Scene.point_distance
              _ _ list_heap 0 false 0
              (mkBVH [TwoChildren.mkNode true 0 0 5 (7, 7)] 1 0)
              (TwoChildren.mkNode true 0 0 5 (7, 7)) eq_refl eq_refl)
    as (Hspatial & _).
  destruct (one_leaf_tree_is_answered_from_its_root Scene.far_distance
              _ _ list_heap 0 false 0
              (mkBVH [TwoChildren.mkNode true 0 0 5 (7, 7)] 1 0)
              (TwoChildren.mkNode true 0 0 5 (7, 7)) eq_refl eq_refl)
    as (_ & Hnearest).
  split; [apply Hspatial | apply Hnearest].
Defined.

Lemma traverse_returns_on_encoded_trees_witness :
  (exists tasks,
     traverse Scene.point_distance 12345 true 7 Scene.scene_rope
       (NearestPredicates [mkNearestPredicate 2 3; mkNearestPredicate 0 3])
     = Ret tasks /\
     Forall (fun task => exists callbacks, task = Ret callbacks) tasks) /\
  (exists tasks,
     traverse Scene.far_distance 12345 false 7 Scene.scene_two_children
       (SpatialPredicates [Scene.within 0 4; Scene.overlaps 1 6])
     = Ret tasks /\
     Forall (fun task => exists callbacks, task = Ret callbacks) tasks).
Proof.
  split.
  - destruct (traverse_returns_on_encoded_trees Scene.point_distance list_heap
                12345 true 7 Scene.scene
                (NearestPredicates
                   [mkNearestPredicate 2 3; mkNearestPredicate 0 3]))
      as (_ & Hropes);
      [reflexivity | simpl; lia | simpl; lia
      | split; [repeat constructor; simpl; lia | vm_compute; discriminate]|].
    apply Hropes; [read_encoding | reflexivity | simpl; lia].
  - destruct (traverse_returns_on_encoded_trees Scene.far_distance list_heap
                12345 false 7 Scene.scene
                (SpatialPredicates [Scene.within 0 4; Scene.overlaps 1 6]))
      as (Htwo & _); [reflexivity | simpl; lia | simpl; lia | exact I|].
    apply Htwo; [read_encoding | simpl; lia].
Defined.

(** No leaf, one leaf and four leaves; the batch [k = 2, -1] is allocated
    a buffer of one entry, and its second query returns at once. *)
Lemma degenerate_inputs_return_nothing_witness :
  traverse Scene.point_distance 0 false 3 Scene.no_leaves
    (SpatialPredicates [Scene.overlaps 0 4]) = Ret [] /\
  traverse Scene.point_distance 0 false 3 Scene.no_leaves
    (NearestPredicates [mkNearestPredicate (-2) 3]) = Ret [] /\
  nearest Scene.point_distance false 3 Scene.scene_two_children
    (mkNearestPredicate 0 3) = Ret ([], 0) /\
  nearest_one_leaf Scene.point_distance Scene.single_two_children
    (mkNearestPredicate (-1) 3) = Ret ([], 0) /\
  nearest_query Scene.point_distance false 3 Scene.scene_two_children
    [mkNearestPredicate 2 3; mkNearestPredicate (-1) 3]
    (mkBufferProvider (mkBuffer 0 1) [0; 2; 1]) 1 = Ret ([], 0).
Proof.
  destruct (degenerate_inputs_return_nothing Scene.point_distance _ _
              list_heap 0 false 3 Scene.no_leaves) as (Hempty & _).
  destruct (degenerate_inputs_return_nothing Scene.point_distance _ _
              list_heap 0 false 3 Scene.scene_two_children)
    as (_ & Hgeneral & Htask).
  destruct (degenerate_inputs_return_nothing Scene.point_distance _ _
              list_heap 0 false 3 Scene.single_two_children)
    as (_ & Hleaf & _).
  split; [apply (Hempty eq_refl)|]. split; [apply (Hempty eq_refl)|].
  split; [apply (Hgeneral (mkNearestPredicate 0 3)); simpl; lia|].
  split; [apply (Hleaf (mkNearestPredicate (-1) 3)); simpl; lia|].
  apply (Htask [mkNearestPredicate 2 3; mkNearestPredicate (-1) 3]
           (mkBufferProvider (mkBuffer 0 1) [0; 2; 1]) 1%nat
           (mkNearestPredicate (-1) 3) eq_refl eq_refl).
  simpl; lia.
Defined.
